(** * QSR driver of netket-qsr: dataset conversion, batch composition,
      segment sums and the training step, embedded from
      [src/netket_qsr/driver/qsr.py]. *)

From stdpp Require Import gmap strings list sorting.
From Stdlib Require Import ZArith Lia Ascii.

Local Open Scope Z_scope.
Local Coercion Z.of_nat : nat >-> Z.

(** ** Python exceptions and results *)

Inductive exn :=
  | ValueError | TypeError | AssertionError | IndexError | ZeroDivisionError
  | AttributeError (attr : string).

Inductive res (A : Type) :=
  | Ok (a : A)
  | Err (e : exn).
Arguments Ok {A} a.
Arguments Err {A} e.

#[global] Instance res_ret : MRet res := @Ok.
#[global] Instance res_bind : MBind res :=
  λ A B f m, match m with Ok a => f a | Err e => Err e end.
#[global] Instance res_fmap : FMap res :=
  λ A B f m, match m with Ok a => Ok (f a) | Err e => Err e end.

Definition is_Ok {A} (r : res A) : Prop := ∃ a, r = Ok a.

(** ** Python and numpy sequence primitives *)

(** A slice bound [k] on a sequence of length [n]: negative bounds count
    from the end, everything is clipped to [0, n]. *)
Definition py_clip (n k : Z) : Z :=
  if k <? 0 then Z.max 0 (k + n) else Z.min k n.

Definition py_stop {A} (l : list A) (e : option Z) : Z :=
  match e with Some k => py_clip (length l) k | None => length l end.

(** [l[s:e]]; [e = None] stands for an omitted upper bound. *)
Definition py_slice {A} (l : list A) (s : Z) (e : option Z) : list A :=
  let s' := py_clip (length l) s in
  take (Z.to_nat (py_stop l e - s')) (drop (Z.to_nat s') l).

(** [l[i]] with numpy's bounds check. *)
Definition py_getitem {A} (l : list A) (i : Z) : res A :=
  let i' := if i <? 0 then i + length l else i in
  if (0 <=? i') && (i' <? length l)
  then match l !! Z.to_nat i' with Some x => Ok x | None => Err IndexError end
  else Err IndexError.

(** [l[i] = x] with numpy's bounds check. *)
Definition py_setitem {A} (l : list A) (i : Z) (x : A) : res (list A) :=
  let i' := if i <? 0 then i + length l else i in
  if (0 <=? i') && (i' <? length l)
  then Ok (<[Z.to_nat i' := x]> l)
  else Err IndexError.

(** [l[s:e] = x] for a scalar [x]. *)
Definition py_fillslice {A} (l : list A) (s : Z) (e : option Z) (x : A) : list A :=
  let s' := py_clip (length l) s in
  let m := Z.to_nat (py_stop l e - s') in
  take (Z.to_nat s') l ++ replicate m x ++ drop (Z.to_nat s' + m) l.

(** [l[s:e] = v] for an array [v]: the shapes must agree, except that a
    single row is broadcast over the whole target. *)
Definition py_setslice {A} (l : list A) (s : Z) (e : option Z) (v : list A)
  : res (list A) :=
  let s' := py_clip (length l) s in
  let m := Z.to_nat (py_stop l e - s') in
  if decide (length v = m) then
    Ok (take (Z.to_nat s') l ++ v ++ drop (Z.to_nat s' + m) l)
  else match v with
       | [x] => Ok (py_fillslice l s e x)
       | _ => Err ValueError
       end.

(** [ndarray.resize] along the leading axis: truncates, or extends with the
    zero element [z]; a negative size is refused. *)
Definition np_resize {A} (z : A) (l : list A) (n : Z) : res (list A) :=
  if n <? 0 then Err ValueError
  else Ok (take (Z.to_nat n) l ++ replicate (Z.to_nat n - length l)%nat z).

(** ** The NetKet operator interface *)

(** A configuration is one row of [N] local quantum numbers. *)
Abbreviation Config := (list Z).

(** The two single-site unitaries of [_build_rotation]. *)
Inductive rotation := U_X | U_Y.

(** What the driver uses of NetKet's operators: [U.get_conn(sigma)],
    [U.hilbert.local_size], [U.dtype] by what an array of that dtype keeps
    of a coefficient assigned to it (a real array keeps the real part of a
    complex coefficient), the constructors [LocalOperator(hi, constant=1.0)]
    and [LocalOperator(hi, U, [j])] on [Spin(0.5, N=hi)], and the in-place
    product [localop *= ...]. *)
Class Netket (Coeff Op : Type) := {
  get_conn : Op → Config → list Config * list Coeff;
  local_size : Op → Z;
  astype : Op → Coeff → Coeff;
  LocalOperator_constant : nat → Op;
  LocalOperator_site : nat → rotation → nat → Op;
  op_imul : Op → Op → Op
}.

(** One entry of the bases collection: an operator, a string of per-site
    labels, or any other object. *)
Inductive Base (Op : Type) :=
  | BOp (U : Op)
  | BStr (s : string)
  | BOther.
Arguments BOp {Op} U.
Arguments BStr {Op} s.
Arguments BOther {Op}.

(** The bases argument: a list or ndarray of entries, or something else. *)
Inductive Bases (Op : Type) :=
  | BasesSeq (l : list (Base Op))
  | BasesOther.
Arguments BasesSeq {Op} l.
Arguments BasesOther {Op}.

(** The converted dataset [(sigma_p, mels, secs, MAX_LEN)]. *)
Record Dataset (Coeff : Type) := mkDataset {
  ds_sigma_p : list Config;
  ds_mels : list Coeff;
  ds_secs : list Z;
  ds_max_len : Z
}.
Arguments mkDataset {Coeff}.
Arguments ds_sigma_p {Coeff}.
Arguments ds_mels {Coeff}.
Arguments ds_secs {Coeff}.
Arguments ds_max_len {Coeff}.

Section Conversion.
Context {Coeff Op : Type} `{!Netket Coeff Op}.
Variable c0 : Coeff.

(** The body of the loop over [enumerate(basis)] in [_build_rotation]. *)
Definition rotate_site (hi : nat) (localop : Op) (j : nat) (base : ascii) : Op :=
  if decide (base = "X"%char) then op_imul localop (LocalOperator_site hi U_X j)
  else if decide (base = "Y"%char) then op_imul localop (LocalOperator_site hi U_Y j)
  else localop.

Fixpoint rotate_sites (hi : nat) (localop : Op) (j : nat) (basis : list ascii) : Op :=
  match basis with
  | [] => localop
  | base :: rest => rotate_sites hi (rotate_site hi localop j base) (S j) rest
  end.

(** [_build_rotation(hi, basis)] for [hi = Spin(0.5, N=hi)]. *)
Definition _build_rotation (hi : nat) (basis : string) : res Op :=
  let localop := LocalOperator_constant hi in
  if decide (String.length basis = hi)
  then Ok (rotate_sites hi localop 0 (String.list_ascii_of_string basis))
  else Err AssertionError.

(** The loop of [_check_bases_type] over the label strings, with its cache.
    An entry that is not a string cannot be looked up or measured. *)
Fixpoint build_bases (hilbert : nat) (_cache : gmap string Op) (Us : list (Base Op))
  : res (list (Base Op)) :=
  match Us with
  | [] => Ok []
  | BStr basis :: rest =>
      match _cache !! basis with
      | Some U => (λ r, BOp U :: r) <$> build_bases hilbert _cache rest
      | None =>
          U ← _build_rotation hilbert basis;
          (λ r, BOp U :: r) <$> build_bases hilbert (<[basis := U]> _cache) rest
      end
  | _ :: _ => Err TypeError
  end.

Definition _check_bases_type (Us : Bases Op) : res (list (Base Op)) :=
  match Us with
  | BasesOther => Err ValueError
  | BasesSeq [] => Err IndexError
  | BasesSeq (BOp U :: rest) => Ok (BOp U :: rest)
  | BasesSeq (BStr s :: rest) => build_bases (String.length s) ∅ (BStr s :: rest)
  | BasesSeq (BOther :: _) => Err TypeError
  end.

(** The loop state of [_convert_data]. *)
Record conv_state := mkConv {
  cv_sigma_p : list Config;
  cv_mels : list Coeff;
  cv_secs : list Z;
  cv_last_i : Z;
  cv_Nc : Z;
  cv_MAX_LEN : Z
}.

(** One iteration for record [i = (sigma, U)]; [U0] is [Us[0]], whose dtype
    the coefficient array has. *)
Definition convert_step (N : nat) (U0 : Op) (i : nat) (sigma : Config) (U : Base Op)
  (st : conv_state) : res conv_state :=
  match U with
  | BOp U =>
      let '(sigma_p_i, mels_i) := get_conn U sigma in
      let Nc : Z := length mels_i in
      let last_i := cv_last_i st in
      sigma_p ← np_resize (replicate N 0) (cv_sigma_p st) (last_i + Nc);
      mels ← np_resize c0 (cv_mels st) (last_i + Nc);
      sigma_p ← py_setslice sigma_p last_i None sigma_p_i;
      mels ← py_setslice mels last_i None (astype U0 <$> mels_i);
      secs ← py_setitem (cv_secs st) i last_i;
      Ok (mkConv sigma_p mels secs (last_i + Nc) Nc (Z.max Nc (cv_MAX_LEN st)))
  | _ => Err (AttributeError "get_conn")
  end.

(** The loop over [enumerate(zip(sigma_s, Us))]: it stops with the shorter
    of the two sequences. *)
Fixpoint convert_loop (N : nat) (U0 : Op) (i : nat) (sigma_s : list Config)
  (Us : list (Base Op)) (st : conv_state) : res conv_state :=
  match sigma_s, Us with
  | sigma :: sigma_s', U :: Us' =>
      st' ← convert_step N U0 i sigma U st;
      convert_loop N U0 (S i) sigma_s' Us' st'
  | _, _ => Ok st
  end.

(** [_convert_data(sigma_s, Us)], with [sigma_s] given by its [N]-column
    rows; [sigma_s.reshape(-1, N)] is refused by numpy for rows of no
    column, whatever their number. *)
Definition _convert_data (N : nat) (sigma_s : list Config) (Us : Bases Op)
  : res (Dataset Coeff) :=
  Us ← _check_bases_type Us;
  if decide (N = 0%nat) then Err ValueError else
  let Nb : nat := length sigma_s in
  U0 ← match Us with
       | BOp U :: _ => Ok U
       | _ => Err (AttributeError "hilbert")
       end;
  let Nc := local_size U0 in
  let st0 := mkConv [] [] (replicate (Nb + 1) 0) 0 Nc 0 in
  st ← convert_loop N U0 0 sigma_s Us st0;
  let last_i := cv_last_i st in
  let MAX_LEN := cv_MAX_LEN st in
  sigma_p ← np_resize (replicate N 0) (cv_sigma_p st) (last_i + MAX_LEN);
  mels ← np_resize c0 (cv_mels st) (last_i + MAX_LEN);
  let sigma_p := py_fillslice sigma_p (last_i + cv_Nc st) None (replicate N 0) in
  let mels := py_fillslice mels (last_i + cv_Nc st) None c0 in
  secs ← py_setitem (cv_secs st) (-1) last_i;
  Ok (mkDataset sigma_p mels secs MAX_LEN).

End Conversion.
Arguments conv_state Coeff : clear implicits.

(** ** Batch composition *)

(** The composed batch [(_sigma_p, _mels, _secs, _maxlen)]. *)
Record Batch (Coeff : Type) := mkBatch {
  b_sigma_p : list Config;
  b_mels : list Coeff;
  b_secs : list Z;
  b_maxlen : Z
}.
Arguments mkBatch {Coeff}.
Arguments b_sigma_p {Coeff}.
Arguments b_mels {Coeff}.
Arguments b_secs {Coeff}.
Arguments b_maxlen {Coeff}.

Section Composition.
Context {Coeff : Type}.
Variable c0 : Coeff.

(** The loop state of [_compose_sampled_data]. *)
Record comp_state := mkComp {
  cs_sigma_p : list Config;
  cs_mels : list Coeff;
  cs_secs : list Z;
  cs_maxlen : Z;
  cs_last_i : Z
}.

(** One iteration for the [n]-th sampled index [i]. Indexing follows numpy:
    an index outside the offsets is refused. *)
Definition compose_step (d : Dataset Coeff) (n : nat) (i : Z) (st : comp_state)
  : res comp_state :=
  start_i ← py_getitem (ds_secs d) i;
  end_i ← py_getitem (ds_secs d) (i + 1);
  let len_i := end_i - start_i in
  let last_i := cs_last_i st in
  _sigma_p ← py_setslice (cs_sigma_p st) last_i (Some (last_i + len_i))
                (py_slice (ds_sigma_p d) start_i (Some end_i));
  _mels ← py_setslice (cs_mels st) last_i (Some (last_i + len_i))
             (py_slice (ds_mels d) start_i (Some end_i));
  let last_i := last_i + len_i in
  _secs ← py_setitem (cs_secs st) (n + 1)%nat last_i;
  Ok (mkComp _sigma_p _mels _secs (Z.max (cs_maxlen st) len_i) last_i).

Fixpoint compose_loop (d : Dataset Coeff) (n : nat) (sampled_indices : list Z)
  (st : comp_state) : res comp_state :=
  match sampled_indices with
  | [] => Ok st
  | i :: rest => st' ← compose_step d n i st; compose_loop d (S n) rest st'
  end.

(** [int(np.ceil(a / b))] for [b ≠ 0]. *)
Definition ceil_div (a b : Z) : Z := - ((- a) / b).

(** [_compose_sampled_data(sigma_p, mels, secs, MAX_LEN, sampled_indices,
    min_padding_factor)], with [N = sigma_p.shape[-1]]. *)
Definition _compose_sampled_data (N : nat) (d : Dataset Coeff)
  (sampled_indices : list Z) (min_padding_factor : Z) : res (Batch Coeff) :=
  let N_samples : nat := length sampled_indices in
  let MAX_LEN := ds_max_len d in
  if N_samples * MAX_LEN <? 0 then Err ValueError else
  let rows := Z.to_nat (N_samples * MAX_LEN) in
  let st0 := mkComp (replicate rows (replicate N 0)) (replicate rows c0)
                    (replicate (N_samples + 1) 0) 0 0 in
  st ← compose_loop d 0 sampled_indices st0;
  let last_i := cs_last_i st in
  let padding_factor := Z.max MAX_LEN min_padding_factor in
  if padding_factor =? 0 then Err ZeroDivisionError else
  let padded_size := padding_factor * ceil_div last_i padding_factor in
  Ok (mkBatch (py_slice (cs_sigma_p st) 0 (Some padded_size))
              (py_slice (cs_mels st) 0 (Some padded_size))
              (cs_secs st) (cs_maxlen st)).

End Composition.
Arguments comp_state Coeff : clear implicits.

(** ** Segment sums *)

(** [jnp.cumsum]. *)
Fixpoint cumsum_from (acc : Z) (l : list Z) : list Z :=
  match l with
  | [] => []
  | x :: rest => (acc + x) :: cumsum_from (acc + x) rest
  end.
Definition jnp_cumsum (l : list Z) : list Z := cumsum_from 0 l.

(** [jnp.arange(n)]. *)
Definition jnp_arange (n : nat) : list Z := Z.of_nat <$> seq 0 n.

(** [buf.at[idxs].add(1)]: a negative index counts from the end, an index
    outside the buffer is dropped. *)
Definition scatter_add1 (buf : list Z) (idxs : list Z) : list Z :=
  fold_left (λ b i,
    let i' := if i <? 0 then i + length b else i in
    if (0 <=? i') && (i' <? length b) then alter Z.succ (Z.to_nat i') b else b)
    idxs buf.

(** [jnp.repeat(a, repeats, total_repeat_length=L)] as JAX computes it:
    the start of each block is marked in a zero buffer, and a cumulative sum
    of the marks gives the index into [a] for every output position. *)
Definition jnp_repeat (a : list Z) (repeats : list Z) (total_repeat_length : nat) : list Z :=
  if decide (total_repeat_length = 0%nat) then []
  else match a with
  | [] => []
  | _ =>
    (* roll(repeats, shift=1).at[0].set(0) *)
    let exclusive_repeats :=
      match repeats with
      | [] => []
      | _ => 0 :: take (length repeats - 1) repeats
      end in
    let scatter_indices := jnp_cumsum exclusive_repeats in
    let block_split_indicators :=
      scatter_add1 (replicate total_repeat_length 0) scatter_indices in
    let gather_indices := (λ x, x - 1) <$> jnp_cumsum block_split_indicators in
    (λ g, default 0 (a !! Z.to_nat g)) <$> gather_indices
  end.

Section Sums.
Context {A : Type}.
Variable zero : A.
Variable add : A → A → A.

(** [jnp.sum] of a flat array. *)
Definition jnp_sum (l : list A) : A := fold_left add l zero.

(** [jax.ops.segment_sum(data, segment_ids, num_segments)]: entry [s] adds
    up the data whose segment id is [s]. *)
Definition segment_sum (data : list A) (segment_ids : list Z) (num_segments : nat)
  : list A :=
  (λ s : nat,
     fold_left (λ acc p, if decide (p.2 = Z.of_nat s) then add acc p.1 else acc)
               (zip data segment_ids) zero)
  <$> seq 0 num_segments.

(** [sum_sections(arr, secs)]. Without any offset the row count is
    negative, which is refused; with a single offset there is no row and
    the result is empty. *)
Definition sum_sections (arr : list A) (secs : list Z) : res (list A) :=
  let offsets := py_slice secs 0 (Some (-1)) in
  let sizes := zip_with Z.sub (py_slice secs 1 None) offsets in
  if decide (secs = []) then Err ValueError else
  let N_rows := (length secs - 1)%nat in
  let indices := jnp_repeat (jnp_arange N_rows) sizes (length arr) in
  Ok (segment_sum arr indices N_rows).

End Sums.

(** ** Parameter trees and gradients *)

(** A PyTree: a leaf, or a dictionary of named subtrees. *)
#[local] Unset Elimination Schemes.
Inductive tree (A : Type) :=
  | Leaf (a : A)
  | Node (children : list (string * tree A)).
#[local] Set Elimination Schemes.
Arguments Leaf {A} a.
Arguments Node {A} children.

Section TreeInd.
Context {A : Type} (P : tree A → Prop).
Hypothesis HLeaf : ∀ a, P (Leaf a).
Hypothesis HNode : ∀ cs, Forall (λ kc, P kc.2) cs → P (Node cs).

Fixpoint tree_ind' (t : tree A) : P t :=
  match t with
  | Leaf a => HLeaf a
  | Node cs =>
      HNode cs ((fix go (cs : list (string * tree A)) : Forall (λ kc, P kc.2) cs :=
                   match cs with
                   | [] => List.Forall_nil _
                   | kc :: rest => List.Forall_cons _ kc rest (tree_ind' kc.2) (go rest)
                   end) cs)
  end.
End TreeInd.

(** The leaf reached by a path of keys. *)
Fixpoint tree_lookup {A} (path : list string) (t : tree A) : option A :=
  match path, t with
  | [], Leaf a => Some a
  | k :: path', Node cs =>
      (fix go (cs : list (string * tree A)) : option A :=
         match cs with
         | [] => None
         | (k', c) :: rest => if decide (k = k') then tree_lookup path' c else go rest
         end) cs
  | _, _ => None
  end.

(** [jax.tree_map(f, t, u)] for two trees of one structure; a difference in
    structure is refused. *)
Fixpoint tree_map2 {A B C} (f : A → B → res C) (t : tree A) (u : tree B) : res (tree C) :=
  match t, u with
  | Leaf a, Leaf b => Leaf <$> f a b
  | Node ts, Node us =>
      Node <$>
      (fix go (ts : list (string * tree A)) (us : list (string * tree B))
         : res (list (string * tree C)) :=
         match ts, us with
         | [], [] => Ok []
         | (k, t') :: ts', (k', u') :: us' =>
             if decide (k = k') then
               c ← tree_map2 f t' u'; rest ← go ts' us'; Ok ((k, c) :: rest)
             else Err ValueError
         | _, _ => Err ValueError
         end) ts us
  | _, _ => Err ValueError
  end.

(** The arithmetic of the real scalars the arrays hold. *)
Class Real (R : Type) := {
  r_zero : R;
  r_two : R;
  r_sub : R → R → R;
  r_opp : R → R;
  r_mul : R → R → R
}.

(** A flat array with its dtype: real, or complex as (real, imaginary)
    pairs. *)
Inductive leaf (R : Type) :=
  | RealArr (l : list R)
  | ComplexArr (l : list (R * R)).
Arguments RealArr {R} l.
Arguments ComplexArr {R} l.

Section Gradients.
Context {R : Type} `{!Real R}.

Definition to_complex (x : R) : R * R := (x, r_zero).

(** [jnp.iscomplexobj]. *)
Definition iscomplexobj (x : leaf R) : bool :=
  match x with ComplexArr _ => true | RealArr _ => false end.

(** [x.real] and [x.imag]. *)
Definition leaf_real (x : leaf R) : leaf R :=
  match x with
  | RealArr l => RealArr l
  | ComplexArr l => RealArr l.*1
  end.
Definition leaf_imag (x : leaf R) : leaf R :=
  match x with
  | RealArr l => RealArr (replicate (length l) r_zero)
  | ComplexArr l => RealArr l.*2
  end.

(** The entries of an array as complex numbers. *)
Definition leaf_values (x : leaf R) : list (R * R) :=
  match x with
  | RealArr l => to_complex <$> l
  | ComplexArr l => l
  end.

(** Element-wise equality of two arrays, across dtypes. *)
Definition leaf_eq (x y : leaf R) : Prop := leaf_values x = leaf_values y.

(** [x - y] on arrays of one shape, with numpy's dtype promotion. *)
Definition leaf_sub (x y : leaf R) : res (leaf R) :=
  let csub (a b : R * R) := (r_sub a.1 b.1, r_sub a.2 b.2) in
  if decide (length (leaf_values x) = length (leaf_values y)) then
    match x, y with
    | RealArr a, RealArr b => Ok (RealArr (zip_with r_sub a b))
    | _, _ => Ok (ComplexArr (zip_with csub (leaf_values x) (leaf_values y)))
    end
  else Err TypeError.

(** [jnp.conj]. *)
Definition leaf_conj (x : leaf R) : leaf R :=
  match x with
  | RealArr l => RealArr l
  | ComplexArr l => ComplexArr ((λ z, (z.1, r_opp z.2)) <$> l)
  end.

(** [2.0 * x]. *)
Definition leaf_double (x : leaf R) : leaf R :=
  match x with
  | RealArr l => RealArr (r_mul r_two <$> l)
  | ComplexArr l => ComplexArr ((λ z, (r_mul r_two z.1, r_mul r_two z.2)) <$> l)
  end.

(** The leaf function of [compose_grads]: [2.0 * jnp.conj(x - y)]. *)
Definition compose_leaf (x y : leaf R) : res (leaf R) :=
  d ← leaf_sub x y; Ok (leaf_double (leaf_conj d)).

Definition compose_grads (grad_neg grad_pos : tree (leaf R)) : res (tree (leaf R)) :=
  tree_map2 compose_leaf grad_neg grad_pos.

(** The leaf function of the final projection:
    [x if jnp.iscomplexobj(target) else x.real]. *)
Definition project_leaf (x target : leaf R) : leaf R :=
  if iscomplexobj target then x else leaf_real x.

(** [netket.optimizer.identity_preconditioner]. *)
Definition identity_preconditioner {VState : Type} (vstate : VState)
  (gradient : tree (leaf R)) : res (tree (leaf R)) := Ok gradient.

End Gradients.

(** ** A symbolic instance of the operator interface

    Operators are products of single-site rotations on [Spin(0.5, N)];
    a coefficient [(re + i·im) / √2^half] is kept exactly. Every operator
    has the dtype [complex] that [_build_rotation] gives it, so that an
    array of its dtype keeps a coefficient as it is. *)

Record amp := mkAmp { a_re : Z; a_im : Z; a_half : nat }.

Definition amp_zero : amp := mkAmp 0 0 0.
Definition amp_one : amp := mkAmp 1 0 0.
Definition amp_mul (a b : amp) : amp :=
  mkAmp (a_re a * a_re b - a_im a * a_im b) (a_re a * a_im b + a_im a * a_re b)
        (a_half a + a_half b).

Record sym_op := mkSym { so_sites : nat; so_factors : list (rotation * nat) }.

(** The entries of [U_X = 1/√2 [[1, 1], [1, -1]]] and
    [U_Y = 1/√2 [[1, -i], [1, i]]]; row and column [false] are the local
    state [-1], [true] the local state [+1]. *)
Definition rot_entry (r : rotation) (row col : bool) : amp :=
  match r, row, col with
  | U_X, true, true => mkAmp (-1) 0 1
  | U_X, _, _ => mkAmp 1 0 1
  | U_Y, false, true => mkAmp 0 (-1) 1
  | U_Y, true, true => mkAmp 0 1 1
  | U_Y, _, false => mkAmp 1 0 1
  end.

Definition spin_up (sigma : Config) (j : nat) : bool :=
  match sigma !! j with Some s => 0 <? s | None => false end.

(** The row of one factor: the local state the configuration has at site
    [j] first, then the other one. *)
Definition expand_factor (f : rotation * nat) (entry : Config * amp)
  : list (Config * amp) :=
  let '(r, j) := f in
  let '(sigma, a) := entry in
  let up := spin_up sigma j in
  [ (<[j := if up then 1 else -1]> sigma, amp_mul a (rot_entry r up up));
    (<[j := if up then -1 else 1]> sigma, amp_mul a (rot_entry r up (negb up))) ].

Definition sym_get_conn (U : sym_op) (sigma : Config) : list Config * list amp :=
  let entries :=
    fold_left (λ acc f, acc ≫= expand_factor f) (so_factors U) [(sigma, amp_one)] in
  (entries.*1, entries.*2).

#[global] Instance sym_netket : Netket amp sym_op := {|
  get_conn := sym_get_conn;
  local_size := λ _, 2;
  astype := λ _ a, a;
  LocalOperator_constant := λ hi, mkSym hi [];
  LocalOperator_site := λ hi r j, mkSym hi [(r, j)];
  op_imul := λ a b, mkSym (so_sites a) (so_factors a ++ so_factors b)
|}.


(** ** The QSR driver *)

(** What a worker process is given from outside: its MPI rank, the number
    of workers, and the entropy a seed of [None] falls back on. *)
Record env := mkEnv { mpi_rank : nat; mpi_n_nodes : nat; os_entropy : Z }.

(** The collaborators of the driver, taken as given: the variational state
    with its sampler, the differentiated kernels [_avg_O],
    [grad_local_value_rotated] and the value [nll] computes from a batch,
    the optimizer step, and the random generators ([mpi_split] takes the
    rank and the number of workers). A [VState] value is the whole state of
    the variational-state object; an operation that changes the object
    returns the new value. *)
Class Collaborators (Coeff R VState Optimizer Key Rng : Type) := {
  vs_reset : VState → VState;
  vs_samples : VState → VState;
  vs_parameters : VState → tree (leaf R);
  _avg_O : VState → tree (leaf R);
  grad_local_value_rotated :
    VState → list Config → list Coeff → list Z → list (R * R) * tree (leaf R);
  nll_value : VState → list Config → list Coeff → list Z → R;
  update_parameters : Optimizer → VState → tree (leaf R) → Optimizer * VState;
  PRNGKey : Z → Key;
  mpi_split : nat → nat → Key → Key;
  default_rng : Key → Rng;
  rng_integers : Rng → Z → Z → res (list Z * Rng)
}.

Module QSR.
Section Driver.
Context {Coeff Op R VState Optimizer Key Rng : Type}.
Context `{!Netket Coeff Op} `{!Real R} `{!Collaborators Coeff R VState Optimizer Key Rng}.
Variable c0 : Coeff.

(** The values the attributes of a driver hold. *)
Inductive pyval :=
  | VNone
  | VInt (n : Z)
  | VRows (N : nat) (rows : list Config)
  | VCoeffs (l : list Coeff)
  | VInts (l : list Z)
  | VTree (t : tree (leaf R))
  | VBases (Us : Bases Op)
  | VRng (g : Rng)
  | VState_ (s : VState)
  | VOptimizer (o : Optimizer)
  | VPreconditioner (p : VState → tree (leaf R) → res (tree (leaf R))).

(** The argument [training_data]: a 2-tuple of samples and bases, or
    anything else. *)
Inductive TrainingData :=
  | TDPair (N : nat) (sigma_s : list Config) (Us : Bases Op)
  | TDOther.

(** [self.name]: a missing attribute is an attribute error. *)
Definition getattr (self : gmap string pyval) (name : string) : res pyval :=
  match self !! name with
  | Some v => Ok v
  | None => Err (AttributeError name)
  end.

Definition as_int (v : pyval) : res Z :=
  match v with VInt n => Ok n | _ => Err TypeError end.
Definition as_rows (v : pyval) : res (nat * list Config) :=
  match v with VRows N l => Ok (N, l) | _ => Err TypeError end.
Definition as_coeffs (v : pyval) : res (list Coeff) :=
  match v with VCoeffs l => Ok l | _ => Err TypeError end.
Definition as_ints (v : pyval) : res (list Z) :=
  match v with VInts l => Ok l | _ => Err TypeError end.
Definition as_rng (v : pyval) : res Rng :=
  match v with VRng g => Ok g | _ => Err TypeError end.
Definition as_state (v : pyval) : res VState :=
  match v with VState_ s => Ok s | _ => Err TypeError end.
Definition as_optimizer (v : pyval) : res Optimizer :=
  match v with VOptimizer o => Ok o | _ => Err TypeError end.
Definition as_preconditioner (v : pyval)
  : res (VState → tree (leaf R) → res (tree (leaf R))) :=
  match v with VPreconditioner p => Ok p | _ => Err TypeError end.

(** [AbstractVariationalDriver.__init__(variational_state, optimizer)] of
    NetKet, by the attributes it sets. *)
Definition super_init (e : env) (variational_state : VState) (optimizer : Optimizer)
  : gmap string pyval :=
  <["_optimizer" := VOptimizer optimizer]>
  (<["_variational_state" := VState_ variational_state]>
  (<["_step_count" := VInt 0]>
  (<["_loss_stats" := VNone]>
  (<["_mpi_nodes" := VInt (mpi_n_nodes e)]>
  (<["_mynode" := VInt (mpi_rank e)]> ∅))))).

(** The property [self.state]. *)
Definition state (self : gmap string pyval) : res VState :=
  getattr self "_variational_state" ≫= as_state.

(** [QSR.__init__]. A seed of [None] is replaced by outside entropy. *)
Definition __init__ (e : env) (training_data : TrainingData) (training_batch_size : Z)
  (optimizer : Optimizer) (variational_state : VState)
  (preconditioner : VState → tree (leaf R) → res (tree (leaf R)))
  (seed : option Z) : res (gmap string pyval) :=
  let self := super_init e variational_state optimizer in
  let self := <["preconditioner" := VPreconditioner preconditioner]> self in
  let self := <["_dp" := VNone]> self in
  let self := <["_S" := VNone]> self in
  let self := <["_sr_info" := VNone]> self in
  match training_data with
  | TDOther => Err TypeError
  | TDPair N sigma_s Us =>
      let self :=
        <["_rng" := VRng (default_rng (mpi_split (mpi_rank e) (mpi_n_nodes e)
                                          (PRNGKey (default (os_entropy e) seed))))]>
          self in
      d ← _convert_data c0 N sigma_s Us;
      let self := <["_training_samples" := VRows N sigma_s]> self in
      let self := <["_training_rotations" := VBases Us]> self in
      let self := <["_training_sigma_p" := VRows N (ds_sigma_p d)]> self in
      let self := <["_training_mels" := VCoeffs (ds_mels d)]> self in
      let self := <["_training_secs" := VInts (ds_secs d)]> self in
      let self := <["_training_max_len" := VInt (ds_max_len d)]> self in
      let self := <["_training_samples_n" := VInt (length (ds_secs d) - 1)]> self in
      Ok (<["training_batch_size" := VInt training_batch_size]> self)
  end.

(** [QSR._forward_and_backward]: the update and the driver after the step. *)
Definition _forward_and_backward (self : gmap string pyval)
  : res (tree (leaf R) * gmap string pyval) :=
  st ← state self;
  let st := vs_reset st in
  let st := vs_samples st in
  let grad_neg := _avg_O st in
  let self := <["_variational_state" := VState_ st]> self in
  let self := <["_grad_neg" := VTree grad_neg]> self in
  (* sample training data for pos grad *)
  rng ← getattr self "_rng" ≫= as_rng;
  n ← getattr self "_training_samples_n" ≫= as_int;
  size ← getattr self "training_batch_size" ≫= as_int;
  '(draw, rng) ← rng_integers rng n size;
  let self := <["_rng" := VRng rng]> self in
  let self := <["_sampled_indices" := VInts (merge_sort Z.le draw)]> self in
  (* compose data *)
  '(N, sigma_p) ← getattr self "_training_sigma_p" ≫= as_rows;
  mels ← getattr self "_training_mels" ≫= as_coeffs;
  secs ← getattr self "_training_secs" ≫= as_ints;
  MAX_LEN ← getattr self "_training_max_len" ≫= as_int;
  sampled_indices ← getattr self "_sampled_indices" ≫= as_ints;
  b ← _compose_sampled_data c0 N (mkDataset sigma_p mels secs MAX_LEN) sampled_indices 128;
  let self := <["_sigma_p" := VRows N (b_sigma_p b)]> self in
  let self := <["_mels" := VCoeffs (b_mels b)]> self in
  let self := <["_secs" := VInts (b_secs b)]> self in
  let self := <["_maxlen" := VInt (b_maxlen b)]> self in
  let '(_log_val_rot, grad_pos) :=
    grad_local_value_rotated st (b_sigma_p b) (b_mels b) (b_secs b) in
  let self := <["_grad_pos" := VTree grad_pos]> self in
  loss_grad ← compose_grads grad_neg grad_pos;
  let self := <["_loss_grad" := VTree loss_grad]> self in
  preconditioner ← getattr self "preconditioner" ≫= as_preconditioner;
  dp ← preconditioner st loss_grad;
  let self := <["_dp" := VTree dp]> self in
  (* If parameters are real, then take only real part of the gradient *)
  dp ← tree_map2 (λ x target, Ok (project_leaf x target)) dp (vs_parameters st);
  let self := <["_dp" := VTree dp]> self in
  Ok (dp, self).

(** [QSR.nll]: the arguments are read in order, then the value is
    computed from them. *)
Definition nll (self : gmap string pyval) : res R :=
  st ← state self;
  '(_, sigma_p) ← getattr self "_sigma_p" ≫= as_rows;
  mels ← getattr self "_mels" ≫= as_coeffs;
  secs ← getattr self "_secs" ≫= as_ints;
  Ok (nll_value st sigma_p mels secs).

(** [steps] iterations of NetKet's training loop: a training step, then the
    optimizer step on the update. The indices each step sampled are
    collected on the way. *)
Fixpoint advance (steps : nat) (self : gmap string pyval)
  : res (list (list Z) * gmap string pyval) :=
  match steps with
  | O => Ok ([], self)
  | S steps' =>
      '(dp, self) ← _forward_and_backward self;
      sampled ← getattr self "_sampled_indices" ≫= as_ints;
      count ← getattr self "_step_count" ≫= as_int;
      let self := <["_step_count" := VInt (count + 1)]> self in
      optimizer ← getattr self "_optimizer" ≫= as_optimizer;
      st ← state self;
      let '(optimizer, st) := update_parameters optimizer st dp in
      let self := <["_optimizer" := VOptimizer optimizer]> self in
      let self := <["_variational_state" := VState_ st]> self in
      '(rest, self) ← advance steps' self;
      Ok (sampled :: rest, self)
  end.

(** The sorted index arrays that [steps] draws of [size] indices below [n]
    give, starting from the generator [g]. *)
Fixpoint draw_trace (g : Rng) (n size : Z) (steps : nat) : res (list (list Z)) :=
  match steps with
  | O => Ok []
  | S steps' =>
      '(draw, g') ← rng_integers g n size;
      rest ← draw_trace g' n size steps';
      Ok (merge_sort Z.le draw :: rest)
  end.

End Driver.

Section Reporting.
Context {Coeff Op R VState Optimizer Key Rng : Type}.
Context `{!Netket Coeff Op} `{!Real R} `{!Collaborators Coeff R VState Optimizer Key Rng}.

(** What the reporting methods take from outside: [info] of
    [netket.driver.vmc_common] with the join and the formats of Python, and
    [repr] of the driver. *)
Variable info_line : string → @pyval Coeff Op R VState Optimizer Rng → nat → string.
Variable join_lines : nat → list string → string.
Variable repr_driver : Z → VState → string.

(** [QSR.__repr__], through the properties [step_count] and [state]. *)
Definition __repr__ (self : gmap string (@pyval Coeff Op R VState Optimizer Rng))
  : res string :=
  step_count ← getattr self "_step_count" ≫= as_int;
  st ← state self;
  Ok (repr_driver step_count st).

(** [QSR.info(depth)]: the list of the three objects is built first, then
    one line for each, then [str(self)]. *)
Definition info (self : gmap string (@pyval Coeff Op R VState Optimizer Rng)) (depth : nat)
  : res string :=
  _optimizer ← getattr self "_optimizer";
  sr ← getattr self "sr";
  st ← state self;
  let lines :=
    (λ p : string * @pyval Coeff Op R VState Optimizer Rng, info_line p.1 p.2 (depth + 1))
    <$> [("Optimizer   ", _optimizer); ("SR solver   ", sr); ("State       ", VState_ st)] in
  str_self ← __repr__ self;
  Ok (join_lines (3 * (depth + 1)) (str_self :: lines)).

End Reporting.
End QSR.

(** ** Scripted collaborators for the examples

    Real scalars are integers; the variational state replays the gradient
    trees it was given; the generator is a linear congruential one. *)

#[global] Instance Z_real : Real Z := {|
  r_zero := 0; r_two := 2; r_sub := Z.sub; r_opp := Z.opp; r_mul := Z.mul
|}.

Record scripted_state := mkScripted {
  sc_parameters : tree (leaf Z);
  sc_grad_neg : tree (leaf Z);
  sc_grad_pos : tree (leaf Z)
}.

Fixpoint lcg_draws (g n : Z) (size : nat) : list Z * Z :=
  match size with
  | O => ([], g)
  | S size' =>
      let g' := (1103515245 * g + 12345) `mod` 2147483648 in
      let '(rest, g'') := lcg_draws g' n size' in
      (g' `mod` n :: rest, g'')
  end.

#[global] Instance scripted : Collaborators amp Z scripted_state unit Z Z := {|
  vs_reset := λ st, st;
  vs_samples := λ st, st;
  vs_parameters := sc_parameters;
  _avg_O := sc_grad_neg;
  grad_local_value_rotated := λ st _ _ _, ([], sc_grad_pos st);
  nll_value := λ _ _ _ _, 0;
  update_parameters := λ o st _, (o, st);
  PRNGKey := λ seed, seed;
  mpi_split := λ rank n_nodes key, key * n_nodes + rank;
  default_rng := λ key, key;
  rng_integers := λ g n size,
    if (n <=? 0) || (size <? 0) then Err ValueError
    else Ok (lcg_draws g n (Z.to_nat size))
|}.

(** ** Quantities the statements speak about *)

Definition Zsum (l : list Z) : Z := foldr Z.add 0 l.
Definition Zmax_list (l : list Z) : Z := foldr Z.max 0 l.

(** Non-decreasing offsets. *)
Definition nondecreasing (secs : list Z) : Prop :=
  ∀ (i j : nat) a b, (i ≤ j)%nat → secs !! i = Some a → secs !! j = Some b → a ≤ b.

(** The number of connected configurations of one record, read as the code
    reads it: [mels_i.size]. *)
Definition conn_count {Coeff Op} `{!Netket Coeff Op} (sigma : Config) (U : Base Op) : Z :=
  match U with
  | BOp U => length (get_conn U sigma).2
  | _ => 0
  end.

Definition record_counts {Coeff Op} `{!Netket Coeff Op}
  (sigma_s : list Config) (Us : list (Base Op)) : list Z :=
  zip_with conn_count sigma_s Us.

(** The buffers of the conversion loop hold exactly [last_i] entries. *)
Definition conv_wf {Coeff} (st : conv_state Coeff) : Prop :=
  0 ≤ cv_last_i st ∧ 0 ≤ cv_MAX_LEN st ∧
  (length (cv_sigma_p st) : Z) = cv_last_i st ∧
  (length (cv_mels st) : Z) = cv_last_i st.

(** ** Concrete data for the examples *)

(** Two one-site records: [+1] measured along [Z], [-1] measured along [X]. *)
Definition example_samples : list Config := [[1]; [-1]].
Definition example_bases : list (Base sym_op) := [BStr "Z"; BStr "X"].
Definition example_dataset : Dataset amp :=
  mkDataset [[1]; [-1]; [1]; [0]; [0]]
            [amp_one; mkAmp 1 0 1; mkAmp 1 0 1; amp_zero; amp_zero]
            [0; 1; 3] 2.

(** The labels [_build_rotation] names: ["X"], ["Y"], ["Z"], ["I"]. *)
Definition recognized (base : ascii) : bool :=
  bool_decide (base ∈ ["X"; "Y"; "Z"; "I"]%char).

(** Reads every label the loop of [_build_rotation] passes over as ["I"]. *)
Definition relabel (base : ascii) : ascii :=
  if decide (base = "X"%char) then base
  else if decide (base = "Y"%char) then base
  else "I"%char.

Fixpoint string_map (f : ascii → ascii) (s : string) : string :=
  match s with
  | EmptyString => EmptyString
  | String c s' => String (f c) (string_map f s')
  end.

(** Three samples with only two bases. *)
Definition short_bases_samples : list Config := [[1]; [-1]; [1]].
Definition short_bases : list (Base sym_op) := [BStr "Z"; BStr "I"].

(** The segment invariant of a converted dataset, as [_compose_sampled_data]
    relies on it. *)
Record dataset_wf {Coeff} (d : Dataset Coeff) : Prop := mkDatasetWf {
  wf_first : ds_secs d !! 0%nat = Some 0;
  wf_mono : nondecreasing (ds_secs d);
  wf_seg : ∀ (i : nat) a b,
    ds_secs d !! i = Some a → ds_secs d !! S i = Some b → b - a ≤ ds_max_len d;
  wf_max : 0 ≤ ds_max_len d;
  wf_sigma_p : ∀ t, last (ds_secs d) = Some t → t ≤ length (ds_sigma_p d);
  wf_mels : ∀ t, last (ds_secs d) = Some t → t ≤ length (ds_mels d)
}.

(** The number of records of a dataset: [len(secs) - 1]. *)
Definition n_records {Coeff} (d : Dataset Coeff) : Z := length (ds_secs d) - 1.

(** The buffers of the composition loop after [n] of [N_samples] copies. *)
Definition comp_wf {Coeff} (d : Dataset Coeff) (N_samples n : nat)
  (st : comp_state Coeff) : Prop :=
  0 ≤ cs_last_i st ≤ n * ds_max_len d ∧
  (length (cs_sigma_p st) : Z) = N_samples * ds_max_len d ∧
  (length (cs_mels st) : Z) = N_samples * ds_max_len d ∧
  length (cs_secs st) = S N_samples ∧
  cs_secs st !! n = Some (cs_last_i st).

(** The entries [l[a:b]] for [0 ≤ a ≤ b ≤ len(l)]. *)
Definition segment {A} (l : list A) (a b : Z) : list A :=
  take (Z.to_nat (b - a)) (drop (Z.to_nat a) l).

(** Batch segment [n] of the buffers [(sp, m, secs')] is the dataset's
    segment of record [i]: same length, same entries in the same order, and
    both ranges lie inside their arrays. *)
Definition segment_copied {Coeff} (d : Dataset Coeff)
  (sp : list Config) (m : list Coeff) (secs' : list Z) (n : nat) (i : Z) : Prop :=
  ∃ s e a b,
    ds_secs d !! Z.to_nat i = Some s ∧ ds_secs d !! S (Z.to_nat i) = Some e ∧
    secs' !! n = Some a ∧ secs' !! S n = Some b ∧
    0 ≤ s ≤ e ∧ e ≤ length (ds_sigma_p d) ∧ e ≤ length (ds_mels d) ∧
    0 ≤ a ≤ b ∧ b ≤ length sp ∧ b ≤ length m ∧
    b - a = e - s ∧
    py_slice sp a (Some b) = py_slice (ds_sigma_p d) s (Some e) ∧
    py_slice m a (Some b) = py_slice (ds_mels d) s (Some e).

(** The true length [secs[i+1] - secs[i]] of record [i], and the true total
    length of the segments a list of sampled indices copies. *)
Definition segment_length {Coeff} (d : Dataset Coeff) (i : Z) : Z :=
  match ds_secs d !! Z.to_nat i, ds_secs d !! S (Z.to_nat i) with
  | Some s, Some e => e - s
  | _, _ => 0
  end.

Definition copied_total {Coeff} (d : Dataset Coeff) (sampled_indices : list Z) : Z :=
  Zsum (segment_length d <$> sampled_indices).

(** Two one-site records measured along [Z]. *)
Definition identity_samples : list Config := [[1]; [-1]].
Definition identity_bases : list (Base sym_op) := [BStr "Z"; BStr "Z"].
Definition identity_dataset : Dataset amp :=
  mkDataset [[1]; [-1]; [0]] [amp_one; amp_one; amp_zero] [0; 1; 2] 1.

(** How many entries of [l] are below [n]. *)
Definition count_below (n : Z) (l : list Z) : Z :=
  Zsum ((λ x, if x <? n then 1 else 0) <$> l).

(** The loop of the docstring of [sum_sections]:
    [out[i] = jnp.sum(arr[secs[i]:secs[i+1]])]. *)
Definition documented_sums {A} (zero : A) (add : A → A → A)
  (arr : list A) (secs : list Z) : list A :=
  zip_with (λ a b, jnp_sum zero add (py_slice arr a (Some b))) secs (drop 1 secs).

(** A driver on the example dataset: one real parameter array, a complex
    negative-phase gradient, the identity preconditioner. *)
Definition example_parameters : tree (leaf Z) := Node [("w", Leaf (RealArr [0]))].
Definition example_state : scripted_state :=
  mkScripted example_parameters
             (Node [("w", Leaf (ComplexArr [(1, 1)]))])
             (Node [("w", Leaf (ComplexArr [(0, 0)]))]).
Definition example_env : env := mkEnv 0 1 7.
Definition example_training_data : QSR.TrainingData (Op:=sym_op) :=
  QSR.TDPair 1 example_samples (BasesSeq example_bases).
Definition example_driver : res (gmap string QSR.pyval) :=
  QSR.__init__ amp_zero example_env example_training_data 3 tt example_state
    identity_preconditioner (Some 42).

(** The attributes a training step writes. *)
Definition step_writes : list string :=
  ["_variational_state"; "_grad_neg"; "_rng"; "_sampled_indices"; "_sigma_p";
   "_mels"; "_secs"; "_maxlen"; "_grad_pos"; "_loss_grad"; "_dp"].

(** The example driver, its first training step and what the step returns. *)
Definition example_self : gmap string QSR.pyval :=
  match example_driver with Ok self => self | Err _ => ∅ end.
Definition example_step : res (tree (leaf Z) * gmap string QSR.pyval) :=
  QSR._forward_and_backward amp_zero example_self.
Definition example_dp : tree (leaf Z) := Node [("w", Leaf (RealArr [2]))].
Definition example_loss_grad : tree (leaf Z) := Node [("w", Leaf (ComplexArr [(2, -2)]))].
Definition example_self' : gmap string QSR.pyval :=
  match example_step with Ok (_, self) => self | Err _ => ∅ end.

(** The imaginary part [x.imag] of an array is an array of zeros. *)
Definition imag_zero {R} `{!Real R} (x : leaf R) : Prop :=
  leaf_imag x = RealArr (replicate (length (leaf_values x)) r_zero).

(** A second driver on the same data and seed, run by a process with other
    entropy, another variational state and another preconditioner. *)
Definition other_state : scripted_state :=
  mkScripted example_parameters example_loss_grad example_loss_grad.
Definition other_driver : res (gmap string QSR.pyval) :=
  QSR.__init__ amp_zero (mkEnv 0 1 99) example_training_data 3 tt other_state
    (λ _ g, Ok g) (Some 42).
Definition other_self : gmap string QSR.pyval :=
  match other_driver with Ok self => self | Err _ => ∅ end.
Definition example_trace : list (list Z) := [[0; 1; 1]; [0; 0; 1]; [0; 1; 1]].

(** A driver with one real and one complex parameter array, a complex
    negative-phase gradient at both, the identity preconditioner. *)
Definition mixed_parameters : tree (leaf Z) :=
  Node [("w", Leaf (RealArr [0])); ("v", Leaf (ComplexArr [(0, 0)]))].
Definition mixed_state : scripted_state :=
  mkScripted mixed_parameters
             (Node [("w", Leaf (ComplexArr [(1, 1)])); ("v", Leaf (ComplexArr [(3, 1)]))])
             (Node [("w", Leaf (ComplexArr [(0, 0)])); ("v", Leaf (ComplexArr [(0, 0)]))]).
Definition mixed_driver : res (gmap string QSR.pyval) :=
  QSR.__init__ amp_zero example_env example_training_data 3 tt mixed_state
    identity_preconditioner (Some 42).
Definition mixed_self : gmap string QSR.pyval :=
  match mixed_driver with Ok self => self | Err _ => ∅ end.
Definition mixed_step : res (tree (leaf Z) * gmap string QSR.pyval) :=
  QSR._forward_and_backward amp_zero mixed_self.
Definition mixed_loss_grad : tree (leaf Z) :=
  Node [("w", Leaf (ComplexArr [(2, -2)])); ("v", Leaf (ComplexArr [(6, -2)]))].
Definition mixed_dp : tree (leaf Z) :=
  Node [("w", Leaf (RealArr [2])); ("v", Leaf (ComplexArr [(6, -2)]))].
Definition mixed_self' : gmap string QSR.pyval :=
  match mixed_step with Ok (_, self) => self | Err _ => ∅ end.

(** ** Quantities of the further properties *)

(** The operator [_build_rotation] returns for a descriptor of the right
    length. *)
Definition rotation_of {Coeff Op} `{!Netket Coeff Op} (hi : nat) (basis : string) : Op :=
  rotate_sites hi (LocalOperator_constant hi) 0 (String.list_ascii_of_string basis).

(** What [get_conn] returns for one record, as the conversion writes it:
    the rows as they are when there is one per coefficient, a single row
    repeated for every coefficient otherwise. *)
Definition conn_mels {Coeff Op} `{!Netket Coeff Op} (sigma : Config) (U : Base Op)
  : list Coeff :=
  match U with
  | BOp U => (get_conn U sigma).2
  | _ => []
  end.

(** The coefficients of one record as the coefficient array keeps them:
    cast to the dtype of [Us[0]], which the array was created with. *)
Definition stored_mels {Coeff Op} `{!Netket Coeff Op} (U0 : Op) (sigma : Config)
  (U : Base Op) : list Coeff :=
  astype U0 <$> conn_mels sigma U.

Definition conn_rows {Coeff Op} `{!Netket Coeff Op} (sigma : Config) (U : Base Op)
  : list Config :=
  match U with
  | BOp U =>
      let '(sigma_p_i, mels_i) := get_conn U sigma in
      if decide (length sigma_p_i = length mels_i) then sigma_p_i
      else match sigma_p_i with
           | [x] => replicate (length mels_i) x
           | _ => []
           end
  | _ => []
  end.

(** A record the conversion loop can process: the basis is an operator and
    [get_conn] gives one row per coefficient, or a single row. *)
Definition record_ok {Coeff Op} `{!Netket Coeff Op} (r : Config * Base Op) : Prop :=
  match r.2 with
  | BOp U =>
      let '(sigma_p_i, mels_i) := get_conn U r.1 in
      length sigma_p_i = length mels_i ∨ length sigma_p_i = 1%nat
  | _ => False
  end.

(** The rotation a label stands for: ["X"] and ["Y"] have one, every other
    label has none. *)
Definition label_rotation (base : ascii) : option rotation :=
  if decide (base = "X"%char) then Some U_X
  else if decide (base = "Y"%char) then Some U_Y
  else None.

(** The single-site rotations a descriptor asks for, with their sites, in
    the order of the sites, counted from [j]. *)
Definition factors_from (j : nat) (basis : list ascii) : list (rotation * nat) :=
  omap (λ p : nat * ascii, (λ r, (r, p.1)) <$> label_rotation p.2)
       (zip (seq j (length basis)) basis).

Definition rotation_factors (basis : string) : list (rotation * nat) :=
  factors_from 0 (String.list_ascii_of_string basis).

(** The product [localop *= LocalOperator(hi, U, [j])] over a list of
    factors, from left to right. *)
Definition apply_factors {Coeff Op} `{!Netket Coeff Op} (hi : nat) (localop : Op)
  (fs : list (rotation * nat)) : Op :=
  foldl (λ acc f, op_imul acc (LocalOperator_site hi f.1 f.2)) localop fs.

(** The batch read as a dataset of its own, with [_maxlen] in the place of
    [MAX_LEN]. *)
Definition batch_dataset {Coeff} (b : Batch Coeff) : Dataset Coeff :=
  mkDataset (b_sigma_p b) (b_mels b) (b_secs b) (b_maxlen b).

(** ** The local-value kernels *)

(** [x * y] on two flat arrays: equal shapes, or an array of one entry
    broadcast over the other; any other pair of shapes is refused. *)
Definition jnp_mul {A} (mul : A → A → A) (x y : list A) : res (list A) :=
  if decide (length x = length y) then Ok (zip_with mul x y)
  else match x, y with
       | [a], _ => Ok (mul a <$> y)
       | _, [b] => Ok ((λ a, mul a b) <$> x)
       | _, _ => Err TypeError
       end.

Section Kernels.
Context {C Pars : Type}.
Variable c_zero : C.
Variables c_add c_mul : C → C → C.
Variables c_exp c_log c_abs c_square : C → C.

(** The ansatz [log_psi(pars, sigma_p)]: one log-amplitude per row. *)
Variable log_psi : Pars → list Config → list C.

(** [local_value_rotated_kernel(log_psi, pars, sigma_p, mel, secs)]. *)
Definition local_value_rotated_kernel (pars : Pars) (sigma_p : list Config)
  (mel : list C) (secs : list Z) : res (list C) :=
  let log_psi_sigma_p := log_psi pars sigma_p in
  U_sigma_sigma_p_psi_sigma_p ← jnp_mul c_mul mel (c_exp <$> log_psi_sigma_p);
  sum_sections c_zero c_add U_sigma_sigma_p_psi_sigma_p secs
    ≫= λ out : list C, Ok (c_log <$> out).

(** [local_value_rotated_amplitude(log_psi, pars, sigma_p, mel, secs)]. *)
Definition local_value_rotated_amplitude (pars : Pars) (sigma_p : list Config)
  (mel : list C) (secs : list Z) : res (list C) :=
  let log_psi_sigma_p := log_psi pars sigma_p in
  U_sigma_sigma_p_psi_sigma_p ← jnp_mul c_mul mel (c_exp <$> log_psi_sigma_p);
  sum_sections c_zero c_add U_sigma_sigma_p_psi_sigma_p secs
    ≫= λ out : list C, Ok ((λ x, c_log (c_square (c_abs x))) <$> out).

End Kernels.

(** The sum over one record of [mel * exp(log_psi)], for a row-wise ansatz
    [f]: the quantity both kernels take the logarithm of. *)
Definition rotated_amplitude {C} (c_zero : C) (c_add c_mul : C → C → C) (c_exp : C → C)
  (f : Config → C) (d : Dataset C) (s e : Z) : C :=
  jnp_sum c_zero c_add
    (zip_with (λ m sigma, c_mul m (c_exp (f sigma)))
       (py_slice (ds_mels d) s (Some e)) (py_slice (ds_sigma_p d) s (Some e))).

(** A dataset of integer coefficients: a record of one and a record of two
    connected configurations. *)
Definition integer_dataset : Dataset Z :=
  mkDataset [[1]; [-1]; [1]; [0]; [0]] [2; 3; 5; 0; 0] [0; 1; 3] 2.

(** ** The driver over a run *)

(** The attributes [__init__] computes from its arguments and the converted
    training data [d]. *)
Definition training_attributes {Coeff Op R VState Optimizer Rng : Type}
  (self : gmap string (@QSR.pyval Coeff Op R VState Optimizer Rng))
  (N : nat) (sigma_s : list Config) (Us : Bases Op) (d : Dataset Coeff)
  (training_batch_size : Z)
  (preconditioner : VState → tree (leaf R) → res (tree (leaf R))) : Prop :=
  self !! "_training_samples" = Some (QSR.VRows N sigma_s) ∧
  self !! "_training_rotations" = Some (QSR.VBases Us) ∧
  self !! "_training_sigma_p" = Some (QSR.VRows N (ds_sigma_p d)) ∧
  self !! "_training_mels" = Some (QSR.VCoeffs (ds_mels d)) ∧
  self !! "_training_secs" = Some (QSR.VInts (ds_secs d)) ∧
  self !! "_training_max_len" = Some (QSR.VInt (ds_max_len d)) ∧
  self !! "_training_samples_n" = Some (QSR.VInt (length sigma_s)) ∧
  self !! "training_batch_size" = Some (QSR.VInt training_batch_size) ∧
  self !! "preconditioner" = Some (QSR.VPreconditioner preconditioner).

(** The attributes the training loop writes: those of a training step, the
    step count and the optimizer. *)
Definition run_writes : list string := step_writes ++ ["_step_count"; "_optimizer"].

(** The batch a driver holds: the attributes [_sampled_indices], [_sigma_p],
    [_mels] and [_secs]. *)
Definition holds_batch {Coeff Op R VState Optimizer Rng : Type}
  (self : gmap string (@QSR.pyval Coeff Op R VState Optimizer Rng))
  (N : nat) (sampled : list Z) (b : Batch Coeff) : Prop :=
  self !! "_sampled_indices" = Some (QSR.VInts sampled) ∧
  self !! "_sigma_p" = Some (QSR.VRows N (b_sigma_p b)) ∧
  self !! "_mels" = Some (QSR.VCoeffs (b_mels b)) ∧
  self !! "_secs" = Some (QSR.VInts (b_secs b)).

(** An array of zeros with the shape and dtype of [x]. *)
Definition leaf_zeros_like {R} `{!Real R} (x : leaf R) : leaf R :=
  match x with
  | RealArr l => RealArr (replicate (length l) r_zero)
  | ComplexArr l => ComplexArr (replicate (length l) (r_zero, r_zero))
  end.

(** Symbolic operators with a dtype: a real operator stands for a
    [LocalOperator] of dtype [float], and an array of its dtype keeps the
    real part of what is assigned to it. [U_X] is a real matrix, [U_Y] a
    complex one, and [*=] keeps the dtype of its left operand. *)
Record typed_op := mkTyped { t_real : bool; t_op : sym_op }.

Definition amp_real (a : amp) : amp := mkAmp (a_re a) 0 (a_half a).

Definition typed_netket : Netket amp typed_op := {|
  get_conn := λ U, sym_get_conn (t_op U);
  local_size := λ _, 2;
  astype := λ U0 a, if t_real U0 then amp_real a else a;
  LocalOperator_constant := λ hi, mkTyped false (mkSym hi []);
  LocalOperator_site := λ hi r j,
    mkTyped (match r with U_X => true | U_Y => false end) (mkSym hi [(r, j)]);
  op_imul := λ a b,
    mkTyped (t_real a) (mkSym (so_sites (t_op a)) (so_factors (t_op a) ++ so_factors (t_op b)))
|}.

(** Two samples [+1], the first measured with the real operator [U_X], the
    second with the complex operator [U_Y]: the coefficient array has the
    dtype of the first, and the coefficient [i/√2] of the second record is
    stored as [0]. *)
Definition typed_samples : list Config := [[1]; [1]].
Definition typed_X : typed_op := mkTyped true (mkSym 1 [(U_X, 0%nat)]).
Definition typed_Y : typed_op := mkTyped false (mkSym 1 [(U_Y, 0%nat)]).
Definition typed_bases : list (Base typed_op) := [BOp typed_X; BOp typed_Y].
Definition typed_dataset : Dataset amp :=
  mkDataset [[1]; [-1]; [1]; [-1]; [0]; [0]]
            [mkAmp (-1) 0 1; mkAmp 1 0 1; mkAmp 0 0 1; mkAmp 1 0 1; amp_zero; amp_zero]
            [0; 2; 4] 2.

(** * Properties *)

(** ** Sequence primitives *)

Section Primitives.
Context {A : Type}.
Implicit Types (l v : list A) (x z : A).

Lemma py_clip_range n k : 0 ≤ n → 0 ≤ py_clip n k ≤ n.
Proof. unfold py_clip. destruct (Z.ltb_spec k 0); lia. Qed.

Lemma py_clip_in n k : 0 ≤ k ≤ n → py_clip n k = k.
Proof. unfold py_clip. destruct (Z.ltb_spec k 0); lia. Qed.

Lemma py_stop_range l e : py_stop l e ≤ length l.
Proof.
  destruct e as [k|]; simpl; [|lia].
  pose proof (py_clip_range (length l) k). lia.
Qed.

Lemma py_fillslice_length l s e x : length (py_fillslice l s e x) = length l.
Proof.
  unfold py_fillslice.
  pose proof (py_clip_range (length l) s).
  pose proof (py_stop_range l e).
  rewrite !length_app, length_take, length_replicate, length_drop. lia.
Qed.

Lemma py_setslice_length l s e v l' :
  py_setslice l s e v = Ok l' → length l' = length l.
Proof.
  unfold py_setslice.
  pose proof (py_clip_range (length l) s).
  pose proof (py_stop_range l e).
  case_decide as Hv.
  - intros [= <-]. rewrite !length_app, length_take, length_drop. lia.
  - destruct v as [|x [|]]; try discriminate.
    intros [= <-]. apply py_fillslice_length.
Qed.

Lemma py_fillslice_lookup l s e x (k : nat) y :
  py_fillslice l s e x !! k = Some y → l !! k = Some y ∨ y = x.
Proof.
  unfold py_fillslice.
  pose proof (py_clip_range (length l) s).
  pose proof (py_stop_range l e).
  intros [Hk|[Hge Hk]]%lookup_app_Some.
  - left. apply lookup_take_Some in Hk. tauto.
  - apply lookup_app_Some in Hk as [Hk|[Hge' Hk]].
    + right. apply lookup_replicate in Hk. tauto.
    + left. rewrite lookup_drop in Hk. rewrite <- Hk. f_equal.
      rewrite length_take in *. rewrite length_replicate in *. lia.
Qed.

Lemma np_resize_length z l n l' :
  np_resize z l n = Ok l' → 0 ≤ n ∧ length l' = Z.to_nat n.
Proof.
  unfold np_resize. destruct (Z.ltb_spec n 0); [discriminate|].
  intros [= <-]. split; [done|].
  rewrite length_app, length_take, length_replicate. lia.
Qed.

Lemma np_resize_grow z l n l' :
  np_resize z l n = Ok l' → (length l ≤ Z.to_nat n)%nat →
  l' = l ++ replicate (Z.to_nat n - length l) z.
Proof.
  unfold np_resize. destruct (Z.ltb_spec n 0); [discriminate|].
  intros [= <-] Hle. by rewrite take_ge.
Qed.

Lemma py_setitem_Ok l (i : nat) x l' :
  py_setitem l i x = Ok l' → (i < length l)%nat ∧ l' = <[i := x]> l.
Proof.
  unfold py_setitem. destruct (Z.ltb_spec i 0); [lia|].
  destruct (Z.leb_spec 0 i), (Z.ltb_spec i (length l)); simpl; try discriminate.
  intros [= <-]. rewrite Nat2Z.id. split; [lia|done].
Qed.

Lemma py_setitem_last l x l' :
  py_setitem l (-1) x = Ok l' → l ≠ [] ∧ l' = <[pred (length l) := x]> l.
Proof.
  unfold py_setitem. simpl.
  destruct (Z.leb_spec 0 (-1 + length l)), (Z.ltb_spec (-1 + length l) (length l));
    simpl; try discriminate.
  intros [= <-]. split; [destruct l; simpl in *; [lia|done]|].
  f_equal. lia.
Qed.


End Primitives.

Lemma bind_Ok {A B} (m : res A) (f : A → res B) b :
  m ≫= f = Ok b → ∃ a, m = Ok a ∧ f a = Ok b.
Proof. destruct m as [a|e]; [eauto|discriminate]. Qed.

Lemma fmap_Ok {A B} (m : res A) (f : A → B) b :
  f <$> m = Ok b → ∃ a, m = Ok a ∧ b = f a.
Proof. destruct m as [a|e]; [intros [= <-]; eauto|discriminate]. Qed.

(** Peels the binds of a successful computation, outermost first. *)
Ltac inv_res H :=
  repeat match type of H with
  | _ ≫= _ = Ok _ =>
      let a := fresh "a" in let Ha := fresh "Ha" in
      apply bind_Ok in H as (a & Ha & H)
  | Ok _ = Ok _ => injection H as H
  | Err _ = Ok _ => discriminate H
  end.

Lemma Zsum_app l1 l2 : Zsum (l1 ++ l2) = Zsum l1 + Zsum l2.
Proof. induction l1 as [|x l1 IH]; simpl; lia. Qed.

Lemma Zsum_nonneg l : Forall (Z.le 0) l → 0 ≤ Zsum l.
Proof. induction 1; simpl; lia. Qed.

Lemma Zsum_take_mono l (i j : nat) :
  Forall (Z.le 0) l → (i ≤ j)%nat → Zsum (take i l) ≤ Zsum (take j l).
Proof.
  intros Hl Hij. destruct (decide (i ≤ length l)%nat).
  - replace j with (i + (j - i))%nat by lia.
    rewrite <- (take_drop i l) at 2.
    rewrite take_app_add' by (rewrite length_take; lia).
    rewrite Zsum_app.
    assert (0 ≤ Zsum (take (j - i) (drop i l))); [|lia].
    apply Zsum_nonneg, Forall_take, Forall_drop, Hl.
  - rewrite !take_ge by lia. lia.
Qed.

Lemma Zmax_list_ge l x : x ∈ l → x ≤ Zmax_list l.
Proof. induction 1; simpl; lia. Qed.

Lemma Zmax_list_nonneg l : 0 ≤ Zmax_list l.
Proof. induction l; simpl; lia. Qed.

(** ** Dataset conversion *)

Section ConversionProps.
Context {Coeff Op : Type} `{!Netket Coeff Op}.
Variable c0 : Coeff.

Lemma conn_count_nonneg sigma (U : Base Op) : 0 ≤ conn_count sigma U.
Proof. destruct U; simpl; lia. Qed.

Lemma record_counts_nonneg sigma_s (Us : list (Base Op)) :
  Forall (Z.le 0) (record_counts sigma_s Us).
Proof.
  unfold record_counts. revert Us.
  induction sigma_s as [|s ss IH]; intros [|U Us]; simpl; try constructor.
  - apply conn_count_nonneg.
  - apply IH.
Qed.

Lemma convert_step_spec N U0 i sigma U (st st' : conv_state Coeff) :
  convert_step c0 N U0 i sigma U st = Ok st' →
  conv_wf st →
  conv_wf st' ∧
  cv_last_i st' = cv_last_i st + conn_count sigma U ∧
  (i < length (cv_secs st))%nat ∧
  cv_secs st' = <[i := cv_last_i st]> (cv_secs st) ∧
  cv_Nc st' = conn_count sigma U ∧
  cv_MAX_LEN st' = Z.max (conn_count sigma U) (cv_MAX_LEN st).
Proof.
  intros Hstep (Hpos & HM & Hsp & Hm).
  destruct U as [U| |]; simpl in Hstep; try discriminate.
  simpl. destruct (get_conn U sigma) as [sigma_p_i mels_i] eqn:Hconn.
  inv_res Hstep. subst st'. simpl.
  rename a into sp1, a0 into m1, a1 into sp2, a2 into m2, a3 into secs'.
  apply np_resize_length in Ha as [_ Hl1].
  apply np_resize_length in Ha0 as [_ Hl2].
  apply py_setslice_length in Ha1, Ha2.
  apply py_setitem_Ok in Ha3 as [Hi ->].
  unfold conv_wf; simpl. repeat split; try done; lia.
Qed.

Lemma convert_loop_spec N U0 sigma_s : ∀ Us i (st st' : conv_state Coeff),
  convert_loop c0 N U0 i sigma_s Us st = Ok st' →
  conv_wf st →
  let cs := record_counts sigma_s Us in
  conv_wf st' ∧
  cv_last_i st' = cv_last_i st + Zsum cs ∧
  length (cv_secs st') = length (cv_secs st) ∧
  (∀ k : nat, (k < length cs)%nat →
     cv_secs st' !! (i + k)%nat = Some (cv_last_i st + Zsum (take k cs))) ∧
  (∀ k : nat, (k < i ∨ i + length cs ≤ k)%nat → cv_secs st' !! k = cv_secs st !! k) ∧
  cv_MAX_LEN st' = Z.max (Zmax_list cs) (cv_MAX_LEN st) ∧
  (cs = [] → cv_Nc st' = cv_Nc st) ∧
  (cs ≠ [] → last cs = Some (cv_Nc st')).
Proof.
  induction sigma_s as [|sigma ss IH]; intros Us i st st' Hloop Hwf.
  { simpl in Hloop. injection Hloop as <-. simpl.
    destruct Hwf as (? & ? & ? & ?).
    repeat split; try done; try lia; intros; simpl in *; lia. }
  destruct Us as [|U Us].
  { simpl in Hloop. injection Hloop as <-. simpl.
    destruct Hwf as (? & ? & ? & ?).
    repeat split; try done; try lia; intros; simpl in *; lia. }
  simpl in Hloop. apply bind_Ok in Hloop as (st1 & Hstep & Hloop).
  apply convert_step_spec in Hstep as (Hwf1 & Hl1 & Hi & Hsecs & HNc & HMax); [|done].
  apply IH in Hloop as (Hwf' & Hl' & Hlen & Hseg & Hout & HMax' & HNc0 & HNc'); [|done].
  cbn [record_counts zip_with] in *. fold (record_counts ss Us) in *.
  set (c := conn_count sigma U) in *. set (cs := record_counts ss Us) in *.
  repeat split; try apply Hwf'.
  - simpl. lia.
  - rewrite Hlen, Hsecs. apply length_insert.
  - intros [|k] Hk; simpl in Hk; simpl.
    + rewrite Hout by lia. rewrite Hsecs, Nat.add_0_r.
      rewrite list_lookup_insert_eq by done. f_equal. lia.
    + replace (i + S k)%nat with (S i + k)%nat by lia.
      rewrite Hseg by lia. f_equal. lia.
  - intros k Hk. simpl in Hk. rewrite Hout by lia.
    rewrite Hsecs. apply list_lookup_insert_ne. lia.
  - simpl. lia.
  - discriminate.
  - intros _. destruct (decide (cs = [])) as [Hnil|Hne].
    + rewrite Hnil. simpl. f_equal. rewrite HNc0 by done. done.
    + rewrite last_cons. by rewrite (HNc' Hne).
Qed.

End ConversionProps.

Section ConversionInvariant.
Context {Coeff Op : Type} `{!Netket Coeff Op}.
Variable c0 : Coeff.

Lemma build_bases_length hilbert (Us : list (Base Op)) : ∀ _cache bases,
  build_bases hilbert _cache Us = Ok bases → length bases = length Us.
Proof.
  induction Us as [|U Us IH]; intros _cache bases Hb; simpl in Hb.
  - by injection Hb as <-.
  - destruct U as [U|basis|]; try discriminate.
    destruct (_cache !! basis) as [U|].
    + apply fmap_Ok in Hb as (r & Hr & ->). simpl. f_equal. eauto.
    + apply bind_Ok in Hb as (U & _ & Hb).
      apply fmap_Ok in Hb as (r & Hr & ->). simpl. f_equal. eauto.
Qed.

Lemma check_bases_type_length (l bases : list (Base Op)) :
  _check_bases_type (BasesSeq l) = Ok bases → length bases = length l.
Proof.
  destruct l as [|[U|s|] rest]; simpl; try discriminate.
  - by intros [= <-].
  - destruct (_build_rotation _ s) as [U|]; simpl; [|discriminate].
    intros (r & Hr & ->)%fmap_Ok. simpl. f_equal.
    by apply build_bases_length in Hr.
Qed.

Lemma record_counts_length sigma_s (Us : list (Base Op)) :
  length (record_counts sigma_s Us) = (length sigma_s `min` length Us)%nat.
Proof. apply length_zip_with. Qed.

(** The shape of the arrays [_convert_data] returns, whatever the two
    lengths are: only the first [min(Nb, len(Us))] offsets are written. *)
Lemma convert_data_shape N sigma_s (l : list (Base Op)) d :
  _convert_data c0 N sigma_s (BasesSeq l) = Ok d →
  ∃ bases, _check_bases_type (BasesSeq l) = Ok bases ∧
    length bases = length l ∧
    let counts := record_counts sigma_s bases in
    let total := Zsum counts in
    length (ds_secs d) = S (length sigma_s) ∧
    (∀ i : nat, (i < length counts)%nat → ds_secs d !! i = Some (Zsum (take i counts))) ∧
    (∀ i : nat, (length counts ≤ i < length sigma_s)%nat → ds_secs d !! i = Some 0) ∧
    ds_secs d !! length sigma_s = Some total ∧
    ds_max_len d = Zmax_list counts ∧
    (length (ds_sigma_p d) : Z) = total + ds_max_len d ∧
    (length (ds_mels d) : Z) = total + ds_max_len d ∧
    (∀ (k : nat) c, total ≤ k → ds_mels d !! k = Some c → c = c0).
Proof.
  unfold _convert_data. intros Hc.
  apply bind_Ok in Hc as (bases & Hbases & Hc). exists bases.
  split; [done|]. split; [by apply check_bases_type_length|].
  case_decide as HN; [discriminate|].
  apply bind_Ok in Hc as (U0 & _ & Hc).
  apply bind_Ok in Hc as (st & Hloop & Hc).
  apply bind_Ok in Hc as (sp & Hsp & Hc).
  apply bind_Ok in Hc as (m & Hm & Hc).
  apply bind_Ok in Hc as (secs & Hsecs & Hc).
  injection Hc as <-. simpl.
  apply convert_loop_spec in Hloop
    as ((Hpos & HMpos & Hlsp & Hlm) & Hlast & Hlen & Hseg & Hout & HMax & _);
    [|unfold conv_wf; simpl; lia].
  simpl in *. rewrite length_replicate in Hlen.
  set (counts := record_counts sigma_s bases) in *.
  pose proof (record_counts_length sigma_s bases) as Hcl. fold counts in Hcl.
  pose proof (Zmax_list_nonneg counts) as HMnn.
  apply py_setitem_last in Hsecs as [_ ->]. rewrite Hlen.
  replace (pred (length sigma_s + 1)) with (length sigma_s) by lia.
  repeat split.
  - rewrite length_insert. lia.
  - intros i Hi. rewrite list_lookup_insert_ne by lia. apply (Hseg i Hi).
  - intros i Hi. rewrite list_lookup_insert_ne by lia.
    rewrite Hout by lia. apply lookup_replicate. split; [done|lia].
  - rewrite list_lookup_insert_eq by lia. f_equal. lia.
  - lia.
  - rewrite py_fillslice_length. apply np_resize_length in Hsp. lia.
  - rewrite py_fillslice_length. apply np_resize_length in Hm. lia.
  - intros k c Hk Hlk. apply py_fillslice_lookup in Hlk as [Hlk| ->]; [|done].
    apply np_resize_grow in Hm; [|lia]. subst m.
    apply lookup_app_Some in Hlk as [Hlk|[_ Hlk]].
    + apply lookup_lt_Some in Hlk. lia.
    + by apply lookup_replicate in Hlk as [-> _].
Qed.


End ConversionInvariant.

Lemma example_dataset_converted :
  _convert_data amp_zero 1 example_samples (BasesSeq example_bases) = Ok example_dataset.
Proof. reflexivity. Qed.



(** ** Validation of the inputs *)

(** C4. The conversion does not compare the two leading lengths: three
    samples with two bases, and one sample with two bases, are both
    converted; with fewer bases than samples the offsets of the unvisited
    records stay at their initial [0]. *)
Theorem convert_data_accepts_mismatched_lengths :
  _convert_data amp_zero 1 short_bases_samples (BasesSeq short_bases)
    = Ok (mkDataset [[1]; [-1]; [0]] [amp_one; amp_one; amp_zero] [0; 1; 0; 2] 1) ∧
  _convert_data amp_zero 1 [[1]] (BasesSeq short_bases)
    = Ok (mkDataset [[1]; [0]] [amp_one; amp_zero] [0; 1] 1).
Proof. split; reflexivity. Qed.

Section RotationProps.
Context {Coeff Op : Type} `{!Netket Coeff Op}.

Lemma rotate_site_relabel hi (localop : Op) j base :
  rotate_site hi localop j (relabel base) = rotate_site hi localop j base.
Proof.
  unfold rotate_site, relabel.
  repeat case_decide; subst; try done; discriminate.
Qed.

Lemma rotate_sites_relabel hi basis : ∀ (localop : Op) j,
  rotate_sites hi localop j (String.list_ascii_of_string (string_map relabel basis))
  = rotate_sites hi localop j (String.list_ascii_of_string basis).
Proof.
  induction basis as [|c s IH]; intros localop j; simpl; [done|].
  by rewrite rotate_site_relabel, IH.
Qed.

Lemma string_map_length f s : String.length (string_map f s) = String.length s.
Proof. induction s; simpl; congruence. Qed.

(** C5, as the code has it. A descriptor whose length differs from the
    number of sites is refused by the assertion, with an assertion error;
    every descriptor of the right length is built, whatever its labels
    are; and a label other than ["X"] and ["Y"] is read like ["I"]. *)
Theorem build_rotation_errors (hi : nat) (basis : string) :
  (_build_rotation (Op:=Op) hi basis = Err AssertionError ↔ String.length basis ≠ hi) ∧
  (is_Ok (_build_rotation (Op:=Op) hi basis) ↔ String.length basis = hi) ∧
  _build_rotation (Op:=Op) hi basis ≠ Err TypeError ∧
  _build_rotation (Op:=Op) hi (string_map relabel basis) = _build_rotation hi basis.
Proof.
  unfold _build_rotation, is_Ok. rewrite string_map_length, rotate_sites_relabel.
  case_decide; repeat split; try done; try (intros; eauto; discriminate).
  - by intros [U [=]].
Qed.

End RotationProps.

(** C5 as stated fails: a descriptor that is too long raises an assertion
    error and not a type error, also on the way through
    [_check_bases_type]; an unrecognized label raises nothing. *)
Lemma build_rotation_no_type_error :
  _build_rotation (Op:=sym_op) 1 "ZZ" = Err AssertionError ∧
  _check_bases_type (BasesSeq [BStr "Z"; BStr "ZZ"]) = Err (A:=list (Base sym_op)) AssertionError ∧
  recognized "Q" = false ∧
  _build_rotation (Op:=sym_op) 1 "Q" = Ok (mkSym 1 []).
Proof. repeat split. Qed.

(** ** Batch composition *)

Section SliceProps.
Context {A : Type}.
Implicit Types (l v : list A).

Lemma py_getitem_in l (i : Z) :
  0 ≤ i < length l → ∃ x, l !! Z.to_nat i = Some x ∧ py_getitem l i = Ok x.
Proof.
  intros Hi. unfold py_getitem.
  destruct (Z.ltb_spec i 0); [lia|].
  destruct (Z.leb_spec 0 i), (Z.ltb_spec i (length l)); try lia. simpl.
  destruct (lookup_lt_is_Some_2 l (Z.to_nat i)) as [x Hx]; [lia|].
  exists x. by rewrite Hx.
Qed.

Lemma py_slice_in l (a b : Z) :
  0 ≤ a ≤ b → b ≤ length l →
  py_slice l a (Some b) = take (Z.to_nat (b - a)) (drop (Z.to_nat a) l).
Proof.
  intros Hab Hb. unfold py_slice, py_stop. by rewrite !py_clip_in by lia.
Qed.


Lemma py_slice_prefix l (n : Z) :
  0 ≤ n → py_slice l 0 (Some n) = take (Z.to_nat n) l.
Proof.
  intros Hn. unfold py_slice, py_stop. rewrite (py_clip_in _ 0) by lia.
  rewrite drop_0, Z.sub_0_r. unfold py_clip.
  destruct (Z.ltb_spec n 0); [lia|].
  destruct (Z.min_spec n (length l)) as [[? ->]|[? ->]]; [done|].
  rewrite Nat2Z.id, !take_ge by lia. done.
Qed.

Lemma py_setslice_in l (a : Z) v :
  0 ≤ a → a + length v ≤ length l →
  py_setslice l a (Some (a + length v)) v
  = Ok (take (Z.to_nat a) l ++ v ++ drop (Z.to_nat a + length v) l).
Proof.
  intros Ha Hb. unfold py_setslice, py_stop. rewrite !py_clip_in by lia.
  replace (Z.to_nat (a + length v - a)) with (length v) by lia.
  by rewrite decide_True.
Qed.


End SliceProps.

Section ComposeProps.
Context {Coeff : Type}.
Variable c0 : Coeff.
Variable d : Dataset Coeff.
Hypothesis Hwf : dataset_wf d.

(** What the loop reads for an index inside the dataset. *)
Lemma segment_bounds (i : Z) :
  0 ≤ i < n_records d →
  ∃ s e, ds_secs d !! Z.to_nat i = Some s ∧ ds_secs d !! S (Z.to_nat i) = Some e ∧
    py_getitem (ds_secs d) i = Ok s ∧ py_getitem (ds_secs d) (i + 1) = Ok e ∧
    0 ≤ s ≤ e ∧ e - s ≤ ds_max_len d ∧
    e ≤ length (ds_sigma_p d) ∧ e ≤ length (ds_mels d).
Proof.
  unfold n_records. intros Hi.
  destruct (py_getitem_in (ds_secs d) i) as (s & Hs & Hgs); [lia|].
  destruct (py_getitem_in (ds_secs d) (i + 1)) as (e & He & Hge); [lia|].
  replace (Z.to_nat (i + 1)) with (S (Z.to_nat i)) in He by lia.
  exists s, e. repeat split; try done.
  - eapply (wf_mono d Hwf 0%nat); [|apply wf_first|exact Hs]; [lia|done].
  - eapply (wf_mono d Hwf); [|exact Hs|exact He]. lia.
  - by eapply wf_seg.
  - destruct (last (ds_secs d)) as [t|] eqn:Hlast.
    + pose proof (wf_sigma_p d Hwf t Hlast). rewrite last_lookup in Hlast.
      assert (e ≤ t); [|lia].
      eapply (wf_mono d Hwf); [|exact He|exact Hlast]. lia.
    + apply last_None in Hlast. rewrite Hlast in Hi. simpl in Hi. lia.
  - destruct (last (ds_secs d)) as [t|] eqn:Hlast.
    + pose proof (wf_mels d Hwf t Hlast). rewrite last_lookup in Hlast.
      assert (e ≤ t); [|lia].
      eapply (wf_mono d Hwf); [|exact He|exact Hlast]. lia.
    + apply last_None in Hlast. rewrite Hlast in Hi. simpl in Hi. lia.
Qed.

Lemma compose_step_spec (N_samples n : nat) (i : Z) (st : comp_state Coeff) :
  comp_wf d N_samples n st → (n < N_samples)%nat → 0 ≤ i < n_records d →
  ∃ s e, ds_secs d !! Z.to_nat i = Some s ∧ ds_secs d !! S (Z.to_nat i) = Some e ∧
    0 ≤ s ≤ e ∧ e ≤ length (ds_sigma_p d) ∧ e ≤ length (ds_mels d) ∧
    cs_last_i st + (e - s) ≤ S n * ds_max_len d ∧
    let last_i := Z.to_nat (cs_last_i st) in
    let len_i := Z.to_nat (e - s) in
    compose_step d n i st
    = Ok (mkComp
            (take last_i (cs_sigma_p st) ++ segment (ds_sigma_p d) s e
               ++ drop (last_i + len_i) (cs_sigma_p st))
            (take last_i (cs_mels st) ++ segment (ds_mels d) s e
               ++ drop (last_i + len_i) (cs_mels st))
            (<[S n := cs_last_i st + (e - s)]> (cs_secs st))
            (Z.max (cs_maxlen st) (e - s))
            (cs_last_i st + (e - s))).
Proof.
  intros (Hlast & Hsp & Hm & Hsecs & Hn) Hlt Hi.
  destruct (segment_bounds i Hi) as (s & e & Hs & He & Hgs & Hge & Hse & Hlen & Hesp & Hem).
  exists s, e. repeat split; try done; try lia.
  cbv zeta. unfold compose_step. rewrite Hgs, Hge. simpl.
  rewrite !py_slice_in by lia. fold (segment (ds_sigma_p d) s e) (segment (ds_mels d) s e).
  assert (Hl1 : length (segment (ds_sigma_p d) s e) = Z.to_nat (e - s)).
  { unfold segment. rewrite length_take, length_drop. lia. }
  assert (Hl2 : length (segment (ds_mels d) s e) = Z.to_nat (e - s)).
  { unfold segment. rewrite length_take, length_drop. lia. }
  assert (Hfit : cs_last_i st + (e - s) ≤ N_samples * ds_max_len d) by nia.
  replace (cs_last_i st + (e - s))
    with (cs_last_i st + length (segment (ds_sigma_p d) s e)) at 1 by lia.
  rewrite py_setslice_in by lia. simpl.
  replace (cs_last_i st + (e - s))
    with (cs_last_i st + length (segment (ds_mels d) s e)) at 1 by lia.
  rewrite py_setslice_in by lia. simpl.
  unfold py_setitem. destruct (Z.ltb_spec (n + 1)%nat 0); [lia|].
  destruct (Z.leb_spec 0 (n + 1)%nat), (Z.ltb_spec (n + 1)%nat (length (cs_secs st)));
    try lia. simpl.
  rewrite Hl1, Hl2. do 3 f_equal. lia.
Qed.

Lemma compose_step_wf (N_samples n : nat) (st st' : comp_state Coeff) sp m (len : Z) mx :
  comp_wf d N_samples n st → (n < N_samples)%nat →
  0 ≤ len → cs_last_i st + len ≤ S n * ds_max_len d →
  length sp = Z.to_nat len → length m = Z.to_nat len →
  st' = mkComp (take (Z.to_nat (cs_last_i st)) (cs_sigma_p st) ++ sp
                  ++ drop (Z.to_nat (cs_last_i st) + Z.to_nat len) (cs_sigma_p st))
               (take (Z.to_nat (cs_last_i st)) (cs_mels st) ++ m
                  ++ drop (Z.to_nat (cs_last_i st) + Z.to_nat len) (cs_mels st))
               (<[S n := cs_last_i st + len]> (cs_secs st)) mx (cs_last_i st + len) →
  comp_wf d N_samples (S n) st'.
Proof.
  intros (Hlast & Hsp & Hm & Hsecs & Hn) Hlt Hlen Hfit Hl1 Hl2 ->.
  assert (cs_last_i st + len ≤ N_samples * ds_max_len d).
  { pose proof (wf_max d Hwf). nia. }
  unfold comp_wf; simpl. repeat split.
  - lia.
  - lia.
  - rewrite !length_app, length_take, length_drop. lia.
  - rewrite !length_app, length_take, length_drop. lia.
  - by rewrite length_insert.
  - apply list_lookup_insert_eq. lia.
Qed.

End ComposeProps.

Section ComposeLoop.
Context {Coeff : Type}.
Variable c0 : Coeff.
Variable d : Dataset Coeff.
Hypothesis Hwf : dataset_wf d.

Lemma take_take_le {A} (l : list A) (a b : nat) :
  (a ≤ b)%nat → take a (take b l) = take a l.
Proof. intros. rewrite take_take. f_equal. lia. Qed.

(** Two buffers that agree on their first [c] entries agree on every slice
    below [c]. *)
Lemma py_slice_agree {A} (l l' : list A) (a b c : Z) :
  0 ≤ a ≤ b → b ≤ c → c ≤ length l → c ≤ length l' →
  take (Z.to_nat c) l = take (Z.to_nat c) l' →
  py_slice l a (Some b) = py_slice l' a (Some b).
Proof.
  intros Hab Hbc Hl Hl' Heq. rewrite !py_slice_in by lia.
  rewrite !take_drop_commute.
  rewrite <- (take_take_le l _ (Z.to_nat c)), <- (take_take_le l' _ (Z.to_nat c)) by lia.
  by rewrite Heq.
Qed.

Lemma compose_loop_spec (N_samples : nat) (idx : list Z) : ∀ (n : nat) (st : comp_state Coeff),
  comp_wf d N_samples n st → (n + length idx ≤ N_samples)%nat →
  Forall (λ i, 0 ≤ i < n_records d) idx →
  ∃ st', compose_loop d n idx st = Ok st' ∧
    comp_wf d N_samples (n + length idx) st' ∧
    cs_last_i st' = cs_last_i st + copied_total d idx ∧
    cs_last_i st ≤ cs_last_i st' ∧
    take (Z.to_nat (cs_last_i st)) (cs_sigma_p st')
      = take (Z.to_nat (cs_last_i st)) (cs_sigma_p st) ∧
    take (Z.to_nat (cs_last_i st)) (cs_mels st')
      = take (Z.to_nat (cs_last_i st)) (cs_mels st) ∧
    (∀ k : nat, (k ≤ n)%nat → cs_secs st' !! k = cs_secs st !! k) ∧
    (∀ (k : nat) i, idx !! k = Some i →
       segment_copied d (take (Z.to_nat (cs_last_i st')) (cs_sigma_p st'))
         (take (Z.to_nat (cs_last_i st')) (cs_mels st')) (cs_secs st') (n + k) i).
Proof.
  induction idx as [|i idx IH]; intros n st Hst Hn Hidx.
  { exists st. simpl. rewrite Nat.add_0_r. unfold copied_total. simpl.
    split; [done|]. split; [done|]. repeat split; try done; lia. }
  apply Forall_cons in Hidx as [Hi Hidx]. simpl in Hn.
  destruct (compose_step_spec d Hwf N_samples n i st Hst ltac:(lia) Hi)
    as (s & e & Hs & He & Hse & Hesp & Hem & Hfit & Hstep).
  cbv zeta in Hstep.
  set (st1 := mkComp _ _ _ _ _) in Hstep.
  assert (Hlsp : length (segment (ds_sigma_p d) s e) = Z.to_nat (e - s)).
  { unfold segment. rewrite length_take, length_drop. lia. }
  assert (Hlm : length (segment (ds_mels d) s e) = Z.to_nat (e - s)).
  { unfold segment. rewrite length_take, length_drop. lia. }
  assert (Hst1 : comp_wf d N_samples (S n) st1).
  { eapply (compose_step_wf d Hwf N_samples n st st1 _ _ (e - s));
      [done|lia|lia|done|exact Hlsp|exact Hlm|reflexivity]. }
  destruct (IH (S n) st1 Hst1 ltac:(lia) Hidx)
    as (st' & Hloop & Hst' & Htot & Hle & Hpsp & Hpm & Hsecs & Hcopied).
  destruct Hst as (Hlast & Hbsp & Hbm & Hbsecs & Hbn).
  pose proof (wf_max d Hwf) as HM.
  assert (Hroom : cs_last_i st + (e - s) ≤ N_samples * ds_max_len d) by nia.
  exists st'. simpl. rewrite Hstep. simpl.
  replace (n + S (length idx))%nat with (S n + length idx)%nat by lia.
  change (cs_last_i st1) with (cs_last_i st + (e - s)) in *.
  split; [done|]. split; [exact Hst'|]. split; [|split; [|split; [|split; [|split]]]].
  - rewrite Htot. unfold copied_total. cbn [fmap list_fmap Zsum foldr].
    unfold segment_length at 2. rewrite Hs, He.
    fold (Zsum (segment_length d <$> idx)). lia.
  - lia.
  - rewrite <- (take_take_le _ _ (Z.to_nat (cs_last_i st + (e - s)))) by lia.
    rewrite Hpsp. rewrite take_take_le by lia. simpl.
    rewrite take_app_le by (rewrite length_take; lia).
    apply take_take_le. lia.
  - rewrite <- (take_take_le _ _ (Z.to_nat (cs_last_i st + (e - s)))) by lia.
    rewrite Hpm. rewrite take_take_le by lia. simpl.
    rewrite take_app_le by (rewrite length_take; lia).
    apply take_take_le. lia.
  - intros k Hk. rewrite Hsecs by lia. simpl.
    apply list_lookup_insert_ne. lia.
  - intros [|k] j Hj; simpl in Hj.
    + injection Hj as <-. rewrite Nat.add_0_r.
      destruct Hst' as (Hlast' & Hbsp' & Hbm' & _).
      exists s, e, (cs_last_i st), (cs_last_i st + (e - s)).
      rewrite !Hsecs by lia. simpl.
      rewrite list_lookup_insert_ne by lia.
      rewrite list_lookup_insert_eq by lia.
      rewrite !length_take.
      repeat split; try done; try lia.
      * rewrite (py_slice_agree _ (cs_sigma_p st1) _ _ (cs_last_i st + (e - s)));
          [|lia|lia|rewrite length_take; lia| |].
        -- simpl. rewrite py_slice_in.
           ++ rewrite (py_slice_in (ds_sigma_p d)) by lia.
              fold (segment (ds_sigma_p d) s e).
              replace (Z.to_nat (cs_last_i st + (e - s) - cs_last_i st))
                with (length (segment (ds_sigma_p d) s e)) by lia.
              rewrite drop_app_length'; [|rewrite length_take; lia].
              by rewrite take_app_length.
           ++ lia.
           ++ rewrite !length_app, length_take, length_drop. lia.
        -- simpl. rewrite !length_app, length_take, length_drop. lia.
        -- rewrite take_take_le by lia. exact Hpsp.
      * rewrite (py_slice_agree _ (cs_mels st1) _ _ (cs_last_i st + (e - s)));
          [|lia|lia|rewrite length_take; lia| |].
        -- simpl. rewrite py_slice_in.
           ++ rewrite (py_slice_in (ds_mels d)) by lia.
              fold (segment (ds_mels d) s e).
              replace (Z.to_nat (cs_last_i st + (e - s) - cs_last_i st))
                with (length (segment (ds_mels d) s e)) by lia.
              rewrite drop_app_length'; [|rewrite length_take; lia].
              by rewrite take_app_length.
           ++ lia.
           ++ rewrite !length_app, length_take, length_drop. lia.
        -- simpl. rewrite !length_app, length_take, length_drop. lia.
        -- rewrite take_take_le by lia. exact Hpm.
    + replace (n + S k)%nat with (S n + k)%nat by lia. by apply Hcopied.
Qed.

End ComposeLoop.

Lemma Zsum_take_S l (i : nat) x :
  l !! i = Some x → Zsum (take (S i) l) = Zsum (take i l) + x.
Proof.
  intros Hx. rewrite (take_S_r _ _ _ Hx), Zsum_app. simpl. lia.
Qed.

Lemma ceil_div_spec a b : 0 < b → a ≤ b * ceil_div a b < a + b.
Proof.
  intros Hb. unfold ceil_div.
  pose proof (Z.mul_div_le (- a) b Hb).
  pose proof (Z.mul_succ_div_gt (- a) b Hb). lia.
Qed.

Section ConvertedDataset.
Context {Coeff Op : Type} `{!Netket Coeff Op}.
Variable c0 : Coeff.

(** A dataset converted from samples that each have a basis satisfies the
    segment invariant, with one segment per sample. *)
Lemma convert_data_wf N sigma_s (l : list (Base Op)) d :
  (length sigma_s ≤ length l)%nat →
  _convert_data c0 N sigma_s (BasesSeq l) = Ok d →
  dataset_wf d ∧ n_records d = length sigma_s.
Proof.
  intros Hlen Hc.
  destruct (convert_data_shape c0 _ _ _ _ Hc)
    as (bases & Hb & Hbl & Hsl & Hseg & _ & Hfin & HM & Hsp & Hm & _).
  cbv zeta in *.
  pose proof (record_counts_length sigma_s bases) as Hcl.
  pose proof (record_counts_nonneg sigma_s bases) as Hnn.
  set (counts := record_counts sigma_s bases) in *.
  assert (Hall : ∀ i : nat, (i ≤ length sigma_s)%nat →
                 ds_secs d !! i = Some (Zsum (take i counts))).
  { intros i Hi. destruct (decide (i = length sigma_s)) as [->|].
    - rewrite Hfin, take_ge by lia. done.
    - apply Hseg. lia. }
  assert (Hlast : last (ds_secs d) = Some (Zsum counts)).
  { rewrite last_lookup, Hsl. simpl. done. }
  split; [|unfold n_records; lia].
  split.
  - by rewrite Hall by lia.
  - intros i j a b Hij Ha Hb'.
    assert (j ≤ length sigma_s)%nat by (apply lookup_lt_Some in Hb'; lia).
    rewrite Hall in Ha, Hb' by lia. injection Ha as <-. injection Hb' as <-.
    by apply Zsum_take_mono.
  - intros i a b Ha Hb'.
    assert (S i ≤ length sigma_s)%nat by (apply lookup_lt_Some in Hb'; lia).
    rewrite Hall in Ha, Hb' by lia. injection Ha as <-. injection Hb' as <-.
    destruct (lookup_lt_is_Some_2 counts i) as [x Hx]; [lia|].
    rewrite (Zsum_take_S _ _ _ Hx), HM.
    assert (x ≤ Zmax_list counts); [|lia].
    apply Zmax_list_ge. by eapply list_elem_of_lookup_2.
  - rewrite HM. apply Zmax_list_nonneg.
  - intros t Ht. rewrite Hlast in Ht. injection Ht as <-.
    rewrite HM in Hsp. pose proof (Zmax_list_nonneg counts). lia.
  - intros t Ht. rewrite Hlast in Ht. injection Ht as <-.
    rewrite HM in Hm. pose proof (Zmax_list_nonneg counts). lia.
Qed.

End ConvertedDataset.

Section ComposeBatch.
Context {Coeff : Type}.
Variable c0 : Coeff.

(** What [_compose_sampled_data] returns on a dataset with the segment
    invariant, for sampled indices inside the dataset. *)
Lemma compose_sampled_data_spec N (d : Dataset Coeff) idx mpf :
  dataset_wf d → Forall (λ i, 0 ≤ i < n_records d) idx → 0 < mpf →
  let total := copied_total d idx in
  let pf := Z.max (ds_max_len d) mpf in
  let P := pf * ceil_div total pf in
  ∃ st, compose_loop d 0 idx
          (mkComp (replicate (Z.to_nat (length idx * ds_max_len d)) (replicate N 0))
                  (replicate (Z.to_nat (length idx * ds_max_len d)) c0)
                  (replicate (length idx + 1) 0) 0 0) = Ok st ∧
    _compose_sampled_data c0 N d idx mpf
      = Ok (mkBatch (take (Z.to_nat P) (cs_sigma_p st)) (take (Z.to_nat P) (cs_mels st))
                    (cs_secs st) (cs_maxlen st)) ∧
    cs_last_i st = total ∧ 0 ≤ total ≤ length idx * ds_max_len d ∧
    (length (cs_sigma_p st) : Z) = length idx * ds_max_len d ∧
    (length (cs_mels st) : Z) = length idx * ds_max_len d ∧
    length (cs_secs st) = S (length idx) ∧
    cs_secs st !! 0%nat = Some 0 ∧
    cs_secs st !! length idx = Some total ∧
    (∀ (n : nat) i, idx !! n = Some i →
       segment_copied d (take (Z.to_nat total) (cs_sigma_p st))
         (take (Z.to_nat total) (cs_mels st)) (cs_secs st) n i).
Proof.
  intros Hwf Hidx Hmpf. cbv zeta.
  pose proof (wf_max d Hwf) as HM.
  set (st0 := mkComp _ _ _ _ _).
  assert (Hst0 : comp_wf d (length idx) 0 st0).
  { unfold comp_wf, st0; simpl. rewrite !length_replicate.
    repeat split; try lia.
    apply lookup_replicate. split; [done|lia]. }
  destruct (compose_loop_spec d Hwf (length idx) idx 0 st0 Hst0 ltac:(lia) Hidx)
    as (st & Hloop & (Hlast & Hsp & Hm & Hsecs & Hn) & Htot & _ & _ & _ & Hpre & Hcopied).
  simpl in Htot, Hn, Hlast. rewrite Z.add_0_l in Htot.
  exists st. split; [done|].
  split.
  { unfold _compose_sampled_data.
    destruct (Z.ltb_spec (length idx * ds_max_len d) 0); [nia|].
    fold st0. rewrite Hloop. simpl.
    destruct (Z.eqb_spec (ds_max_len d `max` mpf) 0); [lia|].
    rewrite Htot. rewrite !py_slice_prefix; [done| |].
    - pose proof (ceil_div_spec (copied_total d idx) (ds_max_len d `max` mpf)
                    ltac:(lia)). lia.
    - pose proof (ceil_div_spec (copied_total d idx) (ds_max_len d `max` mpf)
                    ltac:(lia)). lia. }
  rewrite <- Htot.
  repeat split; try done; try lia.
  - rewrite Hpre by lia. simpl. apply lookup_replicate. split; [done|lia].
Qed.

End ComposeBatch.

Lemma segment_copied_extend {Coeff} (d : Dataset Coeff) sp m secs' (n : nat) (i t P : Z) :
  0 ≤ t ≤ P → t ≤ length sp → t ≤ length m →
  segment_copied d (take (Z.to_nat t) sp) (take (Z.to_nat t) m) secs' n i →
  segment_copied d (take (Z.to_nat P) sp) (take (Z.to_nat P) m) secs' n i.
Proof.
  intros Ht Hsp Hm (s & e & a & b & Hs & He & Ha & Hb & Hse & Hesp & Hem
                    & Hab & Hbsp & Hbm & Hlen & Hcsp & Hcm).
  rewrite length_take in Hbsp. rewrite length_take in Hbm.
  exists s, e, a, b. rewrite !length_take.
  repeat split; try done; try lia.
  - rewrite <- Hcsp. apply (py_slice_agree _ _ _ _ t); rewrite ?length_take; try lia.
    rewrite !take_take. f_equal. lia.
  - rewrite <- Hcm. apply (py_slice_agree _ _ _ _ t); rewrite ?length_take; try lia.
    rewrite !take_take. f_equal. lia.
Qed.

Section BatchTheorems.
Context {Coeff Op : Type} `{!Netket Coeff Op}.
Variable c0 : Coeff.


(** C2, as the code has it. For a dataset converted from an input with a
    basis for every sample, sampled indices inside it and a positive
    padding granularity: with [pf = max(MAX_LEN, min_padding_factor)]
    and [P] the least multiple of [pf] that is at least the true total
    copied length, both flat buffers of the batch have length
    [min(N_samples * MAX_LEN, P)]: never less than the true total, and
    equal to [P], a multiple of [pf], whenever [P] fits in the
    [N_samples * MAX_LEN] preallocated entries. *)
Theorem compose_buffer_length N sigma_s (l : list (Base Op)) d idx mpf :
  (length sigma_s ≤ length l)%nat →
  _convert_data c0 N sigma_s (BasesSeq l) = Ok d →
  Forall (λ i, 0 ≤ i < length sigma_s) idx →
  0 < mpf →
  ∃ b, _compose_sampled_data c0 N d idx mpf = Ok b ∧
    let total := copied_total d idx in
    let pf := Z.max (ds_max_len d) mpf in
    let P := pf * ceil_div total pf in
    last (b_secs b) = Some total ∧
    (length (b_sigma_p b) : Z) = Z.min (length idx * ds_max_len d) P ∧
    (length (b_mels b) : Z) = Z.min (length idx * ds_max_len d) P ∧
    total ≤ length (b_mels b) ∧
    total ≤ P < total + pf ∧ (pf | P) ∧
    (P ≤ length idx * ds_max_len d →
       (length (b_mels b) : Z) = P ∧ (pf | length (b_mels b))).
Proof.
  intros Hlen Hc Hidx Hmpf.
  destruct (convert_data_wf c0 _ _ _ _ Hlen Hc) as [Hwf Hn].
  rewrite <- Hn in Hidx.
  destruct (compose_sampled_data_spec c0 N d idx mpf Hwf Hidx Hmpf)
    as (st & _ & Hb & Htot & Hrange & Hsp & Hm & Hsecs & H0 & Hfin & _).
  eexists. split; [exact Hb|]. cbv zeta. simpl.
  pose proof (wf_max d Hwf).
  pose proof (ceil_div_spec (copied_total d idx) (ds_max_len d `max` mpf) ltac:(lia)) as HP.
  assert (Hdiv : (ds_max_len d `max` mpf | ds_max_len d `max` mpf
                    * ceil_div (copied_total d idx) (ds_max_len d `max` mpf)))
    by apply Z.divide_factor_l.
  rewrite !length_take.
  repeat split; try done; try lia.
  - rewrite last_lookup, Hsecs. simpl. done.
  - replace (Z.of_nat (_ `min` _)) with
      (ds_max_len d `max` mpf * ceil_div (copied_total d idx) (ds_max_len d `max` mpf))
      by lia. done.
Qed.

End BatchTheorems.



(** The buffer length on the example dataset: total [5], preallocated [6],
    least multiple of [128] above the total [128]. *)
Lemma compose_buffer_length_witness :
  ∃ b, _compose_sampled_data amp_zero 1 example_dataset [0; 1; 1] 128 = Ok b ∧
    (length (b_mels b) : Z) = 6 ∧ 5 ≤ length (b_mels b).
Proof.
  destruct (compose_buffer_length amp_zero 1 example_samples example_bases
              example_dataset [0; 1; 1] 128 ltac:(simpl; lia) example_dataset_converted)
    as (b & Hb & _ & _ & Hm & Hge & _).
  - repeat constructor; simpl; lia.
  - lia.
  - exists b. split; [exact Hb|]. split; [exact Hm|exact Hge].
Defined.

(** C2 as stated fails. Two identity-basis records, both sampled, give
    buffers of length [2], not a multiple of [128]: the slice cannot extend
    the two preallocated entries. And with a granularity of [3], a record
    with four connected configurations and one with a single one give
    buffers of length [8], a multiple of [MAX_LEN = 4] and not of [3]. *)
Lemma compose_buffer_not_multiple :
  (_convert_data amp_zero 1 identity_samples (BasesSeq identity_bases) = Ok identity_dataset ∧
   ∃ b, _compose_sampled_data amp_zero 1 identity_dataset [0; 1] 128 = Ok b ∧
     length (b_sigma_p b) = 2%nat ∧ length (b_mels b) = 2%nat ∧
     ¬ (128 | length (b_mels b)) ∧ ¬ (128 | length (b_sigma_p b))) ∧
  (d ← _convert_data amp_zero 2 [[1; 1]; [1; 1]] (BasesSeq [BStr "XX"; BStr "ZZ"]);
   b ← _compose_sampled_data amp_zero 2 d [0; 1] 3;
   Ok (ds_secs d, ds_max_len d, b_secs b, length (b_sigma_p b), length (b_mels b)))
  = Ok ([0; 4; 5], 4, [0; 4; 5], 8%nat, 8%nat) ∧
  ¬ (3 | 8).
Proof.
  split; [split; [reflexivity|]|split; [reflexivity|intros [q Hq]; lia]].
  eexists. split; [reflexivity|]. simpl.
  repeat split; intros [q Hq]; lia.
Qed.

(** ** Segment sums *)

Lemma cumsum_from_length acc l : length (cumsum_from acc l) = length l.
Proof. revert acc. induction l as [|x l IH]; intros acc; simpl; [done|]. by rewrite IH. Qed.

Lemma cumsum_from_lookup l : ∀ acc (k : nat),
  (k < length l)%nat → cumsum_from acc l !! k = Some (acc + Zsum (take (S k) l)).
Proof.
  induction l as [|x l IH]; intros acc k Hk; simpl in Hk; [lia|].
  destruct k as [|k]; simpl.
  - f_equal. destruct l; simpl; lia.
  - rewrite IH by lia. f_equal. simpl. lia.
Qed.

Lemma cumsum_from_take l : ∀ acc n,
  cumsum_from acc (take n l) = take n (cumsum_from acc l).
Proof.
  induction l as [|x l IH]; intros acc [|n]; simpl; try done. by rewrite IH.
Qed.

(** The running sum of the differences of consecutive offsets gives the
    offsets back. *)
Lemma cumsum_from_diffs rest : ∀ s0,
  cumsum_from s0 (zip_with Z.sub rest (s0 :: rest)) = rest.
Proof.
  induction rest as [|r rest IH]; intros s0; simpl; [done|].
  replace (s0 + (r - s0)) with r by lia. by rewrite IH.
Qed.

Lemma scatter_add1_length idxs : ∀ buf, length (scatter_add1 buf idxs) = length buf.
Proof.
  induction idxs as [|i idxs IH]; intros buf; simpl; [done|].
  rewrite IH. case_match; [|done]. apply length_alter.
Qed.

Lemma Zsum_take_alter (buf : list Z) : ∀ (n i : nat),
  (i < length buf)%nat →
  Zsum (take n (alter Z.succ i buf)) = Zsum (take n buf) + (if i <? n then 1 else 0).
Proof.
  unfold alter.
  induction buf as [|x buf IH]; intros n i Hi; simpl in Hi; [lia|].
  destruct n as [|n]; simpl.
  { destruct (Z.ltb_spec i 0%nat); lia. }
  destruct i as [|i]; simpl.
  - destruct (Z.ltb_spec 0%nat (S n)); lia.
  - rewrite IH by lia.
    destruct (Z.ltb_spec i n), (Z.ltb_spec (S i) (S n)); lia.
Qed.

Lemma count_below_cons n x l :
  count_below n (x :: l) = (if x <? n then 1 else 0) + count_below n l.
Proof. reflexivity. Qed.

Lemma count_below_nonneg n l : 0 ≤ count_below n l.
Proof.
  induction l as [|x l IH]; [done|].
  rewrite count_below_cons. destruct (x <? n); lia.
Qed.

Lemma count_below_le_length n l : count_below n l ≤ length l.
Proof.
  induction l as [|x l IH]; [done|].
  rewrite count_below_cons. simpl. destruct (x <? n); lia.
Qed.

Lemma count_below_app n l1 l2 :
  count_below n (l1 ++ l2) = count_below n l1 + count_below n l2.
Proof. unfold count_below. by rewrite fmap_app, Zsum_app. Qed.

Lemma count_below_all n l : Forall (λ x, x < n) l → count_below n l = length l.
Proof.
  induction 1 as [|x l Hx _ IH]; [done|].
  rewrite count_below_cons, IH. simpl. destruct (Z.ltb_spec x n); lia.
Qed.

Lemma count_below_none n l : Forall (λ x, n ≤ x) l → count_below n l = 0.
Proof.
  induction 1 as [|x l Hx _ IH]; [done|].
  rewrite count_below_cons, IH. destruct (Z.ltb_spec x n); lia.
Qed.

(** After the scatter, the first [n] marks add up to the number of block
    starts below [n]. *)
Lemma scatter_add1_sum idxs : ∀ buf (n : nat),
  Forall (Z.le 0) idxs → (n ≤ length buf)%nat →
  Zsum (take n (scatter_add1 buf idxs)) = Zsum (take n buf) + count_below n idxs.
Proof.
  induction idxs as [|i idxs IH]; intros buf n Hpos Hn; simpl.
  { unfold count_below. simpl. lia. }
  apply Forall_cons in Hpos as [Hi Hpos].
  destruct (Z.ltb_spec i 0); [lia|].
  rewrite count_below_cons.
  destruct (Z.leb_spec 0 i); [|lia]. simpl.
  destruct (Z.ltb_spec i (length buf)).
  - rewrite IH by (rewrite ?length_alter; done).
    rewrite Zsum_take_alter by lia. rewrite Z2Nat.id by lia. lia.
  - rewrite IH by done. destruct (Z.ltb_spec i n); lia.
Qed.

Lemma Zsum_replicate_0 n : Zsum (replicate n 0) = 0.
Proof. induction n as [|n IH]; simpl; [done|]. by rewrite IH. Qed.

Lemma jnp_arange_lookup n (i : nat) : (i < n)%nat → jnp_arange n !! i = Some (Z.of_nat i).
Proof.
  intros Hi. unfold jnp_arange. rewrite list_lookup_fmap, lookup_seq_lt by done. done.
Qed.

Lemma zip_with_take_length {A B C} (f : A → B → C) (l : list A) : ∀ (k : list B),
  zip_with f l (take (length l) k) = zip_with f l k.
Proof.
  induction l as [|x l IH]; intros [|y k]; simpl; try done. by rewrite IH.
Qed.

(** In non-decreasing offsets, the entries below [n] are an initial run. *)
Lemma count_below_ge_prefix n l (j : nat) :
  nondecreasing l → (∀ x, l !! pred j = Some x → x < n) → (j ≤ length l)%nat →
  Z.of_nat j ≤ count_below n l.
Proof.
  intros Hmono Hx Hj. rewrite <- (take_drop j l), count_below_app.
  pose proof (count_below_nonneg n (drop j l)).
  rewrite count_below_all; [rewrite length_take; lia|].
  apply Forall_lookup. intros i x [Hi Hij]%lookup_take_Some.
  destruct (lookup_lt_is_Some_2 l (pred j)) as [y Hy]; [lia|].
  pose proof (Hx y Hy). pose proof (Hmono i (pred j) x y ltac:(lia) Hi Hy). lia.
Qed.

Lemma count_below_le_prefix n l (j : nat) :
  nondecreasing l → (∀ x, l !! j = Some x → n ≤ x) →
  count_below n l ≤ Z.of_nat j.
Proof.
  intros Hmono Hx. rewrite <- (take_drop j l), count_below_app.
  pose proof (count_below_le_length n (take j l)).
  rewrite length_take in *.
  rewrite (count_below_none n (drop j l)); [lia|].
  apply Forall_lookup. intros i x Hi. rewrite lookup_drop in Hi.
  destruct (lookup_lt_is_Some_2 l j) as [y Hy]; [apply lookup_lt_Some in Hi; lia|].
  pose proof (Hx y Hy). pose proof (Hmono j (j + i)%nat y x ltac:(lia) Hy Hi). lia.
Qed.

Lemma nondecreasing_take l n : nondecreasing l → nondecreasing (take n l).
Proof.
  intros Hmono i j a b Hij [Ha _]%lookup_take_Some [Hb _]%lookup_take_Some.
  by eapply Hmono.
Qed.

(** The segment ids [sum_sections] builds: position [k] belongs to the last
    row whose offset is at most [k]. *)
Lemma sum_sections_indices (secs : list Z) (L : nat) :
  (2 ≤ length secs)%nat → secs !! 0%nat = Some 0 → nondecreasing secs →
  let N_rows := (length secs - 1)%nat in
  let offsets := take N_rows secs in
  let indices :=
    jnp_repeat (jnp_arange N_rows)
      (zip_with Z.sub (py_slice secs 1 None) (py_slice secs 0 (Some (-1)))) L in
  length indices = L ∧
  ∀ k : nat, (k < L)%nat → indices !! k = Some (count_below (k + 1) offsets - 1).
Proof.
  intros Hlen H0 Hmono. cbv zeta.
  destruct secs as [|s0 rest]; [simpl in Hlen; lia|].
  injection H0 as ->. simpl in Hlen.
  assert (Hoff : py_slice (0 :: rest) 0 (Some (-1)) = take (length rest) (0 :: rest)).
  { unfold py_slice, py_stop, py_clip. simpl length.
    destruct (Z.ltb_spec (-1) 0); [|lia]. destruct (Z.ltb_spec 0 0); [lia|].
    rewrite Z.min_l by lia. rewrite drop_0. f_equal. lia. }
  assert (Htl : py_slice (0 :: rest) 1 None = rest).
  { unfold py_slice, py_stop, py_clip. simpl length.
    destruct (Z.ltb_spec 1 0); [lia|]. rewrite Z.min_l by lia.
    simpl. rewrite drop_0. apply take_ge. lia. }
  rewrite Hoff, Htl, zip_with_take_length.
  simpl length. replace (S (length rest) - 1)%nat with (length rest) by lia.
  rewrite ?Nat.sub_0_r.
  set (sizes := zip_with Z.sub rest (0 :: rest)).
  assert (Hsz : length sizes = length rest).
  { unfold sizes. rewrite length_zip_with. simpl. lia. }
  set (offsets := take (length rest) (0 :: rest)).
  assert (Hol : length offsets = length rest).
  { unfold offsets. rewrite length_take. simpl. lia. }
  assert (Hscatter : jnp_cumsum (0 :: take (length sizes - 1) sizes) = offsets).
  { unfold jnp_cumsum. simpl. rewrite cumsum_from_take.
    unfold sizes at 2. rewrite cumsum_from_diffs.
    unfold offsets. rewrite Hsz.
    replace (length rest) with (S (length rest - 1)) at 2 by lia. done. }
  assert (Hpos : Forall (Z.le 0) offsets).
  { apply Forall_lookup. intros i x [Hi _]%lookup_take_Some.
    by apply (Hmono 0%nat i 0 x ltac:(lia)). }
  unfold jnp_repeat.
  destruct (decide (L = 0%nat)) as [->|HL].
  { split; [done|]. intros; lia. }
  destruct (jnp_arange (length rest)) as [|a0 ar] eqn:Har.
  { apply (f_equal length) in Har. unfold jnp_arange in Har.
    rewrite length_fmap, length_seq in Har. simpl in Har. lia. }
  cbv iota. rewrite <- Har. clear Har a0 ar.
  replace (match sizes with [] => [] | _ :: _ => 0 :: take (length sizes - 1) sizes end)
    with (0 :: take (length sizes - 1) sizes)
    by (clear Hscatter; destruct sizes; [simpl in Hsz; lia|done]).
  rewrite Hscatter.
  split.
  { rewrite !length_fmap. unfold jnp_cumsum.
    by rewrite cumsum_from_length, scatter_add1_length, length_replicate. }
  intros k Hk.
  rewrite !list_lookup_fmap. unfold jnp_cumsum.
  rewrite cumsum_from_lookup by (rewrite scatter_add1_length, length_replicate; lia).
  rewrite scatter_add1_sum by (rewrite ?length_replicate; done || lia).
  rewrite take_replicate, Zsum_replicate_0. simpl.
  replace (Z.of_nat (S k)) with (k + 1) by lia.
  assert (1 ≤ count_below (k + 1) offsets).
  { apply (count_below_ge_prefix _ _ 1).
    - by apply nondecreasing_take.
    - unfold offsets. destruct rest; simpl in *; [lia|]. intros x [= <-]. lia.
    - lia. }
  pose proof (count_below_le_length (k + 1) offsets).
  rewrite jnp_arange_lookup by lia. simpl. f_equal. lia.
Qed.

Section SumProps.
Context {A : Type}.
Variable zero : A.
Variable add : A → A → A.

Abbreviation pick s := (λ (acc : A) (p : A * Z),
  if decide (p.2 = Z.of_nat s) then add acc p.1 else acc).

Lemma fold_skip (s : nat) (ps : list (A * Z)) acc :
  Forall (λ p, p.2 ≠ Z.of_nat s) ps → fold_left (pick s) ps acc = acc.
Proof.
  intros Hps. revert acc. induction Hps as [|p ps Hp _ IH]; intros acc; simpl; [done|].
  by rewrite decide_False, IH.
Qed.

Lemma fold_hit (s : nat) (ps : list (A * Z)) acc :
  Forall (λ p, p.2 = Z.of_nat s) ps →
  fold_left (pick s) ps acc = fold_left add ps.*1 acc.
Proof.
  intros Hps. revert acc. induction Hps as [|p ps Hp _ IH]; intros acc; simpl; [done|].
  by rewrite decide_True, IH.
Qed.

(** When the positions with id [s] are exactly [a .. b), row [s] is the sum
    of that range. *)
Lemma fold_range (arr : list A) (ids : list Z) (s a b : nat) :
  length ids = length arr → (a ≤ b ≤ length arr)%nat →
  (∀ (k : nat) id, ids !! k = Some id → (id = Z.of_nat s ↔ (a ≤ k < b)%nat)) →
  fold_left (pick s) (zip arr ids) zero = jnp_sum zero add (take (b - a) (drop a arr)).
Proof.
  intros Hlen Hab Hids.
  assert (Hz : ∀ (k : nat) p, zip arr ids !! k = Some p → ids !! k = Some p.2).
  { intros k [x id] Hk. apply lookup_zip_with_Some in Hk as (x' & id' & [= <- <-] & _ & Hid).
    done. }
  rewrite <- (take_drop a (zip arr ids)).
  rewrite <- (take_drop (b - a) (drop a (zip arr ids))).
  rewrite !fold_left_app.
  rewrite (fold_skip s (take a _)).
  2:{ apply Forall_lookup. intros k p [Hk Hlt]%lookup_take_Some.
      intros Heq. apply (Hids k p.2 (Hz _ _ Hk)) in Heq. lia. }
  rewrite (fold_hit s (take (b - a) _)).
  2:{ apply Forall_lookup. intros k p [Hk Hlt]%lookup_take_Some.
      rewrite lookup_drop in Hk. apply (Hids _ p.2 (Hz _ _ Hk)). lia. }
  rewrite fold_skip.
  2:{ apply Forall_lookup. intros k p Hk. rewrite !lookup_drop in Hk.
      intros Heq. apply (Hids _ p.2 (Hz _ _ Hk)) in Heq. lia. }
  unfold jnp_sum. f_equal.
  rewrite fmap_take, fmap_drop, fst_zip by lia. done.
Qed.

Lemma segment_sum_lookup (arr : list A) ids (n s : nat) :
  (s < n)%nat →
  segment_sum zero add arr ids n !! s = Some (fold_left (pick s) (zip arr ids) zero).
Proof.
  intros Hs. unfold segment_sum. by rewrite list_lookup_fmap, lookup_seq_lt.
Qed.

(** What [sum_sections] returns on non-decreasing offsets that start at [0]
    and end inside the array: every row but the last is the sum of its
    range, and the last row is the sum from its offset to the end of the
    array. *)
Lemma sum_sections_spec (arr : list A) (secs : list Z) t :
  (2 ≤ length secs)%nat → secs !! 0%nat = Some 0 → nondecreasing secs →
  last secs = Some t → t ≤ length arr →
  ∃ out, sum_sections zero add arr secs = Ok out ∧
    length out = (length secs - 1)%nat ∧
    (∀ (i : nat) a b, (S i < length secs - 1)%nat →
       secs !! i = Some a → secs !! S i = Some b →
       out !! i = Some (jnp_sum zero add (py_slice arr a (Some b)))) ∧
    (∀ a, secs !! (length secs - 2)%nat = Some a →
       out !! (length secs - 2)%nat = Some (jnp_sum zero add (py_slice arr a None))).
Proof.
  intros Hlen H0 Hmono Hlast Ht.
  destruct (sum_sections_indices secs (length arr) Hlen H0 Hmono) as [Hil Hids].
  cbv zeta in Hil, Hids.
  set (N_rows := (length secs - 1)%nat) in *.
  set (offsets := take N_rows secs) in *.
  assert (Hom : nondecreasing offsets) by by apply nondecreasing_take.
  assert (Hol : length offsets = N_rows).
  { unfold offsets. rewrite length_take. lia. }
  rewrite last_lookup in Hlast.
  assert (Hpos : ∀ (i : nat) a, secs !! i = Some a → 0 ≤ a ≤ t).
  { intros i a Ha. pose proof (lookup_lt_Some _ _ _ Ha). split.
    - by apply (Hmono 0%nat i 0 a ltac:(lia)).
    - by apply (Hmono i (pred (length secs)) a t ltac:(lia)). }
  unfold sum_sections. rewrite decide_False by (intros ->; simpl in Hlen; lia).
  fold N_rows. set (indices := jnp_repeat _ _ _) in *.
  eexists. split; [done|]. split; [|split].
  - unfold segment_sum. by rewrite length_fmap, length_seq.
  - intros i a b Hi Ha Hb. rewrite segment_sum_lookup by lia. f_equal.
    pose proof (Hpos _ _ Ha). pose proof (Hpos _ _ Hb).
    pose proof (Hmono i (S i) a b ltac:(lia) Ha Hb).
    assert (Hoa : offsets !! i = Some a) by (apply lookup_take_Some; split; [done|lia]).
    assert (Hob : offsets !! S i = Some b) by (apply lookup_take_Some; split; [done|lia]).
    rewrite (py_slice_in arr) by lia.
    replace (Z.to_nat (b - a)) with (Z.to_nat b - Z.to_nat a)%nat by lia.
    apply fold_range; [done|lia|].
    intros k id Hk. pose proof (lookup_lt_Some _ _ _ Hk) as Hkl.
    rewrite Hids in Hk by lia. injection Hk as <-. split.
    + intros Hc. split.
      * destruct (decide (Z.to_nat a ≤ k)%nat); [done|].
        pose proof (count_below_le_prefix (k + 1) offsets i Hom) as Hle.
        rewrite Hoa in Hle. specialize (Hle ltac:(intros x [= <-]; lia)). lia.
      * destruct (decide (k < Z.to_nat b)%nat); [done|].
        pose proof (count_below_ge_prefix (k + 1) offsets (S (S i)) Hom) as Hge.
        simpl in Hge. rewrite Hob in Hge.
        specialize (Hge ltac:(intros x [= <-]; lia) ltac:(lia)). lia.
    + intros Hk.
      pose proof (count_below_ge_prefix (k + 1) offsets (S i) Hom) as Hge.
      simpl in Hge. rewrite Hoa in Hge.
      specialize (Hge ltac:(intros x [= <-]; lia) ltac:(lia)).
      pose proof (count_below_le_prefix (k + 1) offsets (S i) Hom) as Hle.
      rewrite Hob in Hle. specialize (Hle ltac:(intros x [= <-]; lia)). lia.
  - intros a Ha. replace (length secs - 2)%nat with (pred N_rows) in * by lia.
    rewrite segment_sum_lookup by lia. f_equal.
    pose proof (Hpos _ _ Ha).
    assert (Hoa : offsets !! pred N_rows = Some a)
      by (apply lookup_take_Some; split; [done|lia]).
    unfold py_slice, py_stop. rewrite py_clip_in by lia.
    replace (Z.to_nat (length arr - a)) with (length arr - Z.to_nat a)%nat by lia.
    apply fold_range; [done|lia|].
    intros k id Hk. pose proof (lookup_lt_Some _ _ _ Hk) as Hkl.
    rewrite Hids in Hk by lia. injection Hk as <-. split.
    + intros Hc. split; [|lia].
      destruct (decide (Z.to_nat a ≤ k)%nat); [done|].
      pose proof (count_below_le_prefix (k + 1) offsets (pred N_rows) Hom) as Hle.
      rewrite Hoa in Hle. specialize (Hle ltac:(intros x [= <-]; lia)). lia.
    + intros Hk.
      pose proof (count_below_ge_prefix (k + 1) offsets N_rows Hom) as Hge.
      rewrite Hoa in Hge.
      specialize (Hge ltac:(intros x [= <-]; lia) ltac:(lia)).
      pose proof (count_below_le_length (k + 1) offsets). lia.
Qed.

End SumProps.

Section SumTail.
Context {A : Type}.
Variable zero : A.
Variable add : A → A → A.
Hypothesis add_assoc : ∀ x y z, add x (add y z) = add (add x y) z.
Hypothesis add_zero_l : ∀ x, add zero x = x.
Hypothesis add_zero_r : ∀ x, add x zero = x.

Lemma fold_left_add_acc (l : list A) : ∀ acc,
  fold_left add l acc = add acc (fold_left add l zero).
Proof.
  induction l as [|x l IH]; intros acc; simpl; [by rewrite add_zero_r|].
  rewrite (IH (add acc x)), (IH (add zero x)).
  by rewrite add_zero_l, add_assoc.
Qed.

Lemma jnp_sum_app (l1 l2 : list A) :
  jnp_sum zero add (l1 ++ l2) = add (jnp_sum zero add l1) (jnp_sum zero add l2).
Proof. unfold jnp_sum. by rewrite fold_left_app, fold_left_add_acc. Qed.

Lemma jnp_sum_zeros (l : list A) :
  Forall (λ x, x = zero) l → jnp_sum zero add l = zero.
Proof.
  unfold jnp_sum. induction 1 as [|x l -> _ IH]; simpl; [done|].
  by rewrite add_zero_l.
Qed.

End SumTail.

Section SumDocumented.
Context {A : Type}.
Variable zero : A.
Variable add : A → A → A.
Hypothesis add_zero_r : ∀ x, add x zero = x.

Lemma fold_left_zeros (l : list A) : ∀ acc,
  Forall (λ x, x = zero) l → fold_left add l acc = acc.
Proof.
  intros acc Hl. revert acc.
  induction Hl as [|x l -> _ IH]; intros acc; simpl; [done|].
  by rewrite add_zero_r.
Qed.

(** C9, as the code has it. On non-decreasing offsets that start at [0] and
    end at [t] inside the array, with the sums taken in index order: every
    row but the last is the sum of its own range and the last row is the
    sum from its offset to the end of the array; when every entry from [t]
    on is zero, and adding zero changes nothing, the result is the
    documented one. *)
Theorem sum_sections_folds_tail (arr : list A) (secs : list Z) t :
  (2 ≤ length secs)%nat → secs !! 0%nat = Some 0 → nondecreasing secs →
  last secs = Some t → t ≤ length arr →
  ∃ out, sum_sections zero add arr secs = Ok out ∧
    length out = (length secs - 1)%nat ∧
    (∀ (i : nat) a b, (S i < length secs - 1)%nat →
       secs !! i = Some a → secs !! S i = Some b →
       out !! i = Some (jnp_sum zero add (py_slice arr a (Some b)))) ∧
    (∀ a, secs !! (length secs - 2)%nat = Some a →
       out !! (length secs - 2)%nat = Some (jnp_sum zero add (py_slice arr a None))) ∧
    ((∀ (k : nat) x, t ≤ k → arr !! k = Some x → x = zero) →
       out = documented_sums zero add arr secs).
Proof.
  intros Hlen H0 Hmono Hlast Ht.
  destruct (sum_sections_spec zero add arr secs t Hlen H0 Hmono Hlast Ht)
    as (out & Hout & Hol & Hrows & Hlastrow).
  exists out. split; [done|]. split; [done|]. split; [done|]. split; [done|].
  intros Hz.
  rewrite last_lookup in Hlast.
  destruct (lookup_lt_is_Some_2 secs (length secs - 2)) as [a Ha]; [lia|].
  specialize (Hlastrow a Ha).
  assert (Hat : 0 ≤ a ≤ t).
  { split.
    - by apply (Hmono 0%nat (length secs - 2)%nat 0 a ltac:(lia)).
    - by apply (Hmono (length secs - 2)%nat (pred (length secs)) a t ltac:(lia)). }
  assert (Hsplit : jnp_sum zero add (py_slice arr a None)
                   = jnp_sum zero add (py_slice arr a (Some t))).
  { replace (py_slice arr a None)
      with (py_slice arr a (Some t) ++ drop (Z.to_nat t) arr).
    - unfold jnp_sum. rewrite fold_left_app. apply fold_left_zeros.
      apply Forall_lookup. intros k x Hk. rewrite lookup_drop in Hk.
      eapply Hz; [|exact Hk]. lia.
    - rewrite py_slice_in by lia. unfold py_slice, py_stop.
      rewrite !py_clip_in by lia.
      rewrite (take_ge (drop (Z.to_nat a) arr) (Z.to_nat (length arr - a)))
        by (rewrite length_drop; lia).
      rewrite <- (take_drop (Z.to_nat (t - a)) (drop (Z.to_nat a) arr)) at 2.
      f_equal. rewrite drop_drop. f_equal. lia. }
  assert (Hdl : length (documented_sums zero add arr secs) = (length secs - 1)%nat).
  { unfold documented_sums. rewrite length_zip_with, length_drop. lia. }
  assert (Hdoc : ∀ (i : nat) x y, secs !! i = Some x → secs !! S i = Some y →
            documented_sums zero add arr secs !! i
            = Some (jnp_sum zero add (py_slice arr x (Some y)))).
  { intros i x y Hx Hy. unfold documented_sums.
    rewrite lookup_zip_with, Hx. simpl. rewrite lookup_drop. simpl. by rewrite Hy. }
  assert (Hlast' : secs !! S (length secs - 2) = Some t).
  { rewrite <- Hlast. f_equal. lia. }
  apply list_eq. intros i.
  destruct (decide (i < length secs - 2)%nat) as [Hi|Hi].
  - destruct (lookup_lt_is_Some_2 secs i) as [x Hx]; [lia|].
    destruct (lookup_lt_is_Some_2 secs (S i)) as [y Hy]; [lia|].
    rewrite (Hrows i x y) by (done || lia). by rewrite (Hdoc _ _ _ Hx Hy).
  - destruct (decide (i = length secs - 2)%nat) as [->|Hne].
    + by rewrite Hlastrow, (Hdoc _ _ _ Ha Hlast'), Hsplit.
    + rewrite !lookup_ge_None_2 by lia. done.
Qed.

End SumDocumented.

(** Integer sums over a zero-padded array: the result is the documented one. *)
Lemma sum_sections_folds_tail_witness :
  sum_sections 0 Z.add [1; 2; 3; 4; 5; 0; 0] [0; 2; 2; 5] = Ok [3; 0; 12] ∧
  documented_sums 0 Z.add [1; 2; 3; 4; 5; 0; 0] [0; 2; 2; 5] = [3; 0; 12].
Proof.
  destruct (sum_sections_folds_tail 0 Z.add ltac:(intros; lia)
              [1; 2; 3; 4; 5; 0; 0] [0; 2; 2; 5] 5)
    as (out & Hout & _ & _ & _ & Hdoc).
  - simpl. lia.
  - reflexivity.
  - intros [|[|[|[|i]]]] [|[|[|[|j]]]] a b Hij Ha Hb; simpl in *;
      try lia; try discriminate; injection Ha as <-; injection Hb as <-; lia.
  - reflexivity.
  - simpl. lia.
  - split; [reflexivity|]. rewrite <- Hdoc.
    + injection Hout as <-. reflexivity.
    + intros [|[|[|[|[|[|[|k]]]]]]] x Hk Hx; simpl in *; try lia; try discriminate;
        by injection Hx as <-.
Defined.

(** C9 as stated fails in its last clause: with one segment [0 .. 1) and the
    entries [1] and [-1] after it, the result is the documented one although
    no entry past [secs[-1]] is zero. *)
Lemma sum_sections_documented_with_nonzero_tail :
  sum_sections 0 Z.add [1; 1; -1] [0; 1] = Ok (documented_sums 0 Z.add [1; 1; -1] [0; 1]) ∧
  documented_sums 0 Z.add [1; 1; -1] [0; 1] = [1] ∧
  last [0; 1] = Some 1 ∧
  ([1; 1; -1] : list Z) !! 1%nat = Some 1 ∧ ([1; 1; -1] : list Z) !! 2%nat = Some (-1).
Proof. repeat split. Qed.

(** ** Parameter trees *)

(** Two trees that [tree_map2] accepts have their leaves at the same paths,
    and the result holds, at each of them, the image of the two leaves. *)
Lemma tree_map2_lookup {A B C} (f : A → B → res C) (t : tree A) :
  ∀ (u : tree B) (r : tree C) (path : list string),
  tree_map2 f t u = Ok r →
  match tree_lookup path t with
  | Some a => ∃ b c, tree_lookup path u = Some b ∧ f a b = Ok c ∧
                     tree_lookup path r = Some c
  | None => tree_lookup path u = None ∧ tree_lookup path r = None
  end.
Proof.
  induction t as [a|cs IH] using tree_ind'; intros u r path Hmap.
  - destruct u as [b|us]; simpl in Hmap; [|discriminate].
    apply fmap_Ok in Hmap as (c & Hc & ->).
    destruct path; simpl; eauto.
  - destruct u as [b|us]; simpl in Hmap; [discriminate|].
    apply fmap_Ok in Hmap as (rs & Hrs & ->).
    destruct path as [|k path]; [done|]. simpl.
    revert us rs Hrs.
    induction IH as [|[k' c] cs Hc _ IHcs]; intros us rs Hrs.
    + destruct us; [|discriminate]. by injection Hrs as <-.
    + destruct us as [|[k'' u'] us]; [discriminate|].
      case_decide; [|discriminate]. subst k''.
      apply bind_Ok in Hrs as (c' & Hc' & Hrs).
      apply bind_Ok in Hrs as (rest & Hrest & Hrs).
      injection Hrs as <-. simpl.
      destruct (decide (k = k')).
      * by apply Hc.
      * by apply IHcs.
Qed.

(** ** The driver *)

Section DriverProps.
Context {Coeff Op R VState Optimizer Key Rng : Type}.
Context `{!Netket Coeff Op} `{!Real R} `{!Collaborators Coeff R VState Optimizer Key Rng}.
Variable c0 : Coeff.

Abbreviation Self := (gmap string (@QSR.pyval Coeff Op R VState Optimizer Rng)).
Implicit Types self : Self.

Lemma getattr_Ok self name v : QSR.getattr self name = Ok v ↔ self !! name = Some v.
Proof.
  unfold QSR.getattr. destruct (self !! name); split; intros [=]; by subst.
Qed.

Lemma getattr_as_int self name n :
  QSR.getattr self name ≫= QSR.as_int = Ok n → self !! name = Some (QSR.VInt n).
Proof.
  intros (v & Hv%getattr_Ok & Hn)%bind_Ok. by destruct v; simplify_eq/=.
Qed.

Lemma getattr_as_ints self name l :
  QSR.getattr self name ≫= QSR.as_ints = Ok l → self !! name = Some (QSR.VInts l).
Proof.
  intros (v & Hv%getattr_Ok & Hn)%bind_Ok. by destruct v; simplify_eq/=.
Qed.

Lemma getattr_as_rows self name p :
  QSR.getattr self name ≫= QSR.as_rows = Ok p → self !! name = Some (QSR.VRows p.1 p.2).
Proof.
  intros (v & Hv%getattr_Ok & Hn)%bind_Ok. by destruct v; simplify_eq/=.
Qed.

Lemma getattr_as_coeffs self name l :
  QSR.getattr self name ≫= QSR.as_coeffs = Ok l → self !! name = Some (QSR.VCoeffs l).
Proof.
  intros (v & Hv%getattr_Ok & Hn)%bind_Ok. by destruct v; simplify_eq/=.
Qed.

Lemma getattr_as_rng self name g :
  QSR.getattr self name ≫= QSR.as_rng = Ok g → self !! name = Some (QSR.VRng g).
Proof.
  intros (v & Hv%getattr_Ok & Hn)%bind_Ok. by destruct v; simplify_eq/=.
Qed.

Lemma getattr_as_state self name s :
  QSR.getattr self name ≫= QSR.as_state = Ok s → self !! name = Some (QSR.VState_ s).
Proof.
  intros (v & Hv%getattr_Ok & Hn)%bind_Ok. by destruct v; simplify_eq/=.
Qed.


Lemma getattr_as_preconditioner self name p :
  QSR.getattr self name ≫= QSR.as_preconditioner = Ok p →
  self !! name = Some (QSR.VPreconditioner p).
Proof.
  intros (v & Hv%getattr_Ok & Hn)%bind_Ok. by destruct v; simplify_eq/=.
Qed.

(** One training step, read off the code: what it reads, what it computes
    and what it leaves in the driver. *)
Lemma forward_and_backward_inv self dp self' :
  QSR._forward_and_backward c0 self = Ok (dp, self') →
  ∃ st0 g n size draw g' N sigma_p mels secs MAX_LEN b loss_grad p raw,
    let st := vs_samples (vs_reset st0) in
    self !! "_variational_state" = Some (QSR.VState_ st0) ∧
    self !! "_rng" = Some (QSR.VRng g) ∧
    self !! "_training_samples_n" = Some (QSR.VInt n) ∧
    self !! "training_batch_size" = Some (QSR.VInt size) ∧
    rng_integers g n size = Ok (draw, g') ∧
    self !! "_training_sigma_p" = Some (QSR.VRows N sigma_p) ∧
    self !! "_training_mels" = Some (QSR.VCoeffs mels) ∧
    self !! "_training_secs" = Some (QSR.VInts secs) ∧
    self !! "_training_max_len" = Some (QSR.VInt MAX_LEN) ∧
    _compose_sampled_data c0 N (mkDataset sigma_p mels secs MAX_LEN)
      (merge_sort Z.le draw) 128 = Ok b ∧
    compose_grads (_avg_O st)
      (grad_local_value_rotated st (b_sigma_p b) (b_mels b) (b_secs b)).2 = Ok loss_grad ∧
    self !! "preconditioner" = Some (QSR.VPreconditioner p) ∧
    p st loss_grad = Ok raw ∧
    tree_map2 (λ x target, Ok (project_leaf x target)) raw (vs_parameters st) = Ok dp ∧
    self' !! "_variational_state" = Some (QSR.VState_ st) ∧
    self' !! "_rng" = Some (QSR.VRng g') ∧
    self' !! "_sampled_indices" = Some (QSR.VInts (merge_sort Z.le draw)) ∧
    self' !! "_sigma_p" = Some (QSR.VRows N (b_sigma_p b)) ∧
    self' !! "_mels" = Some (QSR.VCoeffs (b_mels b)) ∧
    self' !! "_secs" = Some (QSR.VInts (b_secs b)) ∧
    self' !! "_grad_neg" = Some (QSR.VTree (_avg_O st)) ∧
    self' !! "_grad_pos" = Some (QSR.VTree
      (grad_local_value_rotated st (b_sigma_p b) (b_mels b) (b_secs b)).2) ∧
    self' !! "_loss_grad" = Some (QSR.VTree loss_grad) ∧
    self' !! "_dp" = Some (QSR.VTree dp) ∧
    (∀ name, name ∉ step_writes → self' !! name = self !! name).
Proof.
  unfold QSR._forward_and_backward, QSR.state. intros H.
  apply bind_Ok in H as (st0 & Hst%getattr_as_state & H).
  apply bind_Ok in H as (g & Hg%getattr_as_rng & H).
  apply bind_Ok in H as (n & Hn%getattr_as_int & H).
  apply bind_Ok in H as (size & Hsize%getattr_as_int & H).
  apply bind_Ok in H as ([draw g'] & Hdraw & H).
  apply bind_Ok in H as ([N sigma_p] & Hsp%getattr_as_rows & H).
  apply bind_Ok in H as (mels & Hmels%getattr_as_coeffs & H).
  apply bind_Ok in H as (secs & Hsecs%getattr_as_ints & H).
  apply bind_Ok in H as (MAX_LEN & HMAX%getattr_as_int & H).
  apply bind_Ok in H as (idx & Hidx%getattr_as_ints & H).
  apply bind_Ok in H as (b & Hb & H).
  destruct (grad_local_value_rotated _ _ _ _) as [lv grad_pos] eqn:Hpos.
  apply bind_Ok in H as (loss_grad & Hlg & H).
  apply bind_Ok in H as (p & Hp%getattr_as_preconditioner & H).
  apply bind_Ok in H as (raw & Hraw & H).
  apply bind_Ok in H as (dp' & Hdp & H).
  injection H as <- <-.
  simplify_map_eq.
  exists st0, g, n, size, draw, g', N, sigma_p, mels, secs, MAX_LEN, b, loss_grad, p, raw.
  cbv zeta. rewrite Hpos. simpl.
  repeat (split; [done|]).
  intros name Hname. unfold step_writes in Hname.
  repeat (rewrite lookup_insert_ne; [|intros <-; apply Hname; set_solver]).
  done.
Qed.

(** The indices a step composes its batch from are the drawn ones in
    ascending order. *)
Lemma sampled_indices_sorted self dp self' :
  QSR._forward_and_backward c0 self = Ok (dp, self') →
  ∃ g n size draw g' sampled,
    self !! "_rng" = Some (QSR.VRng g) ∧
    self !! "_training_samples_n" = Some (QSR.VInt n) ∧
    self !! "training_batch_size" = Some (QSR.VInt size) ∧
    rng_integers g n size = Ok (draw, g') ∧
    self' !! "_sampled_indices" = Some (QSR.VInts sampled) ∧
    Sorted Z.le sampled ∧ sampled ≡ₚ draw.
Proof.
  intros Hstep.
  destruct (forward_and_backward_inv _ _ _ Hstep)
    as (st0 & g & n & size & draw & g' & N & sigma_p & mels & secs & MAX_LEN & b
        & loss_grad & p & raw & H).
  cbv zeta in H.
  destruct H as (_ & Hg & Hn & Hsize & Hdraw & _ & _ & _ & _ & _ & _ & _ & _ & _
                 & _ & _ & Hidx & _).
  exists g, n, size, draw, g', (merge_sort Z.le draw).
  repeat (split; [done|]). split.
  - apply (Sorted_merge_sort Z.le).
  - apply merge_sort_Permutation.
Qed.

End DriverProps.

Section StepTheorems.
Context {Coeff Op R VState Optimizer Key Rng : Type}.
Context `{!Netket Coeff Op} `{!Real R} `{!Collaborators Coeff R VState Optimizer Key Rng}.
Variable c0 : Coeff.

Abbreviation Self := (gmap string (@QSR.pyval Coeff Op R VState Optimizer Rng)).
Implicit Types self : Self.

Lemma leaf_real_values (x : leaf R) : leaf_real x = RealArr (leaf_values x).*1.
Proof.
  destruct x as [l|l]; simpl; [|done].
  f_equal. rewrite <- list_fmap_compose. symmetry. apply list_fmap_id.
Qed.

Lemma leaf_real_imag_zero (x : leaf R) : imag_zero (leaf_real x).
Proof. unfold imag_zero. destruct x as [l|l]; simpl; by rewrite !length_fmap. Qed.

Lemma project_leaf_cases (x target : leaf R) :
  project_leaf x target
  = match target with
    | RealArr _ => RealArr (leaf_values x).*1
    | ComplexArr _ => x
    end.
Proof. unfold project_leaf. destruct target; simpl; [apply leaf_real_values|done]. Qed.

(** C7. After a training step, at every path where the parameters hold an
    array: where that array is real, the update holds the real array of the
    real parts of the preconditioned gradient found there, and its imaginary
    part is zero whatever the gradient was; where that array is complex, the
    update holds the preconditioned gradient itself. *)
Theorem real_parameters_get_real_updates self dp self' :
  QSR._forward_and_backward c0 self = Ok (dp, self') →
  ∃ st loss_grad p raw,
    self' !! "_variational_state" = Some (QSR.VState_ st) ∧
    self' !! "_loss_grad" = Some (QSR.VTree loss_grad) ∧
    self !! "preconditioner" = Some (QSR.VPreconditioner p) ∧
    p st loss_grad = Ok raw ∧
    ∀ path target, tree_lookup path (vs_parameters st) = Some target →
      ∃ x u, tree_lookup path raw = Some x ∧ tree_lookup path dp = Some u ∧
        match target with
        | RealArr _ => u = RealArr (leaf_values x).*1 ∧ imag_zero u
        | ComplexArr _ => u = x
        end.
Proof.
  intros Hstep.
  destruct (forward_and_backward_inv c0 _ _ _ Hstep)
    as (st0 & g & n & size & draw & g' & N & sigma_p & mels & secs & MAX_LEN & b
        & loss_grad & p & raw & H).
  cbv zeta in H.
  destruct H as (_ & _ & _ & _ & _ & _ & _ & _ & _ & _ & _ & Hp & Hraw & Hdp
                 & Hst & _ & _ & _ & _ & _ & _ & _ & Hlg & _).
  exists (vs_samples (vs_reset st0)), loss_grad, p, raw.
  repeat (split; [done|]).
  intros path target Htarget.
  pose proof (tree_map2_lookup _ _ _ _ path Hdp) as Hl.
  destruct (tree_lookup path raw) as [x|].
  - destruct Hl as (t' & u & Ht' & Hu & Hdpu).
    rewrite Htarget in Ht'. injection Ht' as <-. injection Hu as <-.
    exists x, (project_leaf x target).
    split; [done|]. split; [done|].
    rewrite project_leaf_cases. destruct target as [l|l]; [|done].
    split; [done|]. rewrite <- leaf_real_values. apply leaf_real_imag_zero.
  - destruct Hl as [Hnone _]. congruence.
Qed.

(** C6, as the code has it. With the identity preconditioner, the loss
    gradient is, leaf by leaf, [2 * conj(negative − positive)], and the
    update holds, at every leaf of the loss gradient, that leaf itself where
    the parameter array is complex and the real array of its real parts
    where the parameter array is real. *)
Theorem identity_preconditioner_update self dp self' :
  self !! "preconditioner" = Some (QSR.VPreconditioner identity_preconditioner) →
  QSR._forward_and_backward c0 self = Ok (dp, self') →
  ∃ st grad_neg grad_pos loss_grad,
    self' !! "_variational_state" = Some (QSR.VState_ st) ∧
    self' !! "_grad_neg" = Some (QSR.VTree grad_neg) ∧
    self' !! "_grad_pos" = Some (QSR.VTree grad_pos) ∧
    self' !! "_loss_grad" = Some (QSR.VTree loss_grad) ∧
    (∀ path x, tree_lookup path grad_neg = Some x →
       ∃ y d, tree_lookup path grad_pos = Some y ∧ leaf_sub x y = Ok d ∧
         tree_lookup path loss_grad = Some (leaf_double (leaf_conj d))) ∧
    (∀ path g, tree_lookup path loss_grad = Some g →
       ∃ target, tree_lookup path (vs_parameters st) = Some target ∧
         tree_lookup path dp
         = Some match target with
                | RealArr _ => RealArr (leaf_values g).*1
                | ComplexArr _ => g
                end).
Proof.
  intros Hid Hstep.
  destruct (forward_and_backward_inv c0 _ _ _ Hstep)
    as (st0 & g & n & size & draw & g' & N & sigma_p & mels & secs & MAX_LEN & b
        & loss_grad & p & raw & H).
  cbv zeta in H.
  destruct H as (_ & _ & _ & _ & _ & _ & _ & _ & _ & _ & Hcg & Hp & Hraw & Hdp
                 & Hst & _ & _ & _ & _ & _ & Hgn & Hgp & Hlg & _).
  rewrite Hid in Hp. injection Hp as <-.
  injection Hraw as <-.
  eexists _, _, _, loss_grad. repeat (split; [done|]). split.
  - intros path x Hx.
    pose proof (tree_map2_lookup _ _ _ _ path Hcg) as Hl. rewrite Hx in Hl.
    destruct Hl as (y & c & Hy & Hc & Hlc).
    apply bind_Ok in Hc as (d & Hd & [= <-]). eauto.
  - intros path gl Hgl.
    pose proof (tree_map2_lookup _ _ _ _ path Hdp) as Hl. rewrite Hgl in Hl.
    destruct Hl as (target & u & Ht & [= <-] & Hu).
    exists target. split; [done|]. by rewrite <- project_leaf_cases.
Qed.

(** C10. A driver that [__init__] has just returned has none of
    [_sigma_p], [_mels], [_secs], and [nll] fails on it with the attribute
    error for [_sigma_p]; a training step creates all three, and [nll]
    returns after it. *)
Theorem nll_before_first_step e training_data training_batch_size optimizer
    variational_state preconditioner seed self :
  QSR.__init__ c0 e training_data training_batch_size optimizer variational_state
    preconditioner seed = Ok self →
  QSR.nll self = Err (AttributeError "_sigma_p") ∧
  self !! "_sigma_p" = None ∧ self !! "_mels" = None ∧ self !! "_secs" = None ∧
  ∀ dp self', QSR._forward_and_backward c0 self = Ok (dp, self') →
    is_Some (self' !! "_sigma_p") ∧ is_Some (self' !! "_mels") ∧
    is_Some (self' !! "_secs") ∧ is_Ok (QSR.nll self').
Proof.
  unfold QSR.__init__. intros Hinit.
  destruct training_data as [N sigma_s Us|]; [|discriminate].
  apply bind_Ok in Hinit as (d & Hd & [= <-]).
  split; [|split; [|split; [|split]]].
  { unfold QSR.nll, QSR.state, QSR.getattr. by simplify_map_eq. }
  1-3: by simplify_map_eq.
  intros dp self' Hstep.
  destruct (forward_and_backward_inv c0 _ _ _ Hstep)
    as (st0 & g & n & size & draw & g' & N' & sigma_p & mels & secs & MAX_LEN & b
        & loss_grad & p & raw & H).
  cbv zeta in H.
  destruct H as (_ & _ & _ & _ & _ & _ & _ & _ & _ & _ & _ & _ & _ & _
                 & Hst & _ & _ & Hsp & Hm & Hs & _).
  rewrite Hsp, Hm, Hs. repeat (split; [done|]).
  unfold QSR.nll, QSR.state, QSR.getattr, is_Ok. rewrite Hst, Hsp, Hm, Hs. simpl. eauto.
Qed.

End StepTheorems.

Section Reproducibility.
Context {Coeff Op R VState Optimizer Key Rng : Type}.
Context `{!Netket Coeff Op} `{!Real R} `{!Collaborators Coeff R VState Optimizer Key Rng}.
Variable c0 : Coeff.

Abbreviation Self := (gmap string (@QSR.pyval Coeff Op R VState Optimizer Rng)).
Implicit Types self : Self.

(** The index arrays of a run depend on the driver only through its
    generator, the number of training records and the batch size. *)
Lemma advance_trace steps : ∀ self g n size tr self',
  self !! "_rng" = Some (QSR.VRng g) →
  self !! "_training_samples_n" = Some (QSR.VInt n) →
  self !! "training_batch_size" = Some (QSR.VInt size) →
  QSR.advance c0 steps self = Ok (tr, self') →
  QSR.draw_trace g n size steps = Ok tr.
Proof.
  induction steps as [|steps IH]; intros self g n size tr self' Hg Hn Hsize Hrun.
  { simpl in Hrun. by injection Hrun as <- <-. }
  simpl in Hrun.
  apply bind_Ok in Hrun as ([dp self1] & Hstep & Hrun).
  apply bind_Ok in Hrun as (sampled & Hsampled%getattr_as_ints & Hrun).
  apply bind_Ok in Hrun as (count & _ & Hrun).
  apply bind_Ok in Hrun as (optimizer & _ & Hrun).
  apply bind_Ok in Hrun as (st & _ & Hrun).
  destruct (update_parameters optimizer st dp) as [optimizer' st'].
  apply bind_Ok in Hrun as ([rest self2] & Hrest & Hrun).
  injection Hrun as <- <-.
  destruct (forward_and_backward_inv c0 _ _ _ Hstep)
    as (st0 & g0 & n0 & size0 & draw & g' & N & sigma_p & mels & secs & MAX_LEN & b
        & loss_grad & p & raw & H).
  cbv zeta in H.
  destruct H as (_ & Hg0 & Hn0 & Hsize0 & Hdraw & _ & _ & _ & _ & _ & _ & _ & _ & _
                 & _ & Hg' & Hidx & _ & _ & _ & _ & _ & _ & _ & Hframe).
  rewrite Hg in Hg0. injection Hg0 as <-.
  rewrite Hn in Hn0. injection Hn0 as <-.
  rewrite Hsize in Hsize0. injection Hsize0 as <-.
  rewrite Hidx in Hsampled. injection Hsampled as <-.
  simpl. rewrite Hdraw. simpl.
  erewrite IH; [done| | | |exact Hrest].
  - by rewrite !lookup_insert_ne.
  - rewrite !lookup_insert_ne by done. rewrite Hframe; [done|].
    unfold step_writes. rewrite !not_elem_of_cons. repeat split; try done.
    apply not_elem_of_nil.
  - rewrite !lookup_insert_ne by done. rewrite Hframe; [done|].
    unfold step_writes. rewrite !not_elem_of_cons. repeat split; try done.
    apply not_elem_of_nil.
Qed.

(** What [__init__] leaves for the sampling: the generator seeded from the
    seed, the rank and the number of workers; the number of records of the
    converted dataset; the batch size. *)
Lemma init_sampling_state e N sigma_s Us training_batch_size optimizer variational_state
    preconditioner (seed : Z) self :
  QSR.__init__ c0 e (QSR.TDPair N sigma_s Us) training_batch_size optimizer
    variational_state preconditioner (Some seed) = Ok self →
  ∃ d, _convert_data c0 N sigma_s Us = Ok d ∧
    self !! "_rng" = Some (QSR.VRng (default_rng
      (mpi_split (mpi_rank e) (mpi_n_nodes e) (PRNGKey seed)))) ∧
    self !! "_training_samples_n" = Some (QSR.VInt (length (ds_secs d) - 1)) ∧
    self !! "training_batch_size" = Some (QSR.VInt training_batch_size).
Proof.
  unfold QSR.__init__. intros Hinit.
  apply bind_Ok in Hinit as (d & Hd & [= <-]).
  exists d. split; [done|]. by simplify_map_eq.
Qed.

(** C8. Two drivers built from the same seed by workers of the same rank
    among the same number of workers, on the same training data and batch
    size, but with any variational states, optimizers, preconditioners and
    outside entropy: the index arrays their runs sample are the same, step
    after step, and they are the arrays the seeded generator yields. *)
Theorem sampling_reproducible e1 e2 training_data training_batch_size (seed : Z)
    optimizer1 optimizer2 variational_state1 variational_state2
    preconditioner1 preconditioner2 self1 self2 steps tr1 tr2 self1' self2' :
  mpi_rank e1 = mpi_rank e2 → mpi_n_nodes e1 = mpi_n_nodes e2 →
  QSR.__init__ c0 e1 training_data training_batch_size optimizer1 variational_state1
    preconditioner1 (Some seed) = Ok self1 →
  QSR.__init__ c0 e2 training_data training_batch_size optimizer2 variational_state2
    preconditioner2 (Some seed) = Ok self2 →
  QSR.advance c0 steps self1 = Ok (tr1, self1') →
  QSR.advance c0 steps self2 = Ok (tr2, self2') →
  tr1 = tr2 ∧
  ∃ n, self1 !! "_training_samples_n" = Some (QSR.VInt n) ∧
    QSR.draw_trace (default_rng (mpi_split (mpi_rank e1) (mpi_n_nodes e1) (PRNGKey seed)))
      n training_batch_size steps = Ok tr1.
Proof.
  intros Hrank Hnodes Hinit1 Hinit2 Hrun1 Hrun2.
  destruct training_data as [N sigma_s Us|]; [|discriminate].
  apply init_sampling_state in Hinit1 as (d1 & Hd1 & Hg1 & Hn1 & Hs1).
  apply init_sampling_state in Hinit2 as (d2 & Hd2 & Hg2 & Hn2 & Hs2).
  rewrite Hd1 in Hd2. injection Hd2 as <-.
  rewrite <- Hrank, <- Hnodes in Hg2.
  pose proof (advance_trace _ _ _ _ _ _ _ Hg1 Hn1 Hs1 Hrun1) as Ht1.
  pose proof (advance_trace _ _ _ _ _ _ _ Hg2 Hn2 Hs2 Hrun2) as Ht2.
  split; [congruence|]. eauto.
Qed.

End Reproducibility.

(** ** The example driver *)

Lemma example_driver_built : example_driver = Ok example_self.
Proof.
  assert (H : (λ _, tt) <$> example_driver = Ok tt) by (vm_compute; reflexivity).
  unfold example_self. destruct example_driver; [reflexivity|discriminate].
Qed.

Lemma other_driver_built : other_driver = Ok other_self.
Proof.
  assert (H : (λ _, tt) <$> other_driver = Ok tt) by (vm_compute; reflexivity).
  unfold other_self. destruct other_driver; [reflexivity|discriminate].
Qed.

Lemma example_step_result : example_step = Ok (example_dp, example_self').
Proof.
  assert (H : fst <$> example_step = Ok example_dp) by (vm_compute; reflexivity).
  unfold example_self'. destruct example_step as [[dp self']|]; [|discriminate].
  by injection H as ->.
Qed.

Lemma example_identity :
  example_self !! "preconditioner"
  = Some (QSR.VPreconditioner (identity_preconditioner (VState:=scripted_state))).
Proof. vm_compute. reflexivity. Qed.

Lemma mixed_driver_built : mixed_driver = Ok mixed_self.
Proof.
  assert (H : (λ _, tt) <$> mixed_driver = Ok tt) by (vm_compute; reflexivity).
  unfold mixed_self. destruct mixed_driver; [reflexivity|discriminate].
Qed.

Lemma mixed_step_result : mixed_step = Ok (mixed_dp, mixed_self').
Proof.
  assert (H : fst <$> mixed_step = Ok mixed_dp) by (vm_compute; reflexivity).
  unfold mixed_self'. destruct mixed_step as [[dp self']|]; [|discriminate].
  by injection H as ->.
Qed.

Lemma mixed_identity :
  mixed_self !! "preconditioner"
  = Some (QSR.VPreconditioner (identity_preconditioner (VState:=scripted_state))).
Proof. vm_compute. reflexivity. Qed.

Lemma mixed_step_state :
  mixed_self' !! "_variational_state" = Some (QSR.VState_ mixed_state).
Proof. vm_compute. reflexivity. Qed.

Lemma mixed_step_loss_grad :
  mixed_self' !! "_loss_grad" = Some (QSR.VTree mixed_loss_grad).
Proof. vm_compute. reflexivity. Qed.

Lemma example_run :
  ∃ self', QSR.advance amp_zero 3 example_self = Ok (example_trace, self').
Proof.
  assert (H : fst <$> QSR.advance amp_zero 3 example_self = Ok example_trace)
    by (vm_compute; reflexivity).
  destruct (QSR.advance amp_zero 3 example_self) as [[tr self']|]; [|discriminate].
  injection H as ->. eauto.
Qed.

Lemma other_run :
  ∃ self', QSR.advance amp_zero 3 other_self = Ok (example_trace, self').
Proof.
  assert (H : fst <$> QSR.advance amp_zero 3 other_self = Ok example_trace)
    by (vm_compute; reflexivity).
  destruct (QSR.advance amp_zero 3 other_self) as [[tr self']|]; [|discriminate].
  injection H as ->. eauto.
Qed.

(** C6 as stated fails: with the identity preconditioner, a real parameter
    array and a loss gradient [2 − 2i], the update is the real array [2]. *)
Lemma identity_update_differs :
  (self ← example_driver;
   pre ← QSR.getattr self "preconditioner" ≫= QSR.as_preconditioner;
   '(dp, self') ← QSR._forward_and_backward amp_zero self;
   loss_grad ← QSR.getattr self' "_loss_grad";
   Ok (pre example_state example_loss_grad, dp, loss_grad))
  = Ok (Ok example_loss_grad, example_dp, QSR.VTree example_loss_grad) ∧
  tree_lookup ["w"] example_parameters = Some (RealArr [0]) ∧
  tree_lookup ["w"] example_dp = Some (RealArr [2]) ∧
  tree_lookup ["w"] example_loss_grad = Some (ComplexArr [(2, -2)]) ∧
  ¬ leaf_eq (RealArr [2]) (ComplexArr [(2, -2)]).
Proof. split; [vm_compute; reflexivity|]. repeat split. intros [=]. Qed.

(** A step of the driver with a real parameter array [w] and a complex one
    [v], both with a complex loss gradient: the update holds the real parts
    at [w] and the loss gradient itself at [v]. *)
Lemma identity_preconditioner_update_witness :
  tree_lookup ["w"] mixed_loss_grad = Some (ComplexArr [(2, -2)]) ∧
  tree_lookup ["w"] mixed_dp = Some (RealArr [2]) ∧
  tree_lookup ["v"] mixed_loss_grad = Some (ComplexArr [(6, -2)]) ∧
  tree_lookup ["v"] mixed_dp = Some (ComplexArr [(6, -2)]).
Proof.
  destruct (identity_preconditioner_update amp_zero mixed_self mixed_dp mixed_self'
              mixed_identity mixed_step_result)
    as (st & gn & gp & lg & Hst & _ & _ & Hlg & _ & Hdp).
  rewrite mixed_step_state in Hst. injection Hst as <-.
  rewrite mixed_step_loss_grad in Hlg. injection Hlg as <-.
  destruct (Hdp ["w"] (ComplexArr [(2, -2)]) eq_refl) as (tw & Htw & Hw).
  destruct (Hdp ["v"] (ComplexArr [(6, -2)]) eq_refl) as (tv & Htv & Hv).
  injection Htw as <-. injection Htv as <-.
  split; [reflexivity|]. split; [exact Hw|]. split; [reflexivity|]. exact Hv.
Defined.

(** On the same step: the update at the real parameter array [w] is a real
    array with zero imaginary part, and the update at the complex parameter
    array [v] is the complex gradient, imaginary part included. *)
Lemma real_parameters_get_real_updates_witness :
  (∃ u, tree_lookup ["w"] mixed_dp = Some u ∧ u = RealArr [2] ∧ imag_zero u) ∧
  tree_lookup ["v"] mixed_dp = Some (ComplexArr [(6, -2)]).
Proof.
  destruct (real_parameters_get_real_updates amp_zero mixed_self mixed_dp mixed_self'
              mixed_step_result)
    as (st & lg & p & raw & Hst & Hlg & Hp & Hraw & Hall).
  rewrite mixed_step_state in Hst. injection Hst as <-.
  rewrite mixed_step_loss_grad in Hlg. injection Hlg as <-.
  rewrite mixed_identity in Hp. injection Hp as <-.
  injection Hraw as <-.
  destruct (Hall ["w"] (RealArr [0]) eq_refl) as (xw & uw & Hxw & Huw & Hw1 & Hw2).
  destruct (Hall ["v"] (ComplexArr [(0, 0)]) eq_refl) as (xv & uv & Hxv & Huv & Hv).
  injection Hxw as <-. injection Hxv as <-.
  split.
  - exists uw. split; [exact Huw|]. split; [exact Hw1|exact Hw2].
  - rewrite <- Hv. exact Huv.
Defined.

(** [nll] on the example driver, before and after its first step. *)
Lemma nll_before_first_step_witness :
  QSR.nll example_self = Err (AttributeError "_sigma_p") ∧ is_Ok (QSR.nll example_self').
Proof.
  destruct (nll_before_first_step amp_zero example_env example_training_data 3 tt
              example_state identity_preconditioner (Some 42) example_self
              example_driver_built)
    as (Hnll & _ & _ & _ & Hafter).
  split; [exact Hnll|].
  apply (Hafter example_dp example_self' example_step_result).
Defined.

(** Three steps of the two example drivers sample the same index arrays. *)
Lemma sampling_reproducible_witness :
  ∃ n, example_self !! "_training_samples_n" = Some (QSR.VInt n) ∧
    QSR.draw_trace (default_rng (mpi_split 0%nat 1%nat (PRNGKey 42))) n 3 3
    = Ok example_trace.
Proof.
  destruct example_run as [self1' Hrun1]. destruct other_run as [self2' Hrun2].
  destruct (sampling_reproducible amp_zero example_env (mkEnv 0 1 99)
              example_training_data 3 42 tt tt example_state other_state
              identity_preconditioner (λ _ g, Ok g)
              example_self other_self 3 example_trace example_trace self1' self2'
              eq_refl eq_refl example_driver_built other_driver_built Hrun1 Hrun2)
    as [_ Hn].
  exact Hn.
Defined.

(** * Further properties of the code *)

(** ** Rotation operators and the bases cache *)

Section RotationFactors.
Context {Coeff Op : Type} `{!Netket Coeff Op}.

Lemma rotate_sites_factors hi basis : ∀ (localop : Op) j,
  rotate_sites hi localop j basis = apply_factors hi localop (factors_from j basis).
Proof.
  induction basis as [|base rest IH]; intros localop j; [done|].
  cbn [rotate_sites]. rewrite IH. unfold factors_from, rotate_site, label_rotation.
  cbn [length seq zip zip_with omap list_omap fst snd].
  repeat case_decide; simpl; done.
Qed.

Lemma factors_from_sites basis : ∀ j,
  Forall (λ f : rotation * nat, (j ≤ f.2 < j + length basis)%nat) (factors_from j basis).
Proof.
  induction basis as [|base rest IH]; intros j; [constructor|].
  unfold factors_from. cbn [length seq zip zip_with omap list_omap fst snd].
  specialize (IH (S j)). unfold factors_from in IH.
  assert (Hrest : Forall (λ f : rotation * nat, (j ≤ f.2 < j + S (length rest))%nat)
            (omap (λ p : nat * ascii, (λ r, (r, p.1)) <$> label_rotation p.2)
               (zip (seq (S j) (length rest)) rest))).
  { eapply Forall_impl; [exact IH|]. simpl. intros; lia. }
  destruct (label_rotation base); simpl; [constructor; [simpl; lia|]|]; exact Hrest.
Qed.

Lemma string_length_list s : length (String.list_ascii_of_string s) = String.length s.
Proof. induction s; simpl; congruence. Qed.

Lemma factors_from_none basis : ∀ j,
  Forall (λ base, base ≠ "X"%char ∧ base ≠ "Y"%char) basis → factors_from j basis = [].
Proof.
  intros j Hnone. revert j.
  induction Hnone as [|base rest [HX HY] _ IH]; intros j; [done|].
  unfold factors_from. cbn [length seq zip zip_with omap list_omap fst snd].
  unfold label_rotation at 1. rewrite !decide_False by done. simpl.
  apply IH.
Qed.

Lemma rotation_of_none hi basis :
  Forall (λ base, base ≠ "X"%char ∧ base ≠ "Y"%char) (String.list_ascii_of_string basis) →
  rotation_of hi basis = LocalOperator_constant hi.
Proof.
  intros Hnone. unfold rotation_of. by rewrite rotate_sites_factors, factors_from_none.
Qed.

(** X1. The operator [_build_rotation] returns is the identity operator
    multiplied, in the order of the sites, by one single-site rotation for
    every site labelled ["X"] or ["Y"]; every such site lies inside the
    system, and any other label contributes no factor. *)
Theorem build_rotation_product (hi : nat) (basis : string) (U : Op) :
  _build_rotation hi basis = Ok U →
  U = apply_factors hi (LocalOperator_constant hi) (rotation_factors basis) ∧
  Forall (λ f : rotation * nat, (f.2 < hi)%nat) (rotation_factors basis) ∧
  (Forall (λ base, base ≠ "X"%char ∧ base ≠ "Y"%char) (String.list_ascii_of_string basis) →
   U = LocalOperator_constant hi).
Proof.
  unfold _build_rotation. case_decide as Hlen; [|discriminate].
  intros [= <-]. split; [apply rotate_sites_factors|]. split.
  - unfold rotation_factors. eapply Forall_impl; [apply factors_from_sites|].
    simpl. intros f Hf. rewrite string_length_list in Hf. lia.
  - intros Hnone. by rewrite rotate_sites_factors, factors_from_none.
Qed.

Lemma build_bases_strings hilbert (strs : list string) : ∀ _cache : gmap string Op,
  (∀ s U, _cache !! s = Some U → String.length s = hilbert ∧ U = rotation_of hilbert s) →
  build_bases hilbert _cache (BStr <$> strs) =
    if decide (Forall (λ s, String.length s = hilbert) strs)
    then Ok ((λ s, BOp (rotation_of hilbert s)) <$> strs)
    else Err AssertionError.
Proof.
  induction strs as [|s strs IH]; intros _cache Hcache.
  { destruct (decide (Forall (λ s, String.length s = hilbert) [])) as [|Hn]; [done|].
    destruct Hn. constructor. }
  cbn [fmap list_fmap build_bases].
  destruct (_cache !! s) as [U|] eqn:Hs.
  - apply Hcache in Hs as [Hlen ->]. rewrite IH by done.
    destruct (decide (Forall (λ s, String.length s = hilbert) strs)) as [Hall|Hall];
      destruct (decide (Forall (λ s, String.length s = hilbert) (s :: strs)))
        as [Hall'|Hall']; try done.
    + destruct Hall'. by constructor.
    + apply Forall_cons in Hall' as [_ ?]. done.
  - unfold _build_rotation. destruct (decide (String.length s = hilbert)) as [Hlen|Hlen].
    + cbn [mbind res_bind]. rewrite IH.
      * destruct (decide (Forall (λ s, String.length s = hilbert) strs)) as [Hall|Hall];
          destruct (decide (Forall (λ s, String.length s = hilbert) (s :: strs)))
            as [Hall'|Hall']; try done.
        -- destruct Hall'. by constructor.
        -- apply Forall_cons in Hall' as [_ ?]. done.
      * intros s' U'. destruct (decide (s = s')) as [<-|Hne].
        -- rewrite lookup_insert_eq. by intros [= <-].
        -- rewrite lookup_insert_ne by done. apply Hcache.
    + destruct (decide (Forall (λ s, String.length s = hilbert) (s :: strs)))
        as [Hall'|Hall']; [|done].
      apply Forall_cons in Hall' as [? _]. done.
Qed.

(** X2. For a list of label strings, [_check_bases_type] returns, entry by
    entry, the operator [_build_rotation] builds for that string on a system
    of as many sites as the first string has labels, so that the cache
    changes nothing and equal strings give equal operators; it fails, with
    the assertion error of [_build_rotation], exactly when some string's
    length differs from the first one's. *)
Theorem check_bases_type_strings (s0 : string) (rest : list string) :
  _check_bases_type (Op:=Op) (BasesSeq (BStr <$> s0 :: rest)) =
    if decide (Forall (λ s, String.length s = String.length s0) rest)
    then Ok ((λ s, BOp (rotation_of (String.length s0) s)) <$> s0 :: rest)
    else Err AssertionError.
Proof.
  trans (build_bases (String.length s0) ∅ (@BStr Op <$> s0 :: rest)); [done|].
  rewrite build_bases_strings by (intros s U; by rewrite lookup_empty).
  destruct (decide (Forall (λ s, String.length s = String.length s0) rest)) as [Hall|Hall];
    destruct (decide (Forall (λ s, String.length s = String.length s0) (s0 :: rest)))
      as [Hall'|Hall']; try done.
  - destruct Hall'. by constructor.
  - apply Forall_cons in Hall' as [_ ?]. done.
Qed.

End RotationFactors.

(** The rotation of ["XZY"] on three sites. *)
Lemma build_rotation_product_witness :
  _build_rotation (Op:=sym_op) 3 "XZY" = Ok (mkSym 3 [(U_X, 0%nat); (U_Y, 2%nat)]) ∧
  mkSym 3 [(U_X, 0%nat); (U_Y, 2%nat)]
    = apply_factors 3 (LocalOperator_constant 3) (rotation_factors "XZY").
Proof.
  split; [reflexivity|].
  apply (build_rotation_product 3 "XZY" (mkSym 3 [(U_X, 0%nat); (U_Y, 2%nat)])).
  reflexivity.
Defined.

(** ** What the converted arrays hold *)

Lemma py_fillslice_padding {A} (a : list A) (M : nat) (x : A) (s : Z) :
  length a ≤ py_clip (length a + M)%nat s →
  py_fillslice (a ++ replicate M x) s None x = a ++ replicate M x.
Proof.
  intros Hs. unfold py_fillslice, py_stop.
  rewrite length_app, length_replicate.
  pose proof (py_clip_range (length a + M)%nat s ltac:(lia)) as Hr.
  set (c := py_clip (length a + M)%nat s) in *.
  rewrite take_app_ge by lia. rewrite take_replicate.
  rewrite drop_ge by (rewrite length_app, length_replicate; lia).
  rewrite app_nil_r, <- app_assoc, <- replicate_add. do 2 f_equal. lia.
Qed.

Lemma py_setslice_append {A} (l : list A) (n : nat) (z : A) (v : list A) :
  py_setslice (l ++ replicate n z) (length l) None v =
    if decide (length v = n) then Ok (l ++ v)
    else match v with [x] => Ok (l ++ replicate n x) | _ => Err ValueError end.
Proof.
  unfold py_setslice, py_fillslice, py_stop.
  rewrite length_app, length_replicate.
  rewrite py_clip_in by lia.
  replace (Z.to_nat ((length l + n)%nat - length l)) with n by lia.
  rewrite Nat2Z.id, take_app_length.
  rewrite drop_ge by (rewrite length_app, length_replicate; lia).
  case_decide; [by rewrite app_nil_r|].
  destruct v as [|x [|]]; try done. by rewrite app_nil_r.
Qed.

Lemma length_mjoin_Zsum {A} (ls : list (list A)) :
  (length (mjoin ls) : Z) = Zsum ((λ x, Z.of_nat (length x)) <$> ls).
Proof.
  unfold Zsum. induction ls as [|x ls IH]; [done|].
  cbn [mjoin list_join fmap list_fmap foldr]. rewrite length_app, Nat2Z.inj_add.
  f_equal. exact IH.
Qed.

(** Slicing a concatenation at the prefix sums of the lengths of its pieces
    gives the pieces back. *)
Lemma segment_mjoin {A} (ls : list (list A)) (rest : list A) (i : nat) (x : list A) :
  ls !! i = Some x →
  let lens := (λ x, Z.of_nat (length x)) <$> ls in
  py_slice (mjoin ls ++ rest) (Zsum (take i lens)) (Some (Zsum (take (S i) lens))) = x.
Proof.
  intros Hx lens.
  assert (Hlx : lens !! i = Some (Z.of_nat (length x))).
  { unfold lens. by rewrite list_lookup_fmap, Hx. }
  rewrite (Zsum_take_S _ _ _ Hlx).
  assert (Hpre : Zsum (take i lens) = length (mjoin (take i ls))).
  { rewrite length_mjoin_Zsum. unfold lens. by rewrite fmap_take. }
  assert (Hsplit : mjoin ls = mjoin (take i ls) ++ x ++ mjoin (drop (S i) ls)).
  { rewrite <- (take_drop_middle ls i x Hx) at 1.
    rewrite join_app. simpl. done. }
  rewrite py_slice_in.
  - rewrite Hpre, Nat2Z.id. rewrite Hsplit, <- !app_assoc.
    rewrite drop_app_length.
    replace (Z.to_nat (length (mjoin (take i ls)) + length x - length (mjoin (take i ls))))
      with (length x) by lia.
    apply take_app_length.
  - lia.
  - rewrite Hpre, Hsplit, !length_app. lia.
Qed.

Section ConversionContents.
Context {Coeff Op : Type} `{!Netket Coeff Op}.
Variable c0 : Coeff.

Lemma conn_mels_count sigma (U : Base Op) :
  Z.of_nat (length (conn_mels sigma U)) = conn_count sigma U.
Proof. by destruct U. Qed.

Lemma record_counts_mels sigma_s (Us : list (Base Op)) :
  record_counts sigma_s Us = (λ x, Z.of_nat (length x)) <$> zip_with conn_mels sigma_s Us.
Proof.
  unfold record_counts. revert Us.
  induction sigma_s as [|s ss IH]; intros [|U Us]; simpl; try done.
  by rewrite conn_mels_count, IH.
Qed.

Lemma record_counts_stored (U0 : Op) sigma_s (Us : list (Base Op)) :
  record_counts sigma_s Us
  = (λ x, Z.of_nat (length x)) <$> zip_with (stored_mels U0) sigma_s Us.
Proof.
  unfold record_counts, stored_mels. revert Us.
  induction sigma_s as [|s ss IH]; intros [|U Us]; simpl; try done.
  by rewrite length_fmap, conn_mels_count, IH.
Qed.

Lemma conn_rows_length sigma (U : Base Op) :
  record_ok (sigma, U) → length (conn_rows sigma U) = length (conn_mels sigma U).
Proof.
  unfold record_ok, conn_rows, conn_mels. simpl. destruct U as [U| |]; try done.
  destruct (get_conn U sigma) as [sp m]. simpl.
  case_decide; [done|]. intros [?|Hone]; [done|].
  destruct sp as [|x [|]]; simpl in Hone; try lia. by rewrite length_replicate.
Qed.

(** One iteration: it returns exactly on the records the loop can process,
    and then appends what [get_conn] returned to both arrays, the
    coefficients cast to the dtype of [U0]. *)
Lemma convert_step_content N (U0 : Op) (i : nat) sigma U (st : conv_state Coeff) :
  conv_wf st →
  (record_ok (sigma, U) ∧ (i < length (cv_secs st))%nat ↔
     is_Ok (convert_step c0 N U0 i sigma U st)) ∧
  ∀ st', convert_step c0 N U0 i sigma U st = Ok st' →
    cv_mels st' = cv_mels st ++ stored_mels U0 sigma U ∧
    cv_sigma_p st' = cv_sigma_p st ++ conn_rows sigma U.
Proof.
  intros (Hpos & HM & Hsp & Hm).
  unfold record_ok, conn_rows, stored_mels, conn_mels, convert_step. simpl.
  destruct U as [U| |]; try (split; [split; [tauto|intros [? ?]; discriminate]
                                    |intros; discriminate]).
  destruct (get_conn U sigma) as [sigma_p_i mels_i]. simpl.
  unfold np_resize.
  destruct (Z.ltb_spec (cv_last_i st + length mels_i) 0); [lia|].
  rewrite !take_ge by lia. cbn [mbind res_bind].
  replace (Z.to_nat (cv_last_i st + length mels_i) - length (cv_sigma_p st))%nat
    with (length mels_i) by lia.
  replace (Z.to_nat (cv_last_i st + length mels_i) - length (cv_mels st))%nat
    with (length mels_i) by lia.
  assert (Hs1 : ∀ v : list Config,
            py_setslice (cv_sigma_p st ++ replicate (length mels_i) (replicate N 0))
              (cv_last_i st) None v
            = if decide (length v = length mels_i) then Ok (cv_sigma_p st ++ v)
              else match v with
                   | [x] => Ok (cv_sigma_p st ++ replicate (length mels_i) x)
                   | _ => Err ValueError
                   end).
  { intros v. rewrite <- Hsp. apply py_setslice_append. }
  assert (Hs2 : py_setslice (cv_mels st ++ replicate (length mels_i) c0)
              (cv_last_i st) None (astype U0 <$> mels_i)
              = Ok (cv_mels st ++ (astype U0 <$> mels_i))).
  { rewrite <- Hm, py_setslice_append. by rewrite decide_True by apply length_fmap. }
  rewrite !Hs1, !Hs2. clear Hs1 Hs2.
  cbn [mbind res_bind].
  assert (Hset : (i < length (cv_secs st))%nat →
            py_setitem (cv_secs st) i (cv_last_i st) = Ok (<[i := cv_last_i st]> (cv_secs st))).
  { intros Hi. unfold py_setitem. destruct (Z.ltb_spec i 0); [lia|].
    destruct (Z.leb_spec 0 i), (Z.ltb_spec i (length (cv_secs st))); try lia.
    simpl. by rewrite Nat2Z.id. }
  assert (Hset' : ∀ secs, py_setitem (cv_secs st) i (cv_last_i st) = Ok secs →
            (i < length (cv_secs st))%nat).
  { intros secs Hs. by apply py_setitem_Ok in Hs as [? _]. }
  case_decide as Hlen.
  - cbn [mbind res_bind]. split.
    + split.
      * intros [_ Hi]. rewrite (Hset Hi). by eexists.
      * intros [st' Hst']. apply bind_Ok in Hst' as (secs & Hs & _). eauto.
    + intros st' Hst'. apply bind_Ok in Hst' as (secs & _ & [= <-]). done.
  - destruct sigma_p_i as [|x [|y rest]]; cbn [mbind res_bind].
    + split; [split; [by intros [[?|?] _]|intros [? ?]; discriminate]
             |intros; discriminate].
    + split.
      * split.
        -- intros [_ Hi]. rewrite (Hset Hi). by eexists.
        -- intros [st' Hst']. apply bind_Ok in Hst' as (secs & Hs & _). eauto.
      * intros st' Hst'. apply bind_Ok in Hst' as (secs & _ & [= <-]). done.
    + split; [split; [by intros [[?|?] _]|intros [? ?]; discriminate]
             |intros; discriminate].
Qed.

Lemma convert_loop_content N (U0 : Op) sigma_s : ∀ Us (i : nat) (st : conv_state Coeff),
  conv_wf st → (i + length (zip sigma_s Us) ≤ length (cv_secs st))%nat →
  (Forall record_ok (zip sigma_s Us) ↔ is_Ok (convert_loop c0 N U0 i sigma_s Us st)) ∧
  ∀ st', convert_loop c0 N U0 i sigma_s Us st = Ok st' →
    cv_mels st' = cv_mels st ++ mjoin (zip_with (stored_mels U0) sigma_s Us) ∧
    cv_sigma_p st' = cv_sigma_p st ++ mjoin (zip_with conn_rows sigma_s Us).
Proof.
  induction sigma_s as [|sigma ss IH]; intros Us i st Hwf Hi.
  { simpl. split; [split; [by eexists|constructor]|].
    intros st' [= <-]. by rewrite !app_nil_r. }
  destruct Us as [|U Us].
  { simpl. split; [split; [by eexists|constructor]|].
    intros st' [= <-]. by rewrite !app_nil_r. }
  cbn [zip zip_with length] in Hi.
  destruct (convert_step_content N U0 i sigma U st Hwf) as [Hok Hcontent].
  cbn [zip zip_with convert_loop mjoin list_join].
  destruct (convert_step c0 N U0 i sigma U st) as [st1|e] eqn:Hstep.
  - destruct (convert_step_spec c0 _ _ _ _ _ _ _ Hstep Hwf) as (Hwf1 & _ & _ & Hsecs & _).
    destruct (Hcontent st1 eq_refl) as [Hm1 Hsp1].
    assert (Hi1 : (S i + length (zip ss Us) ≤ length (cv_secs st1))%nat).
    { rewrite Hsecs, length_insert. lia. }
    destruct (IH Us (S i) st1 Hwf1 Hi1) as [Hiff Hrest].
    cbn [mbind res_bind]. split.
    + rewrite Forall_cons, <- Hiff.
      assert (record_ok (sigma, U)) by (apply Hok; by eexists). tauto.
    + intros st' Hst'. destruct (Hrest st' Hst') as [-> ->].
      rewrite Hm1, Hsp1, <- !app_assoc. done.
  - cbn [mbind res_bind]. split.
    + split; [|intros [? ?]; discriminate].
      intros [Hr _]%Forall_cons.
      assert (is_Ok (Err (A:=conv_state Coeff) e)) as [? ?]; [|discriminate].
      apply Hok. split; [done|lia].
    + intros; discriminate.
Qed.

(** The two flat arrays [_convert_data] returns, and the records it visited. *)
Lemma convert_data_arrays N sigma_s (l : list (Base Op)) d :
  _convert_data c0 N sigma_s (BasesSeq l) = Ok d →
  ∃ U0 rest, _check_bases_type (BasesSeq l) = Ok (BOp U0 :: rest) ∧
    N ≠ 0%nat ∧
    ds_mels d = mjoin (zip_with (stored_mels U0) sigma_s (BOp U0 :: rest))
                  ++ replicate (Z.to_nat (ds_max_len d)) c0 ∧
    ds_sigma_p d = mjoin (zip_with conn_rows sigma_s (BOp U0 :: rest))
                  ++ replicate (Z.to_nat (ds_max_len d)) (replicate N 0) ∧
    Forall record_ok (zip sigma_s (BOp U0 :: rest)).
Proof.
  intros Hc. pose proof Hc as Hc'. unfold _convert_data in Hc.
  apply bind_Ok in Hc as (bases & Hbases & Hc).
  case_decide as HN; [discriminate|].
  apply bind_Ok in Hc as (U0 & HU0 & Hc).
  destruct bases as [|[U| |] rest]; try discriminate. injection HU0 as ->.
  exists U0, rest. split; [done|]. split; [done|].
  set (bases := BOp U0 :: rest) in *.
  apply bind_Ok in Hc as (st & Hloop & Hc).
  apply bind_Ok in Hc as (sp & Hsp & Hc).
  apply bind_Ok in Hc as (m & Hm & Hc).
  apply bind_Ok in Hc as (secs & Hsecs & Hc).
  injection Hc as <-. cbn [ds_mels ds_sigma_p ds_max_len].
  set (st0 := mkConv _ _ _ _ _ _) in Hloop.
  assert (Hwf0 : conv_wf st0) by (unfold conv_wf; simpl; lia).
  assert (Hi0 : (0 + length (zip sigma_s bases) ≤ length (cv_secs st0))%nat).
  { unfold st0. cbn [cv_secs]. rewrite length_replicate.
    rewrite length_zip_with. lia. }
  destruct (convert_loop_content N U0 sigma_s bases 0 st0 Hwf0 Hi0) as [Hiff Hcontent].
  destruct (Hcontent st Hloop) as [Hmels Hrows]. simpl in Hmels, Hrows.
  destruct (convert_loop_spec c0 _ _ _ _ _ _ _ Hloop Hwf0)
    as ((Hpos & HMpos & Hlsp & Hlm) & Hlast & _ & _ & _ & HMax & HNc0 & HNc').
  simpl in Hlast.
  assert (HNc : mjoin (zip_with (stored_mels U0) sigma_s bases) = [] ∨ 0 ≤ cv_Nc st).
  { destruct (decide (record_counts sigma_s bases = [])) as [Hnil|Hne].
    - left. rewrite (record_counts_stored U0) in Hnil. apply fmap_nil_inv in Hnil.
      by rewrite Hnil.
    - right. specialize (HNc' Hne). apply last_Some_elem_of in HNc'.
      pose proof (record_counts_nonneg sigma_s bases) as Hnn.
      rewrite Forall_forall in Hnn. by apply Hnn. }
  assert (Hclip : ∀ (a : list Z) (n : nat),
            Z.of_nat n = cv_last_i st → (n = 0%nat ∨ 0 ≤ cv_Nc st) →
            n ≤ py_clip (n + Z.to_nat (cv_MAX_LEN st))%nat (cv_last_i st + cv_Nc st)).
  { intros _ n Hn Hor. unfold py_clip.
    destruct (Z.ltb_spec (cv_last_i st + cv_Nc st) 0); lia. }
  apply np_resize_grow in Hsp; [|lia]. apply np_resize_grow in Hm; [|lia].
  replace (Z.to_nat (cv_last_i st + cv_MAX_LEN st) - length (cv_sigma_p st))%nat
    with (Z.to_nat (cv_MAX_LEN st)) in Hsp by lia.
  replace (Z.to_nat (cv_last_i st + cv_MAX_LEN st) - length (cv_mels st))%nat
    with (Z.to_nat (cv_MAX_LEN st)) in Hm by lia.
  subst sp m. rewrite Hmels, Hrows in *.
  assert (Hrl : length (mjoin (zip_with conn_rows sigma_s bases)) = 0%nat ∨ 0 ≤ cv_Nc st).
  { destruct HNc as [Hnil|?]; [left|by right]. rewrite Hnil in Hlm. simpl in Hlm. lia. }
  assert (Hml : length (mjoin (zip_with (stored_mels U0) sigma_s bases)) = 0%nat
                ∨ 0 ≤ cv_Nc st).
  { destruct HNc as [Hnil|?]; [left|by right]. by rewrite Hnil. }
  split; [|split].
  - apply py_fillslice_padding. apply (Hclip []); [lia|done].
  - apply py_fillslice_padding. apply (Hclip []); [lia|done].
  - apply Hiff. by eexists.
Qed.

(** X3. When [_convert_data] returns, the accepted bases start with an
    operator [U0], and the coefficient array is the concatenation, in record
    order, of the coefficients [get_conn] returned for each record that has
    a basis, each cast to the dtype of [U0], with which the array was
    created, followed by [MAX_LEN] zeros; the configuration array is the
    concatenation of the connected configurations followed by [MAX_LEN] rows
    of zeros. *)
Theorem convert_data_contents N sigma_s (l : list (Base Op)) d :
  _convert_data c0 N sigma_s (BasesSeq l) = Ok d →
  ∃ U0 rest, _check_bases_type (BasesSeq l) = Ok (BOp U0 :: rest) ∧
    ds_mels d = mjoin (zip_with (λ sigma U, astype U0 <$> conn_mels sigma U)
                                sigma_s (BOp U0 :: rest))
                  ++ replicate (Z.to_nat (ds_max_len d)) c0 ∧
    ds_sigma_p d = mjoin (zip_with conn_rows sigma_s (BOp U0 :: rest))
                  ++ replicate (Z.to_nat (ds_max_len d)) (replicate N 0).
Proof.
  intros Hc.
  destruct (convert_data_arrays _ _ _ _ Hc) as (U0 & rest & Hb & _ & Hmels & Hrows & _).
  exists U0, rest. split; [done|]. split; [exact Hmels|exact Hrows].
Qed.

(** X4. For a converted dataset with a basis for every sample, slicing the
    two flat arrays between consecutive offsets gives back, for every
    record, the coefficients [get_conn] returned for it, cast to the dtype
    of the first basis, and the connected configurations. *)
Theorem convert_data_record_segment N sigma_s (l : list (Base Op)) d (i : nat) sigma :
  (length sigma_s ≤ length l)%nat →
  _convert_data c0 N sigma_s (BasesSeq l) = Ok d →
  sigma_s !! i = Some sigma →
  ∃ U0 U a b,
    (_check_bases_type (BasesSeq l) ≫= λ bases, Ok (bases !! 0%nat, bases !! i))
      = Ok (Some (BOp U0), Some (BOp U)) ∧
    ds_secs d !! i = Some a ∧ ds_secs d !! S i = Some b ∧
    py_slice (ds_mels d) a (Some b) = astype U0 <$> (get_conn U sigma).2 ∧
    (length (get_conn U sigma).1 = length (get_conn U sigma).2 →
     py_slice (ds_sigma_p d) a (Some b) = (get_conn U sigma).1).
Proof.
  intros Hlen Hc Hsigma.
  destruct (convert_data_arrays _ _ _ _ Hc) as (U0 & rest & Hb & _ & Hmels & Hrows & Hok).
  destruct (convert_data_shape c0 _ _ _ _ Hc)
    as (bases' & Hb' & Hbl & Hsl & Hseg & _ & Hfin & _).
  rewrite Hb in Hb'. injection Hb' as <-. cbv zeta in *.
  set (bases := BOp U0 :: rest) in *.
  pose proof (record_counts_length sigma_s bases) as Hcl.
  pose proof (lookup_lt_Some _ _ _ Hsigma) as Hi.
  destruct (lookup_lt_is_Some_2 bases i) as [B HB]; [lia|].
  assert (Hrec : record_ok (sigma, B)).
  { rewrite Forall_forall in Hok. apply Hok.
    apply (list_elem_of_lookup_2 _ i).
    by rewrite lookup_zip_with, Hsigma; simpl; rewrite HB. }
  destruct B as [U| |]; try done.
  assert (Hall : ∀ k : nat, (k ≤ length sigma_s)%nat →
                 ds_secs d !! k = Some (Zsum (take k (record_counts sigma_s bases)))).
  { intros k Hk. destruct (decide (k = length sigma_s)) as [->|].
    - rewrite Hfin, take_ge by lia. done.
    - apply Hseg. lia. }
  exists U0, U, (Zsum (take i (record_counts sigma_s bases))),
    (Zsum (take (S i) (record_counts sigma_s bases))).
  rewrite Hb. cbn [mbind res_bind]. fold bases. rewrite HB.
  split; [done|]. split; [apply Hall; lia|]. split; [apply Hall; lia|].
  split.
  - rewrite Hmels, (record_counts_stored U0).
    apply (segment_mjoin (zip_with (stored_mels U0) sigma_s bases)).
    by rewrite lookup_zip_with, Hsigma; simpl; rewrite HB.
  - intros Heq. rewrite Hrows, record_counts_mels.
    assert (Hlens : ∀ (ss : list Config) (bs : list (Base Op)),
              Forall record_ok (zip ss bs) →
              (λ x : list Coeff, Z.of_nat (length x)) <$> zip_with conn_mels ss bs
              = (λ x : list Config, Z.of_nat (length x)) <$> zip_with conn_rows ss bs).
    { clear. induction ss as [|s ss IH]; intros [|B bs] Hok; simpl; try done.
      apply Forall_cons in Hok as [Hr Hok].
      rewrite (conn_rows_length _ _ Hr). f_equal. by apply IH. }
    rewrite (Hlens _ _ Hok).
    rewrite (segment_mjoin (zip_with conn_rows sigma_s bases) _ i (get_conn U sigma).1);
      [done|].
    rewrite lookup_zip_with, Hsigma; simpl; rewrite HB. simpl.
    unfold conn_rows. destruct (get_conn U sigma) as [sp m]. simpl in *.
    by rewrite decide_True.
Qed.

(** The conversion returns once the bases are accepted, the rows have a
    column and every visited record can be processed. *)
Lemma convert_data_returns N sigma_s (l : list (Base Op)) (U0 : Op) (rest : list (Base Op)) :
  N ≠ 0%nat →
  _check_bases_type (BasesSeq l) = Ok (BOp U0 :: rest) →
  Forall record_ok (zip sigma_s (BOp U0 :: rest)) →
  is_Ok (_convert_data c0 N sigma_s (BasesSeq l)).
Proof.
  intros HN Hb Hok. unfold _convert_data. rewrite Hb.
  cbn [mbind res_bind]. rewrite decide_False by done. cbn [mbind res_bind].
  set (st0 := mkConv _ _ _ _ _ _).
  assert (Hwf0 : conv_wf st0) by (unfold conv_wf; simpl; lia).
  assert (Hi0 : (0 + length (zip sigma_s (BOp U0 :: rest)) ≤ length (cv_secs st0))%nat).
  { unfold st0. cbn [cv_secs]. rewrite length_replicate.
    rewrite length_zip_with. lia. }
  destruct (convert_loop_content N U0 sigma_s (BOp U0 :: rest) 0 st0 Hwf0 Hi0) as [Hiff _].
  destruct (proj1 Hiff Hok) as [st Hloop]. rewrite Hloop. cbn [mbind res_bind].
  destruct (convert_loop_spec c0 _ _ _ _ _ _ _ Hloop Hwf0)
    as ((Hpos & HMpos & Hlsp & Hlm) & _ & Hlen & _).
  unfold np_resize. destruct (Z.ltb_spec (cv_last_i st + cv_MAX_LEN st) 0); [lia|].
  cbn [mbind res_bind]. unfold py_setitem.
  simpl in Hlen. rewrite length_replicate in Hlen.
  destruct (Z.ltb_spec (-1) 0); [|lia].
  destruct (Z.leb_spec 0 (-1 + length (cv_secs st))),
    (Z.ltb_spec (-1 + length (cv_secs st)) (length (cv_secs st))); try lia.
  simpl. by eexists.
Qed.

(** X5. For a list of operators and samples given by their [N]-column
    rows, [_convert_data] returns exactly when the rows have at least one
    column and every record the loop visits, a sample paired with its
    basis, has an operator as basis for which [get_conn] gives one
    configuration per coefficient or a single configuration; samples or
    bases beyond the shorter of the two sequences play no part. *)
Theorem convert_data_succeeds_iff N sigma_s (U0 : Op) (rest : list (Base Op)) :
  is_Ok (_convert_data c0 N sigma_s (BasesSeq (BOp U0 :: rest)))
  ↔ N ≠ 0%nat ∧ Forall record_ok (zip sigma_s (BOp U0 :: rest)).
Proof.
  split.
  - intros [d Hd].
    destruct (convert_data_arrays _ _ _ _ Hd) as (U0' & rest' & Hb & HN & _ & _ & Hok).
    simpl in Hb. injection Hb as <- <-. done.
  - intros [HN Hok]. by eapply convert_data_returns.
Qed.

Lemma zip_with_const_bases {B} (g : Config → Base Op → B) (U : Base Op) sigma_s :
  ∀ bases : list (Base Op),
  Forall (λ b, b = U) bases → (length sigma_s ≤ length bases)%nat →
  zip_with g sigma_s bases = (λ sigma, g sigma U) <$> sigma_s.
Proof.
  induction sigma_s as [|sigma ss IH]; intros [|b bases] Hall Hlen; simpl in *;
    try done; try lia.
  apply Forall_cons in Hall as [-> Hall]. f_equal. apply IH; [done|lia].
Qed.

(** X6. Samples measured in the computational basis come back unchanged.
    For a non-empty list of samples of at least one site, with at least as
    many label strings as samples, every label string of the length of the
    first and without ["X"] or ["Y"]: when the identity operator of NetKet
    connects every configuration to itself alone, with a coefficient [one]
    that the cast to the operator's dtype leaves as it is, the conversion
    returns the samples themselves followed by one row of zeros, one
    coefficient [one] per sample followed by one zero, the offsets
    [0, 1, ..., Nb] and [MAX_LEN = 1]. *)
Theorem convert_identity_round_trip N (sigma_s : list Config) (s0 : string)
    (rest : list string) (one : Coeff) :
  N ≠ 0%nat →
  (∀ sigma, get_conn (LocalOperator_constant (String.length s0)) sigma = ([sigma], [one])) →
  astype (LocalOperator_constant (String.length s0)) one = one →
  Forall (λ s, String.length s = String.length s0 ∧
               Forall (λ base, base ≠ "X"%char ∧ base ≠ "Y"%char)
                      (String.list_ascii_of_string s)) (s0 :: rest) →
  sigma_s ≠ [] → (length sigma_s ≤ S (length rest))%nat →
  _convert_data c0 N sigma_s (BasesSeq (BStr <$> s0 :: rest))
  = Ok (mkDataset (sigma_s ++ [replicate N 0]) (replicate (length sigma_s) one ++ [c0])
                  (jnp_arange (S (length sigma_s))) 1).
Proof.
  intros HN Hid Hcast Hstrs Hne Hlen.
  set (hi := String.length s0) in *.
  set (I := LocalOperator_constant hi) in *.
  set (bases := (λ _ : string, @BOp Op I) <$> s0 :: rest).
  assert (Hb : _check_bases_type (Op:=Op) (BasesSeq (BStr <$> s0 :: rest)) = Ok bases).
  { trans (build_bases hi ∅ (@BStr Op <$> s0 :: rest)); [done|].
    rewrite build_bases_strings by (intros s U; by rewrite lookup_empty).
    rewrite decide_True by (eapply Forall_impl; [exact Hstrs|]; by intros s [? _]).
    f_equal. apply Forall_fmap_ext_1. eapply Forall_impl; [exact Hstrs|].
    intros s [_ Hnone]. simpl. f_equal. by apply rotation_of_none. }
  assert (Hall : Forall (λ b, b = BOp I) bases).
  { unfold bases. apply Forall_fmap, Forall_true. done. }
  assert (Hbl : length bases = S (length rest)) by (unfold bases; by rewrite length_fmap).
  assert (Hmels : zip_with (stored_mels I) sigma_s bases = (λ _, [one]) <$> sigma_s).
  { rewrite (zip_with_const_bases _ (BOp I)) by (done || lia).
    apply list_fmap_ext. intros _ sigma _. unfold stored_mels, conn_mels.
    rewrite Hid. simpl. by rewrite Hcast. }
  assert (Hrows : zip_with conn_rows sigma_s bases = (λ sigma, [sigma]) <$> sigma_s).
  { rewrite (zip_with_const_bases _ (BOp I)) by (done || lia).
    apply list_fmap_ext. intros _ sigma _. unfold conn_rows. by rewrite Hid. }
  assert (Hcounts : record_counts sigma_s bases = (λ _, 1) <$> sigma_s).
  { unfold record_counts. rewrite (zip_with_const_bases _ (BOp I)) by (done || lia).
    apply list_fmap_ext. intros _ sigma _. unfold conn_count. by rewrite Hid. }
  assert (Hok : Forall record_ok (zip sigma_s bases)).
  { apply Forall_forall. intros [sigma B] Hin. apply elem_of_zip_r in Hin.
    rewrite Forall_forall in Hall. rewrite (Hall B Hin).
    unfold record_ok. simpl. rewrite Hid. by left. }
  destruct (convert_data_returns N sigma_s _ I (list_fmap _ _ (λ _ : string, BOp I) rest)
              HN Hb Hok) as [d Hd].
  destruct (convert_data_arrays _ _ _ _ Hd) as (U0' & rest' & Hb' & _ & Hm & Hr & _).
  rewrite Hb in Hb'. injection Hb' as <- <-.
  change (BOp I :: list_fmap string (Base Op) (λ _ : string, BOp I) rest)
    with bases in Hm, Hr.
  destruct (convert_data_shape c0 _ _ _ _ Hd)
    as (bases' & Hb' & _ & Hsl & Hseg & _ & Hfin & HM & _).
  rewrite Hb in Hb'. injection Hb' as <-. cbv zeta in *.
  rewrite Hcounts in Hseg, Hfin, HM. rewrite length_fmap in Hseg.
  assert (Hsum : ∀ (l : list Config) (i : nat), (i ≤ length l)%nat →
            Zsum (take i ((λ _, 1) <$> l)) = i).
  { clear. induction l as [|x l IH]; intros [|i] Hi; simpl in *; try lia.
    rewrite IH by lia. lia. }
  assert (HM1 : ds_max_len d = 1).
  { rewrite HM. destruct sigma_s as [|sigma ss]; [done|]. clear.
    simpl. induction ss as [|x l IH]; simpl in *; lia. }
  rewrite HM1 in Hm, Hr.
  rewrite Hd. f_equal. destruct d as [sp m secs M].
  cbn [ds_mels ds_sigma_p ds_secs ds_max_len] in *. subst M.
  f_equal.
  - rewrite Hr, Hrows. f_equal. clear.
    induction sigma_s as [|x l IH]; [done|].
    cbn [fmap list_fmap mjoin list_join app]. f_equal. exact IH.
  - rewrite Hm, Hmels. f_equal. clear.
    induction sigma_s as [|x l IH]; [done|].
    cbn [fmap list_fmap mjoin list_join app length replicate]. f_equal. exact IH.
  - apply list_eq. intros i.
    destruct (decide (i < length sigma_s)%nat) as [Hi|Hi].
    + rewrite Hseg, Hsum, jnp_arange_lookup by lia. done.
    + destruct (decide (i = length sigma_s)) as [->|Hne'].
      * rewrite Hfin, jnp_arange_lookup by lia.
        rewrite <- (take_ge ((λ _, 1) <$> sigma_s) (length sigma_s))
          by (rewrite length_fmap; lia).
        by rewrite Hsum.
      * rewrite !lookup_ge_None_2; [done| |lia].
        unfold jnp_arange. rewrite length_fmap, length_seq. lia.
  - exact HM1.
Qed.

End ConversionContents.

Lemma typed_dataset_converted :
  @_convert_data amp typed_op typed_netket amp_zero 1 typed_samples (BasesSeq typed_bases)
  = Ok typed_dataset.
Proof. reflexivity. Qed.

(** The arrays of a dataset whose first basis is real and whose second is
    complex: the coefficients [i/√2, 1/√2] of the second record are stored
    as [0, 1/√2]. *)
Lemma convert_data_contents_witness :
  (@get_conn amp typed_op typed_netket typed_Y [1]).2 = [mkAmp 0 1 1; mkAmp 1 0 1] ∧
  ds_mels typed_dataset
  = [mkAmp (-1) 0 1; mkAmp 1 0 1; mkAmp 0 0 1; mkAmp 1 0 1] ++ [amp_zero; amp_zero] ∧
  ds_sigma_p typed_dataset = [[1]; [-1]; [1]; [-1]] ++ [[0]; [0]].
Proof.
  destruct (@convert_data_contents amp typed_op typed_netket amp_zero 1 typed_samples
              typed_bases typed_dataset typed_dataset_converted)
    as (U0 & rest & Hb & Hm & Hr).
  injection Hb as <- <-. split; [reflexivity|]. split; [exact Hm|exact Hr].
Defined.

(** The second record of the same dataset, measured with the complex
    operator: its segment holds the real parts of its coefficients. *)
Lemma convert_data_record_segment_witness :
  ∃ a b, ds_secs typed_dataset !! 1%nat = Some a ∧ ds_secs typed_dataset !! 2%nat = Some b ∧
    py_slice (ds_mels typed_dataset) a (Some b) = [mkAmp 0 0 1; mkAmp 1 0 1] ∧
    py_slice (ds_sigma_p typed_dataset) a (Some b) = [[1]; [-1]].
Proof.
  destruct (@convert_data_record_segment amp typed_op typed_netket amp_zero 1 typed_samples
              typed_bases typed_dataset 1 [1] ltac:(simpl; lia) typed_dataset_converted
              eq_refl)
    as (U0 & U & a & b & Hb & Ha & Hb' & Hm & Hr).
  injection Hb as <- <-.
  exists a, b. split; [exact Ha|]. split; [exact Hb'|]. split; [exact Hm|].
  exact (Hr eq_refl).
Defined.

(** The example samples with their rotations given as operators. *)
Lemma convert_data_succeeds_iff_witness :
  is_Ok (_convert_data amp_zero 1 example_samples
           (BasesSeq [BOp (mkSym 1 []); BOp (mkSym 1 [(U_X, 0%nat)])])).
Proof.
  apply (convert_data_succeeds_iff amp_zero 1 example_samples (mkSym 1 [])
           [BOp (mkSym 1 [(U_X, 0%nat)])]).
  split; [done|]. repeat constructor.
Defined.

(** Two samples measured along ["Z"] and ["I"] on one site. *)
Lemma convert_identity_round_trip_witness :
  _convert_data amp_zero 1 [[1]; [-1]] (BasesSeq (BStr <$> ["Z"; "I"]))
  = Ok (mkDataset ([[1]; [-1]] ++ [replicate 1 0]) (replicate 2 amp_one ++ [amp_zero])
                  (jnp_arange 3) 1).
Proof.
  apply (convert_identity_round_trip (Op:=sym_op) amp_zero 1 [[1]; [-1]] "Z" ["I"] amp_one).
  - done.
  - reflexivity.
  - reflexivity.
  - repeat constructor; done.
  - done.
  - simpl. lia.
Defined.

(** ** The offsets, the largest segment and the padding of a batch *)

Section ComposeRest.
Context {Coeff : Type}.
Variable c0 : Coeff.
Variable d : Dataset Coeff.
Hypothesis Hwf : dataset_wf d.

Lemma segment_length_range (i : Z) :
  0 ≤ i < n_records d → 0 ≤ segment_length d i ≤ ds_max_len d.
Proof.
  intros Hi.
  destruct (segment_bounds d Hwf i Hi) as (s & e & Hs & He & _ & _ & Hse & Hlen & _).
  unfold segment_length. rewrite Hs, He. lia.
Qed.

Lemma segment_lengths_range (idx : list Z) :
  Forall (λ i, 0 ≤ i < n_records d) idx →
  Forall (λ x, 0 ≤ x ≤ ds_max_len d) (segment_length d <$> idx).
Proof.
  intros Hidx. apply Forall_fmap. eapply Forall_impl; [exact Hidx|].
  intros i Hi. by apply segment_length_range.
Qed.

(** What the loop leaves besides the copies: the largest copied length,
    offsets that are the running totals of the copied lengths, and buffers
    untouched from the final total on. *)
Lemma compose_loop_rest (N_samples : nat) (idx : list Z) :
  ∀ (n : nat) (st st' : comp_state Coeff),
  comp_wf d N_samples n st → (n + length idx ≤ N_samples)%nat →
  Forall (λ i, 0 ≤ i < n_records d) idx → 0 ≤ cs_maxlen st →
  compose_loop d n idx st = Ok st' →
  let lens := segment_length d <$> idx in
  cs_maxlen st' = Z.max (cs_maxlen st) (Zmax_list lens) ∧
  (∀ k : nat, (k ≤ length idx)%nat →
     cs_secs st' !! (n + k)%nat = Some (cs_last_i st + Zsum (take k lens))) ∧
  cs_last_i st ≤ cs_last_i st' ∧
  drop (Z.to_nat (cs_last_i st')) (cs_sigma_p st')
    = drop (Z.to_nat (cs_last_i st')) (cs_sigma_p st) ∧
  drop (Z.to_nat (cs_last_i st')) (cs_mels st')
    = drop (Z.to_nat (cs_last_i st')) (cs_mels st).
Proof.
  induction idx as [|i idx IH]; intros n st st' Hst Hn Hidx Hmax Hloop.
  { simpl in Hloop. injection Hloop as <-. cbn [fmap list_fmap Zmax_list foldr length].
    split; [lia|]. split; [|split; [lia|done]].
    intros k Hk. replace k with 0%nat by lia.
    rewrite Nat.add_0_r. destruct Hst as (_ & _ & _ & _ & ->). simpl. f_equal. lia. }
  destruct (compose_loop_spec d Hwf N_samples (i :: idx) n st Hst Hn Hidx)
    as (st'' & Hloop'' & _ & _ & _ & _ & _ & Hsecs0 & _).
  rewrite Hloop in Hloop''. injection Hloop'' as <-.
  apply Forall_cons in Hidx as [Hi Hidx]. cbn [length] in Hn.
  destruct (compose_step_spec d Hwf N_samples n i st Hst ltac:(lia) Hi)
    as (s & e & Hs & He & Hse & Hesp & Hem & Hfit & Hstep).
  cbv zeta in Hstep. set (st1 := mkComp _ _ _ _ _) in Hstep.
  assert (Hlsp : length (segment (ds_sigma_p d) s e) = Z.to_nat (e - s)).
  { unfold segment. rewrite length_take, length_drop. lia. }
  assert (Hlm : length (segment (ds_mels d) s e) = Z.to_nat (e - s)).
  { unfold segment. rewrite length_take, length_drop. lia. }
  assert (Hst1 : comp_wf d N_samples (S n) st1).
  { eapply (compose_step_wf d Hwf N_samples n st st1 _ _ (e - s));
      [done|lia|lia|done|exact Hlsp|exact Hlm|reflexivity]. }
  cbn [compose_loop] in Hloop. rewrite Hstep in Hloop. cbn [mbind res_bind] in Hloop.
  destruct (IH (S n) st1 st' Hst1 ltac:(lia) Hidx ltac:(simpl; lia) Hloop)
    as (HM & Hsecs & Hle & Hdsp & Hdm).
  change (cs_last_i st1) with (cs_last_i st + (e - s)) in *.
  change (cs_maxlen st1) with (Z.max (cs_maxlen st) (e - s)) in HM.
  assert (Hlen_i : segment_length d i = e - s).
  { unfold segment_length. by rewrite Hs, He. }
  destruct Hst as (Hlast & Hbsp & Hbm & Hbsecs & Hbn).
  pose proof (wf_max d Hwf) as HMd.
  assert (Hroom : cs_last_i st + (e - s) ≤ N_samples * ds_max_len d) by nia.
  cbn [fmap list_fmap Zmax_list foldr]. rewrite Hlen_i.
  split; [|split; [|split; [|split]]].
  - rewrite HM. unfold Zmax_list. cbn [fmap]. lia.
  - intros [|k] Hk.
    + rewrite Nat.add_0_r, Hsecs0 by lia. rewrite Hbn. simpl. f_equal. lia.
    + replace (n + S k)%nat with (S n + k)%nat by lia.
      cbn [length] in Hk. rewrite Hsecs by lia. cbn [take Zsum foldr fmap]. f_equal.
      unfold Zsum. lia.
  - lia.
  - rewrite Hdsp. unfold st1. cbn [cs_sigma_p].
    replace (Z.to_nat (cs_last_i st'))
      with (length (take (Z.to_nat (cs_last_i st)) (cs_sigma_p st)
                      ++ segment (ds_sigma_p d) s e)
            + (Z.to_nat (cs_last_i st') - Z.to_nat (cs_last_i st + (e - s))))%nat at 1
      by (rewrite length_app, length_take; lia).
    rewrite app_assoc, drop_app_add', drop_drop by done. f_equal. lia.
  - rewrite Hdm. unfold st1. cbn [cs_mels].
    replace (Z.to_nat (cs_last_i st'))
      with (length (take (Z.to_nat (cs_last_i st)) (cs_mels st)
                      ++ segment (ds_mels d) s e)
            + (Z.to_nat (cs_last_i st') - Z.to_nat (cs_last_i st + (e - s))))%nat at 1
      by (rewrite length_app, length_take; lia).
    rewrite app_assoc, drop_app_add', drop_drop by done. f_equal. lia.
Qed.

(** The batch of [_compose_sampled_data] beyond its copies. *)
Lemma compose_sampled_data_rest N (idx : list Z) mpf b :
  Forall (λ i, 0 ≤ i < n_records d) idx → 0 < mpf →
  _compose_sampled_data c0 N d idx mpf = Ok b →
  let lens := segment_length d <$> idx in
  b_maxlen b = Zmax_list lens ∧
  length (b_secs b) = S (length idx) ∧
  (∀ k : nat, (k ≤ length idx)%nat → b_secs b !! k = Some (Zsum (take k lens))) ∧
  Zsum lens ≤ length (b_sigma_p b) ∧ Zsum lens ≤ length (b_mels b) ∧
  (∀ (k : nat) c, Zsum lens ≤ k → b_mels b !! k = Some c → c = c0) ∧
  (∀ (k : nat) r, Zsum lens ≤ k → b_sigma_p b !! k = Some r → r = replicate N 0).
Proof.
  intros Hidx Hmpf Hb.
  destruct (compose_sampled_data_spec c0 N d idx mpf Hwf Hidx Hmpf)
    as (st & Hloop & Hb' & Htot & Hrange & Hsp & Hm & Hsecs & H0 & Hfin & _).
  rewrite Hb in Hb'. injection Hb' as ->.
  set (st0 := mkComp _ _ _ _ _) in Hloop.
  assert (Hst0 : comp_wf d (length idx) 0 st0).
  { unfold comp_wf, st0; simpl. rewrite !length_replicate.
    pose proof (wf_max d Hwf). repeat split; try lia.
    apply lookup_replicate. split; [done|lia]. }
  destruct (compose_loop_rest (length idx) idx 0 st0 st Hst0 ltac:(lia) Hidx
              ltac:(simpl; lia) Hloop) as (HM & Hsecs' & _ & Hdsp & Hdm).
  cbn [b_maxlen b_secs b_sigma_p b_mels]. fold (copied_total d idx) in *.
  pose proof (wf_max d Hwf) as HMd.
  pose proof (ceil_div_spec (copied_total d idx) (ds_max_len d `max` mpf) ltac:(lia)) as HP.
  pose proof (Zmax_list_nonneg (segment_length d <$> idx)) as Hnn.
  rewrite !length_take.
  split; [rewrite HM; simpl; lia|]. split; [done|]. split; [|split; [lia|split; [lia|split]]].
  - intros k Hk. specialize (Hsecs' k Hk). simpl in Hsecs'.
    rewrite Hsecs'. f_equal; lia.
  - intros k c Hk Hc. apply lookup_take_Some in Hc as [Hc _].
    assert (Hk' : drop (Z.to_nat (cs_last_i st)) (cs_mels st)
                    !! (k - Z.to_nat (cs_last_i st))%nat = Some c).
    { rewrite lookup_drop, <- Hc. f_equal. lia. }
    rewrite Hdm, lookup_drop in Hk'. simpl in Hk'.
    by apply lookup_replicate in Hk' as [-> _].
  - intros k r Hk Hr. apply lookup_take_Some in Hr as [Hr _].
    assert (Hk' : drop (Z.to_nat (cs_last_i st)) (cs_sigma_p st)
                    !! (k - Z.to_nat (cs_last_i st))%nat = Some r).
    { rewrite lookup_drop, <- Hr. f_equal. lia. }
    rewrite Hdsp, lookup_drop in Hk'. simpl in Hk'.
    by apply lookup_replicate in Hk' as [-> _].
Qed.

End ComposeRest.

Section BatchInvariant.
Context {Coeff Op : Type} `{!Netket Coeff Op}.
Variable c0 : Coeff.

(** X7. For a dataset converted from an input with at least as many bases
    as samples, sampled indices in [[0, N)] and a positive padding
    granularity, a composed batch satisfies the segment invariant of a
    dataset itself, with [_maxlen] in the place of [MAX_LEN]: one segment
    per sampled index, offsets that start at [0], never decrease and are
    the running totals of the copied segment lengths, no segment longer
    than [_maxlen], the final offset inside both buffers; and [_maxlen] is
    the largest copied segment length, never more than [MAX_LEN]. *)
Theorem compose_batch_invariant N sigma_s (l : list (Base Op)) d idx mpf b :
  (length sigma_s ≤ length l)%nat →
  _convert_data c0 N sigma_s (BasesSeq l) = Ok d →
  Forall (λ i, 0 ≤ i < length sigma_s) idx →
  0 < mpf →
  _compose_sampled_data c0 N d idx mpf = Ok b →
  dataset_wf (batch_dataset b) ∧
  n_records (batch_dataset b) = length idx ∧
  (∀ k : nat, (k ≤ length idx)%nat → b_secs b !! k = Some (copied_total d (take k idx))) ∧
  b_maxlen b = Zmax_list (segment_length d <$> idx) ∧
  b_maxlen b ≤ ds_max_len d.
Proof.
  intros Hlen Hc Hidx Hmpf Hb.
  destruct (convert_data_wf c0 _ _ _ _ Hlen Hc) as [Hwf Hn].
  rewrite <- Hn in Hidx.
  destruct (compose_sampled_data_rest c0 d Hwf N idx mpf b Hidx Hmpf Hb)
    as (HM & Hsl & Hsecs & Hsp & Hm & _).
  pose proof (segment_lengths_range d Hwf idx Hidx) as Hrange.
  set (lens := segment_length d <$> idx) in *.
  assert (Hll : length lens = length idx) by (unfold lens; by rewrite length_fmap).
  assert (Hnn : Forall (Z.le 0) lens).
  { eapply Forall_impl; [exact Hrange|]. simpl. intros; lia. }
  assert (Hlast : last (b_secs b) = Some (Zsum lens)).
  { rewrite last_lookup, Hsl. simpl. rewrite Hsecs by lia.
    by rewrite take_ge by lia. }
  pose proof (Zmax_list_nonneg lens) as HMnn.
  split; [|split; [|split; [|split]]].
  - split; cbn [batch_dataset ds_secs ds_max_len ds_sigma_p ds_mels].
    + by rewrite Hsecs by lia.
    + intros i j x y Hij Hx Hy.
      assert (j ≤ length idx)%nat by (apply lookup_lt_Some in Hy; lia).
      rewrite Hsecs in Hx, Hy by lia. injection Hx as <-. injection Hy as <-.
      by apply Zsum_take_mono.
    + intros i x y Hx Hy.
      assert (S i ≤ length idx)%nat by (apply lookup_lt_Some in Hy; lia).
      rewrite Hsecs in Hx, Hy by lia. injection Hx as <-. injection Hy as <-.
      destruct (lookup_lt_is_Some_2 lens i) as [z Hz]; [lia|].
      rewrite (Zsum_take_S _ _ _ Hz), HM.
      assert (z ≤ Zmax_list lens); [|lia].
      apply Zmax_list_ge. by eapply list_elem_of_lookup_2.
    + lia.
    + intros t Ht. rewrite Hlast in Ht. injection Ht as <-. done.
    + intros t Ht. rewrite Hlast in Ht. injection Ht as <-. done.
  - unfold n_records. cbn [batch_dataset ds_secs]. lia.
  - intros k Hk. rewrite Hsecs by done. unfold copied_total, lens.
    by rewrite fmap_take.
  - done.
  - rewrite HM. pose proof (wf_max d Hwf).
    clear -Hrange H. induction Hrange as [|x xs Hx _ IH]; simpl; lia.
Qed.

(** X8. For a dataset converted from an input with at least as many bases
    as samples, sampled indices in [[0, N)] and a positive padding
    granularity: from the true total copied length on, the buffers of the
    composed batch hold only padding, every coefficient there is zero and
    every configuration is a row of zeros. *)
Theorem compose_batch_padding N sigma_s (l : list (Base Op)) d idx mpf b (k : nat) :
  (length sigma_s ≤ length l)%nat →
  _convert_data c0 N sigma_s (BasesSeq l) = Ok d →
  Forall (λ i, 0 ≤ i < length sigma_s) idx →
  0 < mpf →
  _compose_sampled_data c0 N d idx mpf = Ok b →
  copied_total d idx ≤ k →
  (∀ c, b_mels b !! k = Some c → c = c0) ∧
  (∀ r, b_sigma_p b !! k = Some r → r = replicate N 0).
Proof.
  intros Hlen Hc Hidx Hmpf Hb Hk.
  destruct (convert_data_wf c0 _ _ _ _ Hlen Hc) as [Hwf Hn].
  rewrite <- Hn in Hidx.
  destruct (compose_sampled_data_rest c0 d Hwf N idx mpf b Hidx Hmpf Hb)
    as (_ & _ & _ & _ & _ & Hzm & Hzsp).
  split; intros x Hx; [by eapply Hzm|by eapply Hzsp].
Qed.

End BatchInvariant.

(** The batch of the example dataset for the indices [[0; 1; 1]]: offsets
    [0, 1, 3, 5] and a largest segment of two entries. *)
Lemma compose_batch_invariant_witness :
  ∃ b, _compose_sampled_data amp_zero 1 example_dataset [0; 1; 1] 128 = Ok b ∧
    b_secs b !! 3%nat = Some (copied_total example_dataset [0; 1; 1]) ∧
    nondecreasing (b_secs b) ∧
    b_maxlen b = Zmax_list (segment_length example_dataset <$> [0; 1; 1]).
Proof.
  exists (mkBatch [[1]; [-1]; [1]; [-1]; [1]; [0]]
            [amp_one; mkAmp 1 0 1; mkAmp 1 0 1; mkAmp 1 0 1; mkAmp 1 0 1; amp_zero]
            [0; 1; 3; 5] 2).
  split; [reflexivity|].
  destruct (compose_batch_invariant amp_zero 1 example_samples example_bases
              example_dataset [0; 1; 1] 128
              (mkBatch [[1]; [-1]; [1]; [-1]; [1]; [0]]
                 [amp_one; mkAmp 1 0 1; mkAmp 1 0 1; mkAmp 1 0 1; mkAmp 1 0 1; amp_zero]
                 [0; 1; 3; 5] 2)
              ltac:(simpl; lia) example_dataset_converted)
    as (Hwf & _ & Hsecs & HM & _).
  - repeat constructor; simpl; lia.
  - lia.
  - reflexivity.
  - split; [exact (Hsecs 3%nat ltac:(simpl; lia))|].
    split; [exact (wf_mono _ Hwf)|exact HM].
Defined.

(** That batch past its five copied entries: only padding. *)
Lemma compose_batch_padding_witness :
  ∃ b, _compose_sampled_data amp_zero 1 example_dataset [0; 1; 1] 128 = Ok b ∧
    copied_total example_dataset [0; 1; 1] = 5 ∧
    Forall (λ c, c = amp_zero) (drop 5 (b_mels b)) ∧
    Forall (λ r, r = [0]) (drop 5 (b_sigma_p b)).
Proof.
  exists (mkBatch [[1]; [-1]; [1]; [-1]; [1]; [0]]
            [amp_one; mkAmp 1 0 1; mkAmp 1 0 1; mkAmp 1 0 1; mkAmp 1 0 1; amp_zero]
            [0; 1; 3; 5] 2).
  split; [reflexivity|]. split; [reflexivity|].
  assert (Hpad : ∀ k : nat, copied_total example_dataset [0; 1; 1] ≤ k →
            (∀ c, ([amp_one; mkAmp 1 0 1; mkAmp 1 0 1; mkAmp 1 0 1; mkAmp 1 0 1; amp_zero]
                     : list amp) !! k = Some c → c = amp_zero) ∧
            (∀ r, ([[1]; [-1]; [1]; [-1]; [1]; [0]] : list Config) !! k = Some r
                  → r = replicate 1 0)).
  { intros k. apply (compose_batch_padding amp_zero 1 example_samples example_bases
             example_dataset [0; 1; 1] 128
             (mkBatch [[1]; [-1]; [1]; [-1]; [1]; [0]]
                [amp_one; mkAmp 1 0 1; mkAmp 1 0 1; mkAmp 1 0 1; mkAmp 1 0 1; amp_zero]
                [0; 1; 3; 5] 2) k).
    - simpl. lia.
    - exact example_dataset_converted.
    - repeat constructor; simpl; lia.
    - lia.
    - reflexivity. }
  split; apply Forall_lookup; intros k x Hx; rewrite lookup_drop in Hx;
    (eapply (Hpad (5 + k)%nat); [change (copied_total example_dataset [0; 1; 1]) with 5; lia
                                |exact Hx]).
Defined.

(** ** The local-value kernels on a composed batch *)

Section KernelProps.
Context {C Pars : Type}.
Variable c_zero : C.
Variables c_add c_mul : C → C → C.
Variables c_exp c_log c_abs c_square : C → C.
Variable log_psi : Pars → list Config → list C.
Hypothesis add_assoc : ∀ x y z, c_add x (c_add y z) = c_add (c_add x y) z.
Hypothesis add_zero_l : ∀ x, c_add c_zero x = x.
Hypothesis add_zero_r : ∀ x, c_add x c_zero = x.
Hypothesis mul_zero_l : ∀ x, c_mul c_zero x = c_zero.

(** On an array that is zero from the final offset on, every row of
    [sum_sections], the last one too, is the sum of its own range. *)
Lemma sum_sections_padded (U : list C) (secs : list Z) t :
  (2 ≤ length secs)%nat → secs !! 0%nat = Some 0 → nondecreasing secs →
  last secs = Some t → t ≤ length U →
  (∀ (k : nat) x, t ≤ k → U !! k = Some x → x = c_zero) →
  ∃ out, sum_sections c_zero c_add U secs = Ok out ∧
    length out = (length secs - 1)%nat ∧
    ∀ (i : nat) a b, secs !! i = Some a → secs !! S i = Some b →
      out !! i = Some (jnp_sum c_zero c_add (py_slice U a (Some b))).
Proof.
  intros Hlen H0 Hmono Hlast Ht Hz.
  destruct (sum_sections_spec c_zero c_add U secs t Hlen H0 Hmono Hlast Ht)
    as (out & Hout & Hol & Hrows & Hlastrow).
  exists out. split; [done|]. split; [done|].
  intros i a b Ha Hb.
  pose proof (lookup_lt_Some _ _ _ Hb) as Hi.
  destruct (decide (S i < length secs - 1)%nat) as [Hlt|Hge]; [by apply Hrows|].
  assert (i = (length secs - 2)%nat) as -> by lia.
  rewrite (Hlastrow a Ha). f_equal.
  rewrite last_lookup in Hlast.
  replace (S (length secs - 2)) with (pred (length secs)) in Hb by lia.
  rewrite Hlast in Hb. injection Hb as <-.
  assert (Hat : 0 ≤ a ≤ t).
  { split.
    - by apply (Hmono 0%nat (length secs - 2)%nat 0 a ltac:(lia)).
    - by apply (Hmono (length secs - 2)%nat (pred (length secs)) a t ltac:(lia)). }
  assert (Hsplit : py_slice U a None = py_slice U a (Some t) ++ drop (Z.to_nat t) U).
  { rewrite py_slice_in by lia. unfold py_slice, py_stop.
    rewrite !py_clip_in by lia.
    rewrite take_ge by (rewrite length_drop; lia).
    rewrite <- (take_drop (Z.to_nat (t - a)) (drop (Z.to_nat a) U)) at 1.
    f_equal. rewrite drop_drop. f_equal. lia. }
  rewrite Hsplit, (jnp_sum_app c_zero c_add add_assoc add_zero_l add_zero_r).
  rewrite (jnp_sum_zeros c_zero c_add add_zero_l (drop _ _)), add_zero_r; [done|].
  apply Forall_lookup. intros k x Hk. rewrite lookup_drop in Hk.
  eapply Hz; [|exact Hk]. lia.
Qed.

(** The product [mel * exp(log_psi(pars, sigma_p))] for a row-wise ansatz
    on arrays of one length. *)
Lemma rotated_products pars (f : Config → C) (sigma_p : list Config) (mel : list C) :
  (∀ rows, log_psi pars rows = f <$> rows) → length mel = length sigma_p →
  jnp_mul c_mul mel (c_exp <$> log_psi pars sigma_p)
  = Ok (zip_with (λ m sigma, c_mul m (c_exp (f sigma))) mel sigma_p).
Proof.
  intros Hf Hlen. unfold jnp_mul. rewrite Hf.
  rewrite decide_True by (by rewrite !length_fmap).
  by rewrite <- list_fmap_compose, zip_with_fmap_r.
Qed.

(** X9. On a batch composed from a dataset with the segment invariant, for
    an ansatz that maps configurations row by row, and exact arithmetic in
    which zero annihilates products: both kernels return one value per
    sampled index, and the value for the [n]-th index [i] is the logarithm
    (for [local_value_rotated_amplitude]: the logarithm of the squared
    modulus) of the sum, over the dataset's segment of record [i], of
    [mel * exp(log_psi)]; the padding of the batch contributes nothing. *)
Theorem local_values_on_batch N (d : Dataset C) idx mpf b pars (f : Config → C) :
  dataset_wf d → Forall (λ i, 0 ≤ i < n_records d) idx → 0 < mpf →
  _compose_sampled_data c_zero N d idx mpf = Ok b →
  (∀ rows, log_psi pars rows = f <$> rows) →
  ∃ sums,
    length sums = length idx ∧
    (∀ (n : nat) i, idx !! n = Some i →
       ∃ s e, ds_secs d !! Z.to_nat i = Some s ∧ ds_secs d !! S (Z.to_nat i) = Some e ∧
         sums !! n = Some (rotated_amplitude c_zero c_add c_mul c_exp f d s e)) ∧
    local_value_rotated_kernel c_zero c_add c_mul c_exp c_log log_psi pars
      (b_sigma_p b) (b_mels b) (b_secs b) = Ok (c_log <$> sums) ∧
    local_value_rotated_amplitude c_zero c_add c_mul c_exp c_log c_abs c_square log_psi pars
      (b_sigma_p b) (b_mels b) (b_secs b)
      = Ok ((λ x, c_log (c_square (c_abs x))) <$> sums).
Proof.
  intros Hwf Hidx Hmpf Hb Hf.
  destruct (compose_sampled_data_spec c_zero N d idx mpf Hwf Hidx Hmpf)
    as (st & _ & Hb' & Htot & Hrange & Hsp & Hm & Hsecs & H0 & Hfin & Hcopied).
  cbv zeta in Hb'. rewrite Hb in Hb'. injection Hb' as Hbeq.
  destruct (compose_sampled_data_rest c_zero d Hwf N idx mpf b Hidx Hmpf Hb)
    as (_ & Hsl & Hpre & Htsp & Htm & Hzm & _).
  pose proof (segment_lengths_range d Hwf idx Hidx) as Hlens.
  fold (copied_total d idx) in Htsp, Htm, Hzm.
  assert (Hlen : length (b_mels b) = length (b_sigma_p b)).
  { rewrite Hbeq. cbn [b_mels b_sigma_p]. rewrite !length_take. lia. }
  unfold local_value_rotated_kernel, local_value_rotated_amplitude.
  rewrite (rotated_products pars f _ _ Hf Hlen). cbn [mbind res_bind].
  set (g := λ (m : C) (sigma : Config), c_mul m (c_exp (f sigma))).
  set (U := zip_with g (b_mels b) (b_sigma_p b)).
  assert (HUl : length U = length (b_mels b)).
  { unfold U. rewrite length_zip_with. lia. }
  destruct idx as [|i0 idx0] eqn:Hidx_eq.
  { exists []. split; [done|]. split; [intros n i Hn; done|].
    assert (Hs : b_secs b = [0]).
    { destruct (b_secs b) as [|x [|y r]]; simpl in Hsl; try lia.
      specialize (Hpre 0%nat ltac:(simpl; lia)). simpl in Hpre. by injection Hpre as ->. }
    assert (HU : U = []).
    { apply length_zero_iff_nil. rewrite HUl, Hbeq. cbn [b_mels].
      rewrite length_take. simpl in Hm. lia. }
    rewrite Hs, HU. split; reflexivity. }
  rewrite <- Hidx_eq in *. assert (Hne : (1 ≤ length idx)%nat) by (subst idx; simpl; lia).
  clear Hidx_eq i0 idx0.
  assert (Hmono : nondecreasing (b_secs b)).
  { intros i j x y Hij Hx Hy.
    assert (j ≤ length idx)%nat by (apply lookup_lt_Some in Hy; lia).
    rewrite Hpre in Hx, Hy by lia. injection Hx as <-. injection Hy as <-.
    apply Zsum_take_mono; [|done].
    eapply Forall_impl; [exact Hlens|]. simpl. intros; lia. }
  assert (Hlast : last (b_secs b) = Some (copied_total d idx)).
  { rewrite last_lookup, Hsl. simpl. rewrite Hpre by lia.
    unfold copied_total. by rewrite take_ge by (rewrite length_fmap; lia). }
  destruct (sum_sections_padded U (b_secs b) (copied_total d idx))
    as (out & Hout & Hol & Hrows).
  - lia.
  - by rewrite Hpre by lia.
  - exact Hmono.
  - exact Hlast.
  - lia.
  - intros k x Hk Hx. unfold U in Hx.
    apply lookup_zip_with_Some in Hx as (m & sigma & -> & Hmk & _).
    unfold g. by rewrite (Hzm k m Hk Hmk).
  - exists out. rewrite Hout. cbn [mbind res_bind].
    split; [lia|]. split; [|done].
    intros n i Hn.
    pose proof (wf_max d Hwf) as HMd.
    pose proof (ceil_div_spec (copied_total d idx) (ds_max_len d `max` mpf) ltac:(lia)) as HP.
    pose proof (Hcopied n i Hn) as Hc.
    apply (segment_copied_extend d _ _ _ _ _ (copied_total d idx)
             (ds_max_len d `max` mpf * ceil_div (copied_total d idx) (ds_max_len d `max` mpf)))
      in Hc; [|lia|lia|lia].
    destruct Hc as (s & e & a & b' & Hs & He & Ha & Hb' & Hse & Hesp & Hem
                    & Hab & Hbsp & Hbm & Hlen' & Hcsp & Hcm).
    exists s, e. split; [done|]. split; [done|].
    assert (Hsecs_eq : b_secs b = cs_secs st) by (by rewrite Hbeq).
    rewrite <- Hsecs_eq in Ha, Hb'.
    rewrite (Hrows n a b' Ha Hb'). f_equal. unfold rotated_amplitude. f_equal.
    fold g. rewrite <- Hcsp, <- Hcm.
    assert (Hsp_eq : b_sigma_p b = take (Z.to_nat (ds_max_len d `max` mpf
              * ceil_div (copied_total d idx) (ds_max_len d `max` mpf))) (cs_sigma_p st))
      by (by rewrite Hbeq).
    assert (Hm_eq : b_mels b = take (Z.to_nat (ds_max_len d `max` mpf
              * ceil_div (copied_total d idx) (ds_max_len d `max` mpf))) (cs_mels st))
      by (by rewrite Hbeq).
    rewrite <- Hsp_eq, <- Hm_eq in *.
    rewrite !py_slice_in by lia. unfold U.
    by rewrite zip_with_drop, zip_with_take.
Qed.

End KernelProps.

Lemma integer_dataset_wf : dataset_wf integer_dataset.
Proof.
  split; simpl.
  - reflexivity.
  - intros [|[|[|i]]] [|[|[|j]]] a b Hij Ha Hb; simpl in *;
      try lia; try discriminate; injection Ha as <-; injection Hb as <-; lia.
  - intros [|[|[|i]]] a b Ha Hb; simpl in *;
      try discriminate; injection Ha as <-; injection Hb as <-; lia.
  - lia.
  - intros t [= <-]. lia.
  - intros t [= <-]. lia.
Qed.

(** Integer arithmetic, the identity in the place of [exp] and [log], and
    the ansatz that reads the first site: the batch of records [1] and [0]
    gives [3·(-1) + 5·1 = 2] and [2·1 = 2]. *)
Lemma local_values_on_batch_witness :
  local_value_rotated_kernel 0 Z.add Z.mul id id
    (λ (_ : unit) rows, (λ r : Config, default 0 (head r)) <$> rows) tt
    [[-1]; [1]; [1]; [0]] [3; 5; 2; 0] [0; 2; 3] = Ok [2; 2].
Proof.
  destruct (local_values_on_batch 0 Z.add Z.mul id id Z.abs (λ x, x * x)
              (λ (_ : unit) rows, (λ r : Config, default 0 (head r)) <$> rows)
              ltac:(intros; lia) ltac:(intros; lia) ltac:(intros; lia) ltac:(intros; lia)
              1 integer_dataset [1; 0] 128
              (mkBatch [[-1]; [1]; [1]; [0]] [3; 5; 2; 0] [0; 2; 3] 2) tt
              (λ r : Config, default 0 (head r)) integer_dataset_wf)
    as (sums & Hl & Hsums & Hk & _).
  - repeat constructor; simpl; lia.
  - lia.
  - reflexivity.
  - reflexivity.
  - simpl in Hk. rewrite Hk. f_equal.
    destruct (Hsums 0%nat 1 eq_refl) as (s0 & e0 & Hs0 & He0 & H0).
    destruct (Hsums 1%nat 0 eq_refl) as (s1 & e1 & Hs1 & He1 & H1).
    injection Hs0 as <-. injection He0 as <-. injection Hs1 as <-. injection He1 as <-.
    destruct sums as [|x [|y [|z r]]]; simpl in Hl; try lia.
    injection H0 as ->. injection H1 as ->. reflexivity.
Defined.

(** ** The driver over a run *)

Section DriverRun.
Context {Coeff Op R VState Optimizer Key Rng : Type}.
Context `{!Netket Coeff Op} `{!Real R} `{!Collaborators Coeff R VState Optimizer Key Rng}.
Variable c0 : Coeff.

Abbreviation Self := (gmap string (@QSR.pyval Coeff Op R VState Optimizer Rng)).
Implicit Types self : Self.

Ltac not_written :=
  unfold run_writes, step_writes; cbn [app];
  rewrite !not_elem_of_cons; repeat split; try done; apply not_elem_of_nil.

(** What [__init__] leaves in the driver. *)
Lemma init_attributes e N sigma_s Us training_batch_size optimizer variational_state
    preconditioner seed self :
  QSR.__init__ c0 e (QSR.TDPair N sigma_s Us) training_batch_size optimizer
    variational_state preconditioner seed = Ok self →
  ∃ d, _convert_data c0 N sigma_s Us = Ok d ∧
    training_attributes self N sigma_s Us d training_batch_size preconditioner ∧
    self !! "_optimizer" = Some (QSR.VOptimizer optimizer) ∧
    self !! "_variational_state" = Some (QSR.VState_ variational_state) ∧
    self !! "_step_count" = Some (QSR.VInt 0) ∧
    self !! "_dp" = Some QSR.VNone ∧
    self !! "_loss_grad" = None ∧ self !! "sr" = None.
Proof.
  unfold QSR.__init__. intros Hinit.
  apply bind_Ok in Hinit as (d & Hd & [= <-]).
  exists d. split; [done|].
  assert (Hn : (length (ds_secs d) - 1 : Z) = length sigma_s).
  { destruct Us as [l|]; [|discriminate].
    destruct (convert_data_shape c0 _ _ _ _ Hd) as (_ & _ & _ & Hsl & _). lia. }
  unfold training_attributes. rewrite <- Hn. by simplify_map_eq.
Qed.

(** A training step writes only the attributes of [step_writes], and
    stores the update it returns under [_dp]. *)
Lemma step_frame self dp self' :
  QSR._forward_and_backward c0 self = Ok (dp, self') →
  (∀ name, name ∉ step_writes → self' !! name = self !! name) ∧
  self' !! "_dp" = Some (QSR.VTree dp).
Proof.
  intros Hstep.
  destruct (forward_and_backward_inv c0 _ _ _ Hstep)
    as (st0 & g & n & size & draw & g' & N & sigma_p & mels & secs & MAX_LEN & b
        & loss_grad & p & raw & H).
  cbv zeta in H.
  destruct H as (Hst0 & Hg & Hn & Hsize & Hdraw & Hsp & Hm & Hs & HM & Hb & Hcg & Hp
                 & Hraw & Hproj & Hst & Hg' & Hidx & Hbsp & Hbm & Hbs & Hgn & Hgp & Hlg
                 & Hdp & Hframe).
  by split.
Qed.

(** One iteration of the training loop, as [advance] runs it. *)
Lemma advance_S_inv steps self tr self' :
  QSR.advance c0 (S steps) self = Ok (tr, self') →
  ∃ dp self1 sampled count optimizer st rest,
    QSR._forward_and_backward c0 self = Ok (dp, self1) ∧
    self1 !! "_sampled_indices" = Some (QSR.VInts sampled) ∧
    self1 !! "_step_count" = Some (QSR.VInt count) ∧
    tr = sampled :: rest ∧
    QSR.advance c0 steps
      (<["_variational_state" := QSR.VState_ st]>
         (<["_optimizer" := QSR.VOptimizer optimizer]>
            (<["_step_count" := QSR.VInt (count + 1)]> self1))) = Ok (rest, self').
Proof.
  intros Hrun. cbn [QSR.advance] in Hrun.
  apply bind_Ok in Hrun as ([dp self1] & Hstep & Hrun).
  apply bind_Ok in Hrun as (sampled & Hsampled%getattr_as_ints & Hrun).
  apply bind_Ok in Hrun as (count & Hcount%getattr_as_int & Hrun).
  apply bind_Ok in Hrun as (optimizer & _ & Hrun).
  apply bind_Ok in Hrun as (st & _ & Hrun).
  destruct (update_parameters optimizer st dp) as [optimizer' st'].
  apply bind_Ok in Hrun as ([rest self2] & Hrest & Hrun).
  injection Hrun as <- <-.
  by exists dp, self1, sampled, count, optimizer', st', rest.
Qed.

(** A run writes only the attributes of [run_writes]; it keeps an optimizer
    and a variational state in the driver, and collects one index array
    per step. *)
Lemma advance_frame steps : ∀ self tr self',
  QSR.advance c0 steps self = Ok (tr, self') →
  (∀ name, name ∉ run_writes → self' !! name = self !! name) ∧
  length tr = steps ∧
  (is_Some (self !! "_optimizer") → is_Some (self' !! "_optimizer")).
Proof.
  induction steps as [|steps IH]; intros self tr self' Hrun.
  { simpl in Hrun. by injection Hrun as <- <-. }
  apply advance_S_inv in Hrun
    as (dp & self1 & sampled & count & optimizer & st & rest & Hstep & _ & _ & -> & Hrest).
  destruct (step_frame _ _ _ Hstep) as [Hframe _].
  apply IH in Hrest as (Hrest & Hlen & Hopt).
  split; [|split].
  - intros name Hname. rewrite Hrest by done.
    assert (Hn : name ≠ "_variational_state" ∧ name ≠ "_optimizer" ∧ name ≠ "_step_count").
    { unfold run_writes, step_writes in Hname. cbn [app] in Hname.
      rewrite !not_elem_of_cons in Hname. tauto. }
    destruct Hn as (? & ? & ?). rewrite !lookup_insert_ne by done.
    apply Hframe. intros Hin. apply Hname. unfold run_writes.
    apply elem_of_app. by left.
  - simpl. by rewrite Hlen.
  - intros _. apply Hopt. rewrite lookup_insert_ne by done.
    rewrite lookup_insert_eq. by eexists.
Qed.

Lemma advance_training_attributes steps self tr self' N sigma_s Us d bs pre :
  QSR.advance c0 steps self = Ok (tr, self') →
  training_attributes self N sigma_s Us d bs pre →
  training_attributes self' N sigma_s Us d bs pre.
Proof.
  intros Hrun (H1 & H2 & H3 & H4 & H5 & H6 & H7 & H8 & H9).
  destruct (advance_frame _ _ _ _ Hrun) as (Hframe & _).
  unfold training_attributes.
  rewrite !Hframe by not_written. done.
Qed.

(** X10. The training data are fixed by [__init__]: whatever the number of
    training steps run afterwards, the driver holds the samples and bases
    it was given, the arrays [_convert_data] returned for them, as many
    training records as there are samples, and the batch size and
    preconditioner it was given. *)
Theorem training_data_preserved e N sigma_s Us training_batch_size optimizer
    variational_state preconditioner seed self0 steps tr self :
  QSR.__init__ c0 e (QSR.TDPair N sigma_s Us) training_batch_size optimizer
    variational_state preconditioner seed = Ok self0 →
  QSR.advance c0 steps self0 = Ok (tr, self) →
  ∃ d, _convert_data c0 N sigma_s Us = Ok d ∧
    training_attributes self N sigma_s Us d training_batch_size preconditioner ∧
    length tr = steps.
Proof.
  intros Hinit Hrun.
  destruct (init_attributes _ _ _ _ _ _ _ _ _ _ Hinit) as (d & Hd & Hattr & _).
  exists d. split; [done|]. split.
  - by eapply advance_training_attributes.
  - by destruct (advance_frame _ _ _ _ Hrun) as (_ & ? & _).
Qed.

(** The batch a training step leaves in a driver that holds the training
    data [d]. *)
Lemma step_batch self dp self' N sigma_s Us d bs pre :
  training_attributes self N sigma_s Us d bs pre →
  QSR._forward_and_backward c0 self = Ok (dp, self') →
  ∃ g draw g' b st,
    self !! "_rng" = Some (QSR.VRng g) ∧
    rng_integers g (length sigma_s) bs = Ok (draw, g') ∧
    _compose_sampled_data c0 N d (merge_sort Z.le draw) 128 = Ok b ∧
    holds_batch self' N (merge_sort Z.le draw) b ∧
    self' !! "_variational_state" = Some (QSR.VState_ st) ∧
    training_attributes self' N sigma_s Us d bs pre.
Proof.
  intros (H1 & H2 & H3 & H4 & H5 & H6 & H7 & H8 & H9) Hstep.
  destruct (forward_and_backward_inv c0 _ _ _ Hstep)
    as (st0 & g & n & size & draw & g' & N' & sigma_p & mels & secs & MAX_LEN & b
        & loss_grad & p & raw & H).
  cbv zeta in H.
  destruct H as (_ & Hg & Hn & Hsize & Hdraw & Hsp & Hm & Hs & HM & Hb & _ & _ & _ & _
                 & Hst & _ & Hidx & Hbsp & Hbm & Hbs & _ & _ & _ & _ & Hframe).
  rewrite H7 in Hn. injection Hn as <-.
  rewrite H8 in Hsize. injection Hsize as <-.
  rewrite H3 in Hsp. injection Hsp as <- <-.
  rewrite H4 in Hm. injection Hm as <-.
  rewrite H5 in Hs. injection Hs as <-.
  rewrite H6 in HM. injection HM as <-.
  replace (mkDataset (ds_sigma_p d) (ds_mels d) (ds_secs d) (ds_max_len d)) with d in Hb
    by (by destruct d).
  exists g, draw, g', b, (vs_samples (vs_reset st0)).
  repeat (split; [done|]).
  unfold training_attributes. rewrite !Hframe by not_written. done.
Qed.

(** The batch a driver holds after a run of at least one step is the one
    its last step composed from the training data. *)
Lemma run_last_batch steps : ∀ self tr self' N sigma_s Us d bs pre,
  training_attributes self N sigma_s Us d bs pre →
  QSR.advance c0 (S steps) self = Ok (tr, self') →
  ∃ g draw g' b st,
    rng_integers g (length sigma_s) bs = Ok (draw, g') ∧
    last tr = Some (merge_sort Z.le draw) ∧
    _compose_sampled_data c0 N d (merge_sort Z.le draw) 128 = Ok b ∧
    holds_batch self' N (merge_sort Z.le draw) b ∧
    self' !! "_variational_state" = Some (QSR.VState_ st).
Proof.
  induction steps as [|steps IH]; intros self tr self' N sigma_s Us d bs pre Hattr Hrun.
  - apply advance_S_inv in Hrun
      as (dp & self1 & sampled & count & optimizer & st & rest & Hstep & Hsampled & _
          & -> & Hrest).
    simpl in Hrest. injection Hrest as <- <-.
    destruct (step_batch _ _ _ _ _ _ _ _ _ Hattr Hstep)
      as (g & draw & g' & b & st1 & _ & Hdraw & Hb & (Hi & Hsp & Hm & Hs) & _ & _).
    rewrite Hi in Hsampled. injection Hsampled as <-.
    exists g, draw, g', b, st. split; [done|]. split; [done|]. split; [done|].
    split; [|by rewrite lookup_insert_eq].
    unfold holds_batch. rewrite !lookup_insert_ne by done. done.
  - apply advance_S_inv in Hrun
      as (dp & self1 & sampled & count & optimizer & st & rest & Hstep & Hsampled & _
          & -> & Hrest).
    destruct (step_batch _ _ _ _ _ _ _ _ _ Hattr Hstep)
      as (_ & _ & _ & _ & _ & _ & _ & _ & _ & _ & Hattr1).
    assert (Hattr2 : training_attributes
              (<["_variational_state" := QSR.VState_ st]>
                 (<["_optimizer" := QSR.VOptimizer optimizer]>
                    (<["_step_count" := QSR.VInt (count + 1)]> self1)))
              N sigma_s Us d bs pre).
    { destruct Hattr1 as (H1 & H2 & H3 & H4 & H5 & H6 & H7 & H8 & H9).
      unfold training_attributes. rewrite !lookup_insert_ne by done. done. }
    destruct (IH _ _ _ _ _ _ _ _ _ Hattr2 Hrest)
      as (g & draw & g' & b & st' & Hdraw & Hlast & Hb & Hbatch & Hst).
    exists g, draw, g', b, st'. split; [done|]. split; [|done].
    destruct rest as [|r rest]; [discriminate|]. by rewrite last_cons, Hlast.
Qed.

(** X11. After a run of at least one step from a freshly built driver whose
    training data have a basis for every sample, and with a generator whose
    draws lie below their bound: the indices the driver holds are the last
    ones of the run, sorted and inside the training data, and the batch it
    holds is the composition of the converted training data at these
    indices, each batch segment being the segment of its training record. *)
Theorem run_batch_from_training_data e N sigma_s (l : list (Base Op)) training_batch_size
    optimizer variational_state preconditioner seed self0 steps tr self :
  (∀ g n size draw g', rng_integers g n size = Ok (draw, g') →
     Forall (λ i, 0 ≤ i < n) draw) →
  (length sigma_s ≤ length l)%nat →
  QSR.__init__ c0 e (QSR.TDPair N sigma_s (BasesSeq l)) training_batch_size optimizer
    variational_state preconditioner seed = Ok self0 →
  QSR.advance c0 (S steps) self0 = Ok (tr, self) →
  ∃ d sampled b,
    _convert_data c0 N sigma_s (BasesSeq l) = Ok d ∧
    last tr = Some sampled ∧ Sorted Z.le sampled ∧
    Forall (λ i, 0 ≤ i < length sigma_s) sampled ∧
    _compose_sampled_data c0 N d sampled 128 = Ok b ∧
    holds_batch self N sampled b ∧
    ∀ (n : nat) i, sampled !! n = Some i →
      segment_copied d (b_sigma_p b) (b_mels b) (b_secs b) n i.
Proof.
  intros Hrng Hlen Hinit Hrun.
  destruct (init_attributes _ _ _ _ _ _ _ _ _ _ Hinit) as (d & Hd & Hattr & _).
  destruct (run_last_batch _ _ _ _ _ _ _ _ _ _ Hattr Hrun)
    as (g & draw & g' & b & st & Hdraw & Hlast & Hb & Hbatch & _).
  assert (Hin : Forall (λ i, 0 ≤ i < length sigma_s) (merge_sort Z.le draw)).
  { rewrite merge_sort_Permutation. by eapply Hrng. }
  exists d, (merge_sort Z.le draw), b.
  repeat (split; [done || apply (Sorted_merge_sort Z.le)|]).
  destruct (convert_data_wf c0 _ _ _ _ Hlen Hd) as [Hwf Hn].
  rewrite <- Hn in Hin.
  destruct (compose_sampled_data_spec c0 N d (merge_sort Z.le draw) 128 Hwf Hin ltac:(lia))
    as (st' & _ & Hb' & Htot & Hrange & Hsp & Hm & Hsecs & H0 & _ & Hcopied).
  cbv zeta in Hb'. rewrite Hb in Hb'. injection Hb' as ->. cbn [b_sigma_p b_mels b_secs].
  intros n i Hi.
  pose proof (wf_max d Hwf).
  pose proof (ceil_div_spec (copied_total d (merge_sort Z.le draw)) (ds_max_len d `max` 128)
                ltac:(lia)).
  apply (segment_copied_extend d _ _ _ _ _ (copied_total d (merge_sort Z.le draw))); try lia.
  by apply Hcopied.
Qed.


(** A run of [steps] steps raises the step count by [steps] and leaves a
    variational state in the driver. *)
Lemma advance_step_count steps : ∀ self tr self' (count : Z) st,
  self !! "_step_count" = Some (QSR.VInt count) →
  self !! "_variational_state" = Some (QSR.VState_ st) →
  QSR.advance c0 steps self = Ok (tr, self') →
  self' !! "_step_count" = Some (QSR.VInt (count + steps)) ∧
  ∃ st', self' !! "_variational_state" = Some (QSR.VState_ st').
Proof.
  induction steps as [|steps IH]; intros self tr self' count st Hcount Hst Hrun.
  { simpl in Hrun. injection Hrun as <- <-. rewrite Hcount, Z.add_0_r. eauto. }
  apply advance_S_inv in Hrun
    as (dp & self1 & sampled & count1 & optimizer & st1 & rest & Hstep & _ & Hcount1
        & -> & Hrest).
  destruct (step_frame _ _ _ Hstep) as [Hframe _].
  rewrite Hframe, Hcount in Hcount1 by not_written. injection Hcount1 as <-.
  set (self2 := <["_variational_state" := QSR.VState_ st1]> _) in Hrest.
  assert (Hc2 : self2 !! "_step_count" = Some (QSR.VInt (count + 1))).
  { unfold self2. rewrite !lookup_insert_ne by done. by rewrite lookup_insert_eq. }
  assert (Hs2 : self2 !! "_variational_state" = Some (QSR.VState_ st1)).
  { unfold self2. by rewrite lookup_insert_eq. }
  destruct (IH _ _ _ _ _ Hc2 Hs2 Hrest) as [Hc Hs].
  split; [|exact Hs]. rewrite Hc. do 2 f_equal. lia.
Qed.

Section Reports.
Variable info_line : string → @QSR.pyval Coeff Op R VState Optimizer Rng → nat → string.
Variable join_lines : nat → list string → string.
Variable repr_driver : Z → VState → string.

(** X13. [info] cannot return: it reads the attribute [sr], which neither
    [__init__] nor any training step creates; on a freshly built driver and
    after any number of steps it fails with the attribute error for [sr],
    whatever the depth. *)
Theorem info_fails e N sigma_s Us training_batch_size optimizer variational_state
    preconditioner seed self0 steps tr self depth :
  QSR.__init__ c0 e (QSR.TDPair N sigma_s Us) training_batch_size optimizer
    variational_state preconditioner seed = Ok self0 →
  QSR.advance c0 steps self0 = Ok (tr, self) →
  self !! "sr" = None ∧
  QSR.info info_line join_lines repr_driver self depth = Err (AttributeError "sr").
Proof.
  intros Hinit Hrun.
  destruct (init_attributes _ _ _ _ _ _ _ _ _ _ Hinit)
    as (d & _ & _ & Hopt & _ & _ & _ & _ & Hsr).
  destruct (advance_frame _ _ _ _ Hrun) as (Hframe & _ & Hkeep).
  destruct Hkeep as [o Ho]; [by rewrite Hopt|].
  assert (Hsr' : self !! "sr" = None) by (rewrite Hframe by not_written; done).
  split; [done|].
  unfold QSR.info, QSR.getattr. rewrite Ho, Hsr'. done.
Qed.

(** X15. [repr] of a driver returns, on a freshly built driver and after
    any number of training steps, and it is formatted from the number of
    steps run so far and the variational state the driver holds. *)
Theorem repr_after_run e N sigma_s Us training_batch_size optimizer variational_state
    preconditioner seed self0 steps tr self :
  QSR.__init__ c0 e (QSR.TDPair N sigma_s Us) training_batch_size optimizer
    variational_state preconditioner seed = Ok self0 →
  QSR.advance c0 steps self0 = Ok (tr, self) →
  ∃ st, QSR.state self = Ok st ∧
    QSR.__repr__ repr_driver self = Ok (repr_driver steps st).
Proof.
  intros Hinit Hrun.
  destruct (init_attributes _ _ _ _ _ _ _ _ _ _ Hinit)
    as (d & _ & _ & _ & Hst & Hcount & _).
  destruct (advance_step_count _ _ _ _ _ _ Hcount Hst Hrun) as [Hc [st' Hs]].
  exists st'. unfold QSR.__repr__, QSR.state, QSR.getattr. rewrite Hc, Hs. simpl.
  done.
Qed.

End Reports.
End DriverRun.

(** The scripted generator draws below its bound. *)
Lemma lcg_draws_range n size : ∀ g,
  0 < n → Forall (λ i, 0 ≤ i < n) (lcg_draws g n size).1.
Proof.
  induction size as [|size IH]; intros g Hn; simpl; [constructor|].
  specialize (IH ((1103515245 * g + 12345) `mod` 2147483648) Hn).
  destruct (lcg_draws _ n size) as [rest g'']. simpl in *.
  constructor; [|done]. by apply Z.mod_pos_bound.
Qed.

Lemma scripted_rng_in_range (g n size : Z) (draw : list Z) (g' : Z) :
  rng_integers g n size = Ok (draw, g') → Forall (λ i, 0 ≤ i < n) draw.
Proof.
  simpl. destruct (Z.leb_spec n 0); simpl; [discriminate|].
  destruct (Z.ltb_spec size 0); simpl; [discriminate|].
  intros [= Heq]. pose proof (lcg_draws_range n (Z.to_nat size) g ltac:(lia)) as Hr.
  by rewrite Heq in Hr.
Qed.

(** After three steps the example driver still holds the example dataset. *)
Lemma training_data_preserved_witness :
  ∃ self, QSR.advance amp_zero 3 example_self = Ok (example_trace, self) ∧
    training_attributes self 1 example_samples (BasesSeq example_bases) example_dataset 3
      identity_preconditioner.
Proof.
  destruct example_run as [self Hrun]. exists self. split; [exact Hrun|].
  destruct (training_data_preserved amp_zero example_env 1 example_samples
              (BasesSeq example_bases) 3 tt example_state identity_preconditioner (Some 42)
              example_self 3 example_trace self example_driver_built Hrun)
    as (d & Hd & Hattr & _).
  rewrite example_dataset_converted in Hd. injection Hd as <-. exact Hattr.
Defined.

(** The batch the example driver holds after three steps. *)
Lemma run_batch_from_training_data_witness :
  ∃ (self : gmap string (@QSR.pyval amp sym_op Z scripted_state unit Z)) sampled b,
    last example_trace = Some sampled ∧ Sorted Z.le sampled ∧
    Forall (λ i, 0 ≤ i < 2) sampled ∧
    _compose_sampled_data amp_zero 1 example_dataset sampled 128 = Ok b ∧
    holds_batch self 1 sampled b.
Proof.
  destruct example_run as [self Hrun].
  destruct (run_batch_from_training_data amp_zero example_env 1 example_samples
              example_bases 3 tt example_state identity_preconditioner (Some 42)
              example_self 2 example_trace self scripted_rng_in_range
              ltac:(simpl; lia) example_driver_built Hrun)
    as (d & sampled & b & Hd & Hlast & Hsorted & Hin & Hb & Hbatch & _).
  rewrite example_dataset_converted in Hd. injection Hd as <-.
  exists self, sampled, b.
  split; [exact Hlast|]. split; [exact Hsorted|]. split; [exact Hin|].
  split; [exact Hb|exact Hbatch].
Defined.


(** [info] on the example driver, before any step. *)
Lemma info_fails_witness :
  QSR.info (λ _ _ _, "") (λ _ _, "") (λ _ _, "") example_self 0 = Err (AttributeError "sr").
Proof.
  destruct (info_fails amp_zero (λ _ _ _, "") (λ _ _, "") (λ _ _, "") example_env 1
              example_samples (BasesSeq example_bases) 3 tt example_state
              identity_preconditioner (Some 42) example_self 0 [] example_self 0
              example_driver_built eq_refl) as [_ Hinfo].
  exact Hinfo.
Defined.

(** [repr] of the example driver after three steps. *)
Lemma repr_after_run_witness :
  ∃ (self : gmap string (@QSR.pyval amp sym_op Z scripted_state unit Z)) st,
    QSR.advance amp_zero 3 example_self = Ok (example_trace, self) ∧
    QSR.__repr__ (λ (count : Z) (_ : scripted_state),
                    if count =? 3 then "QSR(step_count = 3)" else "QSR") self
      = Ok "QSR(step_count = 3)" ∧ QSR.state self = Ok st.
Proof.
  destruct example_run as [self Hrun].
  destruct (repr_after_run amp_zero
              (λ (count : Z) (_ : scripted_state),
                 if count =? 3 then "QSR(step_count = 3)" else "QSR")
              example_env 1 example_samples (BasesSeq example_bases) 3 tt example_state
              identity_preconditioner (Some 42) example_self 3 example_trace self
              example_driver_built Hrun) as (st & Hst & Hrepr).
  exists self, st. split; [exact Hrun|]. split; [exact Hrepr|exact Hst].
Defined.

(** ** The loss gradient at a stationary point *)

Section Stationary.
Context {R : Type} `{!Real R}.
Hypothesis sub_diag : ∀ x : R, r_sub x x = r_zero.
Hypothesis opp_zero : r_opp (r_zero : R) = r_zero.
Hypothesis double_zero : r_mul r_two (r_zero : R) = r_zero.

Lemma zip_with_diag {A B} (f : A → A → B) (z : B) (l : list A) :
  (∀ x, f x x = z) → zip_with f l l = replicate (length l) z.
Proof. intros Hf. induction l as [|x l IH]; simpl; [done|]. by rewrite Hf, IH. Qed.

Lemma compose_leaf_diag (x : leaf R) : compose_leaf x x = Ok (leaf_zeros_like x).
Proof.
  unfold compose_leaf, leaf_sub. rewrite decide_True by done.
  destruct x as [l|l]; cbn [mbind res_bind leaf_values leaf_conj leaf_double leaf_zeros_like].
  - rewrite (zip_with_diag r_sub r_zero) by done.
    by rewrite fmap_replicate, double_zero.
  - rewrite (zip_with_diag _ (r_zero, r_zero)) by (intros [a b]; simpl; by rewrite !sub_diag).
    rewrite !fmap_replicate. simpl. by rewrite opp_zero, double_zero.
Qed.

(** [tree_map2] on a tree and itself returns when the leaf function does. *)
Lemma tree_map2_diag {A C} (f : A → A → res C) (t : tree A) :
  (∀ a, is_Ok (f a a)) → is_Ok (tree_map2 f t t).
Proof.
  intros Hf. induction t as [a|cs IH] using tree_ind'.
  - simpl. destruct (Hf a) as [c ->]. by eexists.
  - simpl.
    assert (Hgo : is_Ok ((fix go (ts : list (string * tree A)) (us : list (string * tree A))
                 : res (list (string * tree C)) :=
                 match ts, us with
                 | [], [] => Ok []
                 | (k, t') :: ts', (k', u') :: us' =>
                     if decide (k = k') then
                       c ← tree_map2 f t' u'; rest ← go ts' us'; Ok ((k, c) :: rest)
                     else Err ValueError
                 | _, _ => Err ValueError
                 end) cs cs)).
    { induction IH as [|[k c] cs [r Hc] _ [rs IHcs]]; [by eexists|].
      simpl in Hc. rewrite decide_True by done. rewrite Hc. cbn [mbind res_bind].
      rewrite IHcs. by eexists. }
    destruct Hgo as [rs ->]. by eexists.
Qed.

(** X16. When the negative-phase and the positive-phase gradients coincide,
    [compose_grads] returns, and the loss gradient is zero at every leaf,
    with the shape and dtype of the gradient leaf (in exact arithmetic,
    where [x - x = 0], [-0 = 0] and [2 * 0 = 0]). *)
Theorem compose_grads_stationary (g : tree (leaf R)) :
  ∃ z, compose_grads g g = Ok z ∧
    ∀ path x, tree_lookup path g = Some x → tree_lookup path z = Some (leaf_zeros_like x).
Proof.
  destruct (tree_map2_diag compose_leaf g) as [z Hz].
  { intros a. rewrite compose_leaf_diag. by eexists. }
  exists z. split; [exact Hz|].
  intros path x Hx.
  pose proof (tree_map2_lookup _ _ _ _ path Hz) as Hl. rewrite Hx in Hl.
  destruct Hl as (y & c & Hy & Hc & Hzc).
  injection Hy as <-.
  rewrite compose_leaf_diag in Hc. by injection Hc as <-.
Qed.

End Stationary.

(** The loss gradient of the example step would vanish if both phases gave
    the same gradient. *)
Lemma compose_grads_stationary_witness :
  ∃ z, compose_grads example_loss_grad example_loss_grad = Ok z ∧
    tree_lookup ["w"] z = Some (ComplexArr [(0, 0)]).
Proof.
  destruct (@compose_grads_stationary Z Z_real Z.sub_diag eq_refl eq_refl example_loss_grad)
    as (z & Hz & Hall).
  exists z. split; [exact Hz|]. exact (Hall ["w"] (ComplexArr [(2, -2)]) eq_refl).
Defined.
